(** * Dominant-colour extraction engine: a shallow embedding of
      [src/lib/color-extractor.ts]

    The TypeScript class [ColorExtractor] is embedded function by function.

    - Pixel coordinates, byte values, pixel counts, array lengths and the
      [maxColors] / [gridSize] parameters are JavaScript numbers that only
      ever hold integers; they are modelled in [Z] (array indices in [nat]).
      [Math.floor (a / b)] is [Z.div] (floor division) and [a % b] is
      [Z.rem] (the remainder takes the sign of the dividend, as in JS).
    - Frequencies, weights and LAB coordinates are JavaScript doubles.  They
      are embedded three times.  The definitions of the first part read the
      arithmetic exactly, over the real numbers of the Standard Library,
      with [Math.sqrt] as [sqrt] and [Math.pow] as [Rpower]; the properties
      stated over them do not turn on a rounding.  Module [Rounded] passes
      every arithmetic result through a rounding function of the relative
      accuracy of binary64, and module [B64] computes with binary64 numbers
      themselves; the sums, the bounds and the decisions that depend on
      rounding are stated over these two.
    - A JS [Map] iterates in insertion order; it is modelled as an
      association list whose [map_set] keeps the position of an existing key
      and appends a new one.
    - Divisions by zero do not arise on the paths studied: a section that
      holds a pixel has an area of at least 1, the standard area is not 0 for
      a non-zero cell size, the normalisation total is at least 0.1 whenever
      the second pass divides by it, and the frequencies the pipeline hands
      to the merger are positive.
    - [console.log] calls are left out. *)

From Stdlib Require Import Floats.
From Stdlib Require Import ZArith String Ascii List Bool Arith Lia.
From Stdlib Require Import Reals Lra.
From Stdlib Require Import Permutation.
Import ListNotations.

Local Open Scope Z_scope.

(** ** Loops *)

(** [for (let i = lo; i < hi; i++) body], threading the variables the body
    updates as an explicit state. *)
Fixpoint for_upto {St : Type} (n : nat) (i : Z) (body : Z -> St -> St) (s : St) : St :=
  match n with
  | O => s
  | S k => for_upto k (i + 1) body (body i s)
  end.

Definition for_range {St : Type} (lo hi : Z) (body : Z -> St -> St) (s : St) : St :=
  for_upto (Z.to_nat (hi - lo)) lo body s.

(** The values the counter of [for_upto n i] takes. *)
Fixpoint zseq (i : Z) (n : nat) : list Z :=
  match n with
  | O => []
  | S k => i :: zseq (i + 1) k
  end.

(** ** Data model *)

Record RGB : Type := mkRGB { rgb_r : Z; rgb_g : Z; rgb_b : Z }.

Record LAB : Type := mkLAB { lab_l : R; lab_a : R; lab_b : R }.

Record ColorResult : Type := mkColorResult {
  color : string;
  rgb : RGB;
  lab : LAB;
  frequency : R;
  clusterSize : R
}.

(** [ImageData]: [data] holds 4 bytes (r, g, b, alpha) per pixel, row-major. *)
Record ImageData : Type := mkImageData {
  data : list Z;
  width : Z;
  height : Z
}.

(** Invariant of a browser [ImageData]: positive dimensions, one RGBA
    quadruple of bytes per pixel. *)
Definition wf_image (img : ImageData) : Prop :=
  1 <= width img /\ 1 <= height img /\
  Z.of_nat (length (data img)) = 4 * width img * height img /\
  Forall (fun v => 0 <= v <= 255) (data img).

Record GridSection : Type := mkSection {
  startX : Z; startY : Z; endX : Z; endY : Z
}.

(** ** Grid Partitioner: [calculateGridSections] *)

(** For [gridSize = 0] JavaScript computes [Infinity] full rows and the row
    loop does not terminate; the definition below is the code's meaning for
    [gridSize <> 0] only, and every statement about it assumes that. *)
Definition calculateGridSections (width height gridSize : Z) : list GridSection :=
  let fullGridCols := width / gridSize in
  let fullGridRows := height / gridSize in
  let remainderWidth := Z.rem width gridSize in
  let remainderHeight := Z.rem height gridSize in
  let sections : list GridSection := [] in
  (* full grid sections, and the right edge section of each full row *)
  let sections :=
    for_range 0 fullGridRows (fun row sections =>
      let sections :=
        for_range 0 fullGridCols (fun col sections =>
          sections ++ [ {| startX := col * gridSize;
                           startY := row * gridSize;
                           endX := (col + 1) * gridSize;
                           endY := (row + 1) * gridSize |} ]) sections in
      if remainderWidth >? 0 then
        sections ++ [ {| startX := fullGridCols * gridSize;
                         startY := row * gridSize;
                         endX := width;
                         endY := (row + 1) * gridSize |} ]
      else sections) sections in
  (* bottom edge sections and the bottom-right corner *)
  if remainderHeight >? 0 then
    let sections :=
      for_range 0 fullGridCols (fun col sections =>
        sections ++ [ {| startX := col * gridSize;
                         startY := fullGridRows * gridSize;
                         endX := (col + 1) * gridSize;
                         endY := height |} ]) sections in
    if remainderWidth >? 0 then
      sections ++ [ {| startX := fullGridCols * gridSize;
                       startY := fullGridRows * gridSize;
                       endX := width;
                       endY := height |} ]
    else sections
  else sections.

(** ** JavaScript helpers *)

(** [Math.round x] is [floor (x + 0.5)]. *)
Definition Math_round (x : R) : Z := Int_part (x + / 2).

(** [l.slice(start, end)] of an array. *)
Definition js_slice {A : Type} (l : list A) (start end_ : Z) : list A :=
  let len := Z.of_nat (length l) in
  let k := if start <? 0 then Z.max (len + start) 0 else Z.min start len in
  let final := if end_ <? 0 then Z.max (len + end_) 0 else Z.min end_ len in
  firstn (Z.to_nat (final - k)) (skipn (Z.to_nat k) l).

(** [for (let j = lo; j < hi; j++) body] over array indices. *)
Definition for_index {St : Type} (lo hi : nat) (body : nat -> St -> St) (s : St) : St :=
  fold_left (fun st j => body j st) (seq lo (hi - lo)) s.

(** A [Map<string, V>] in insertion order. *)
Definition JSMap (V : Type) : Type := list (string * V).

Fixpoint map_get {V : Type} (k : string) (m : JSMap V) : option V :=
  match m with
  | [] => None
  | (k', v) :: m' => if String.eqb k k' then Some v else map_get k m'
  end.

Fixpoint map_set {V : Type} (k : string) (v : V) (m : JSMap V) : JSMap V :=
  match m with
  | [] => [(k, v)]
  | (k', v') :: m' =>
      if String.eqb k k' then (k', v) :: m' else (k', v') :: map_set k v m'
  end.

(** ** [rgbToHex] *)

Definition hexDigit (d : Z) : ascii :=
  match d with
  | 0 => "0" | 1 => "1" | 2 => "2" | 3 => "3" | 4 => "4" | 5 => "5"
  | 6 => "6" | 7 => "7" | 8 => "8" | 9 => "9" | 10 => "a" | 11 => "b"
  | 12 => "c" | 13 => "d" | 14 => "e" | _ => "f"
  end%char.

(** [Math.max(0, Math.min(255, Math.round(n))).toString(16).padStart(2, '0')];
    the components are integers, on which [Math.round] is the identity. *)
Definition toHex (n : Z) : string :=
  let v := Z.max 0 (Z.min 255 n) in
  String (hexDigit (v / 16)) (String (hexDigit (v mod 16)) EmptyString).

Definition rgbToHex (c : RGB) : string :=
  ("#" ++ toHex (rgb_r c) ++ toHex (rgb_g c) ++ toHex (rgb_b c))%string.

(** ** Colour space converter: [rgbToLab] *)

(** The sRGB gamma expansion applied to each normalised channel. *)
Definition gammaExpand (c : R) : R :=
  if Rgt_dec c 0.04045 then Rpower ((c + 0.055) / 1.055) 2.4 else (c / 12.92)%R.

(** The CIE LAB non-linearity applied to each normalised XYZ coordinate. *)
Definition labF (t : R) : R :=
  if Rgt_dec t 0.008856 then Rpower t (1 / 3) else (7.787 * t + 16 / 116)%R.

Definition rgbToLab (c : RGB) : LAB :=
  let r := (IZR (rgb_r c) / 255)%R in
  let g := (IZR (rgb_g c) / 255)%R in
  let b := (IZR (rgb_b c) / 255)%R in
  let r := gammaExpand r in
  let g := gammaExpand g in
  let b := gammaExpand b in
  let x := (r * 0.4124564 + g * 0.3575761 + b * 0.1804375)%R in
  let y := (r * 0.2126729 + g * 0.7151522 + b * 0.0721750)%R in
  let z := (r * 0.0193339 + g * 0.1191920 + b * 0.9503041)%R in
  let x := (x / 0.95047)%R in
  let y := (y / 1.00000)%R in
  let z := (z / 1.08883)%R in
  let fx := labF x in
  let fy := labF y in
  let fz := labF z in
  {| lab_l := 116 * fy - 16; lab_a := 500 * (fx - fy); lab_b := 200 * (fy - fz) |}%R.

(** ** Perceptual distance: [labDistanceCIE94] *)

Definition labDistanceCIE94 (lab1 lab2 : LAB) : R :=
  let dl := (lab_l lab1 - lab_l lab2)%R in
  let da := (lab_a lab1 - lab_a lab2)%R in
  let db := (lab_b lab1 - lab_b lab2)%R in
  let c1 := sqrt (lab_a lab1 * lab_a lab1 + lab_b lab1 * lab_b lab1) in
  let c2 := sqrt (lab_a lab2 * lab_a lab2 + lab_b lab2 * lab_b lab2) in
  let dc := (c1 - c2)%R in
  let dh := sqrt (da * da + db * db - dc * dc) in
  let sl := 1%R in
  let kc := 1%R in
  let kh := 1%R in
  let k1 := 0.045%R in
  let k2 := 0.015%R in
  let sc := (1 + k1 * c1)%R in
  let sh := (1 + k2 * c1)%R in
  let deltaE :=
    sqrt ((dl / sl) ^ 2 + (dc / (kc * sc)) ^ 2 + (dh / (kh * sh)) ^ 2) in
  deltaE.

(** ** Cell histogram builder: [countPixelsByColor] *)

Record ColorCount : Type := mkColorCount { cc_rgb : RGB; count : Z }.

(** [data[idx]]; inside a well-formed image every index read is in range. *)
Definition data_at (imageData : ImageData) (idx : Z) : Z :=
  nth (Z.to_nat idx) (data imageData) 0.

(** The body of the two pixel loops for the pixel [(x, y)]; the test
    [colorCounts.has] and the access [colorCounts.get] are one [map_get]. *)
Definition countPixel (imageData : ImageData) (x y : Z)
    (colorCounts : JSMap ColorCount) : JSMap ColorCount :=
  let idx := (y * width imageData + x) * 4 in
  let alpha := data_at imageData (idx + 3) in
  if alpha <? 128 then colorCounts   (* skip transparent pixels *)
  else
    let rgb := {| rgb_r := data_at imageData idx;
                  rgb_g := data_at imageData (idx + 1);
                  rgb_b := data_at imageData (idx + 2) |} in
    let colorHex := rgbToHex rgb in
    match map_get colorHex colorCounts with
    | Some e => map_set colorHex {| cc_rgb := cc_rgb e; count := count e + 1 |} colorCounts
    | None => map_set colorHex {| cc_rgb := rgb; count := 1 |} colorCounts
    end.

Definition countPixelsByColor (imageData : ImageData)
    (startX startY endX endY : Z) : JSMap ColorCount :=
  let colorCounts : JSMap ColorCount := [] in
  for_range startY endY (fun y colorCounts =>
    for_range startX endX (fun x colorCounts =>
      countPixel imageData x y colorCounts) colorCounts) colorCounts.

(** ** Global weight aggregator *)

Record ColorWeight : Type := mkColorWeight { cw_rgb : RGB; weightedFrequency : R }.

(** [localPercentage] of the loop over a section's histogram. *)
Definition localPercentage (count totalPixelsInSection : Z) : R :=
  (IZR count / IZR totalPixelsInSection * 100)%R.

(** One iteration of the loop over [colorCounts.entries()]; the test
    [globalColorWeights.has] and the access [get] are one [map_get]. *)
Definition addWeighted (totalPixelsInSection : Z) (areaWeight : R)
    (globalColorWeights : JSMap ColorWeight) (entry : string * ColorCount)
    : JSMap ColorWeight :=
  let '(colorHex, e) := entry in
  let weightedPercentage := (localPercentage (count e) totalPixelsInSection * areaWeight)%R in
  match map_get colorHex globalColorWeights with
  | Some w =>
      map_set colorHex {| cw_rgb := cw_rgb w;
                          weightedFrequency := weightedFrequency w + weightedPercentage |}
              globalColorWeights
  | None =>
      map_set colorHex {| cw_rgb := cc_rgb e; weightedFrequency := weightedPercentage |}
              globalColorWeights
  end.

(** One iteration of the loop over [gridSections]. *)
Definition accumulateSection (imageData : ImageData) (standardGridSize : Z)
    (globalColorWeights : JSMap ColorWeight) (section : GridSection)
    : JSMap ColorWeight :=
  let standardArea := standardGridSize * standardGridSize in
  let sectionWidth := endX section - startX section in
  let sectionHeight := endY section - startY section in
  let sectionArea := sectionWidth * sectionHeight in
  let colorCounts :=
    countPixelsByColor imageData (startX section) (startY section)
                       (endX section) (endY section) in
  let areaWeight := (IZR sectionArea / IZR standardArea)%R in
  let totalPixelsInSection := sectionArea in
  fold_left (addWeighted totalPixelsInSection areaWeight) colorCounts globalColorWeights.

(** The map [globalColorWeights] after all sections are processed. *)
Definition aggregateWeights (imageData : ImageData) (standardGridSize : Z)
    : JSMap ColorWeight :=
  let gridSections :=
    calculateGridSections (width imageData) (height imageData) standardGridSize in
  fold_left (accumulateSection imageData standardGridSize) gridSections [].

(** First pass: the total of the weights that reach 0.1. *)
Definition totalWeightedFrequency (globalColorWeights : JSMap ColorWeight) : R :=
  fold_left (fun total (entry : string * ColorWeight) =>
               if Rge_dec (weightedFrequency (snd entry)) 0.1
               then (total + weightedFrequency (snd entry))%R else total)
            globalColorWeights 0%R.

(** Second pass: one [ColorResult] per weight that reaches 0.1. *)
Definition normalizedResults (globalColorWeights : JSMap ColorWeight) : list ColorResult :=
  let totalWeightedFrequency := totalWeightedFrequency globalColorWeights in
  fold_left (fun results (entry : string * ColorWeight) =>
               let '(colorHex, d) := entry in
               if Rge_dec (weightedFrequency d) 0.1 then
                 let normalizedPercentage :=
                   (weightedFrequency d / totalWeightedFrequency * 100)%R in
                 results ++ [ {| color := colorHex;
                                 rgb := cw_rgb d;
                                 lab := rgbToLab (cw_rgb d);
                                 frequency := normalizedPercentage;
                                 clusterSize := IZR (Math_round (weightedFrequency d * 10)) |} ]
               else results)
            globalColorWeights [].

(** [results.sort((a, b) => b.frequency - a.frequency)]: a stable sort,
    descending by frequency. *)
Fixpoint insertByFrequency (x : ColorResult) (l : list ColorResult) : list ColorResult :=
  match l with
  | [] => [x]
  | y :: l' =>
      if Rlt_dec (frequency x) (frequency y) then y :: insertByFrequency x l' else x :: l
  end.

Definition sortByFrequencyDesc (l : list ColorResult) : list ColorResult :=
  fold_right insertByFrequency [] l.

(** ** Conservative merger: [mergeSimilarColorsConservative] *)

(** The variables the inner loop updates. *)
Record MergeAcc : Type := mkMergeAcc {
  acc_used : list nat;
  totalFrequency : R;
  totalR : R;
  totalG : R;
  totalB : R
}.

Definition used_has (i : nat) (used : list nat) : bool := existsb (Nat.eqb i) used.

Definition isRedColor (c : ColorResult) : bool :=
  (rgb_r (rgb c) >? 180) && (rgb_g (rgb c) <? 100) && (rgb_b (rgb c) <? 100).

Definition mergeThreshold (baseColor : ColorResult) : R :=
  if isRedColor baseColor then 1.5%R else 3%R.

(** Body of the inner loop [for (let j = i + 1; j < colors.length; j++)]. *)
Definition mergeStep (colors : list ColorResult) (baseColor : ColorResult)
    (j : nat) (acc : MergeAcc) : MergeAcc :=
  if used_has j (acc_used acc) then acc
  else match nth_error colors j with
       | None => acc
       | Some compareColor =>
           let distance := labDistanceCIE94 (lab baseColor) (lab compareColor) in
           if Rlt_dec distance (mergeThreshold baseColor) then
             {| acc_used := j :: acc_used acc;
                totalFrequency := totalFrequency acc + frequency compareColor;
                totalR := totalR acc + IZR (rgb_r (rgb compareColor)) * frequency compareColor;
                totalG := totalG acc + IZR (rgb_g (rgb compareColor)) * frequency compareColor;
                totalB := totalB acc + IZR (rgb_b (rgb compareColor)) * frequency compareColor |}%R
           else acc
       end.

(** The entry pushed to [merged] from the totals of a group. *)
Definition mergedEntry (acc : MergeAcc) : ColorResult :=
  let avgRgb := {| rgb_r := Math_round (totalR acc / totalFrequency acc);
                   rgb_g := Math_round (totalG acc / totalFrequency acc);
                   rgb_b := Math_round (totalB acc / totalFrequency acc) |} in
  {| color := rgbToHex avgRgb;
     rgb := avgRgb;
     lab := rgbToLab avgRgb;
     frequency := totalFrequency acc;
     clusterSize := totalFrequency acc |}.

(** The group of the base colour [colors[i]]: the totals start from the base
    and the inner loop adds every later unused colour below the threshold. *)
Definition mergeGroup (colors : list ColorResult) (i : nat) (baseColor : ColorResult)
    (used : list nat) : MergeAcc :=
  let init := {| acc_used := used;
                 totalFrequency := frequency baseColor;
                 totalR := IZR (rgb_r (rgb baseColor)) * frequency baseColor;
                 totalG := IZR (rgb_g (rgb baseColor)) * frequency baseColor;
                 totalB := IZR (rgb_b (rgb baseColor)) * frequency baseColor |}%R in
  for_index (S i) (length colors) (mergeStep colors baseColor) init.

(** The outer loop
    [for (let i = 0; i < colors.length && merged.length < maxColors; i++)].
    [fuel] bounds the iterations left; [length colors] of them are enough
    since [i] grows by one each time. *)
Fixpoint mergeLoop (colors : list ColorResult) (maxColors : Z) (fuel : nat) (i : nat)
    (merged : list ColorResult) (used : list nat) : list ColorResult :=
  match fuel with
  | O => merged
  | S fuel' =>
      if (i <? length colors)%nat && (Z.of_nat (length merged) <? maxColors) then
        if used_has i used then mergeLoop colors maxColors fuel' (S i) merged used
        else match nth_error colors i with
             | None => merged
             | Some baseColor =>
                 let acc := mergeGroup colors i baseColor used in
                 mergeLoop colors maxColors fuel' (S i)
                           (merged ++ [mergedEntry acc]) (i :: acc_used acc)
             end
      else merged
  end.

Definition mergeSimilarColorsConservative (colors : list ColorResult) (maxColors : Z)
    : list ColorResult :=
  if Z.of_nat (length colors) <=? maxColors then colors
  else mergeLoop colors maxColors (length colors) 0%nat [] [].

(** ** Significance selector: [selectDiverseColors] *)

Definition MIN_FREQUENCY_THRESHOLD : R := 0.5%R.

Definition isSignificant (c : ColorResult) : bool :=
  if Rge_dec (frequency c) MIN_FREQUENCY_THRESHOLD then true else false.

Record ColorCategories : Type := mkCategories {
  cat_red : list ColorResult; cat_orange : list ColorResult;
  cat_purple : list ColorResult; cat_blue : list ColorResult;
  cat_gray : list ColorResult; cat_other : list ColorResult
}.

Definition isRed (c : ColorResult) : bool :=
  (rgb_r (rgb c) >? 180) && (rgb_g (rgb c) <? 100) && (rgb_b (rgb c) <? 100).
Definition isOrange (c : ColorResult) : bool :=
  (rgb_r (rgb c) >? 200) && (rgb_g (rgb c) >? 100) && (rgb_g (rgb c) <? 150)
  && (rgb_b (rgb c) <? 100).
Definition isPurple (c : ColorResult) : bool :=
  (rgb_r (rgb c) >? 100) && (rgb_g (rgb c) <? 100) && (rgb_b (rgb c) >? 100).
Definition isBlue (c : ColorResult) : bool :=
  (rgb_r (rgb c) <? 100) && (rgb_g (rgb c) <? 100) && (rgb_b (rgb c) >? 100).
Definition isGray (c : ColorResult) : bool :=
  (Z.abs (rgb_r (rgb c) - rgb_g (rgb c)) <? 30)
  && (Z.abs (rgb_g (rgb c) - rgb_b (rgb c)) <? 30).

(** The categories are computed and only logged. *)
Definition categorize (significantColors : list ColorResult) : ColorCategories :=
  {| cat_red := filter isRed significantColors;
     cat_orange := filter isOrange significantColors;
     cat_purple := filter isPurple significantColors;
     cat_blue := filter isBlue significantColors;
     cat_gray := filter isGray significantColors;
     cat_other := filter (fun c => negb (isRed c) && negb (isOrange c) && negb (isPurple c)
                                   && negb (isBlue c) && negb (isGray c))
                         significantColors |}.

Definition selectDiverseColors (colors : list ColorResult) (maxColors : Z)
    : list ColorResult :=
  let significantColors := filter isSignificant colors in
  if Z.of_nat (length significantColors) <=? maxColors then significantColors
  else
    let colorCategories := categorize significantColors in
    let selected := js_slice significantColors 0 maxColors in
    selected.

(** ** The pipeline: [extractColorsWeightedGrid] and [extractColors] *)

Definition extractColorsWeightedGrid (imageData : ImageData) (maxColors : Z)
    (standardGridSize : Z) : list ColorResult :=
  let globalColorWeights := aggregateWeights imageData standardGridSize in
  let results := normalizedResults globalColorWeights in
  let results := sortByFrequencyDesc results in
  let mergedResults := mergeSimilarColorsConservative results (maxColors * 3) in
  let finalSelection := selectDiverseColors mergedResults maxColors in
  finalSelection.

(** Outcome of the asynchronous call. *)
Inductive Promise (A : Type) : Type :=
| Fulfilled (value : A)
| Rejected (message : string).
Arguments Fulfilled {A} value.
Arguments Rejected {A} message.

(** [extractColors].  [canvasAvailable] says whether the constructor obtained
    a canvas and its 2d context; [pixels] is the outcome of loading the image
    and reading it back with [getImageData] at full resolution (the default
    [maxDimension = Infinity]).  Every exception raised inside the [try] is
    caught and replaced by one generic error. *)
Definition extractColors (canvasAvailable : bool) (pixels : Promise ImageData)
    (maxColors : Z) (standardGridSize : Z) : Promise (list ColorResult) :=
  if negb canvasAvailable then
    Rejected "Failed to extract colors using weighted grid analysis"
  else
    match pixels with
    | Rejected _ => Rejected "Failed to extract colors using weighted grid analysis"
    | Fulfilled imageData =>
        let results := extractColorsWeightedGrid imageData maxColors standardGridSize in
        Fulfilled (sortByFrequencyDesc results)
    end.

(** ** Definitions used to state the properties *)

(** Pixel [(x, y)] lies in the half-open rectangle of a section. *)
Definition covers (x y : Z) (s : GridSection) : bool :=
  (startX s <=? x) && (x <? endX s) && (startY s <=? y) && (y <? endY s).

(** Number of sections of a list that contain the pixel. *)
Definition cover_count (x y : Z) (l : list GridSection) : nat :=
  length (filter (covers x y) l).

Definition sectionWidth (s : GridSection) : Z := endX s - startX s.
Definition sectionHeight (s : GridSection) : Z := endY s - startY s.
Definition sectionArea (s : GridSection) : Z := sectionWidth s * sectionHeight s.

(** A section is a non-empty rectangle inside the image. *)
Definition section_in_image (W H : Z) (s : GridSection) : Prop :=
  0 <= startX s /\ startX s < endX s /\ endX s <= W /\
  0 <= startY s /\ startY s < endY s /\ endY s <= H.

Definition cell (gridSize row col : Z) : GridSection :=
  {| startX := col * gridSize; startY := row * gridSize;
     endX := (col + 1) * gridSize; endY := (row + 1) * gridSize |}.

Definition rightEdge (width gridSize row : Z) : GridSection :=
  {| startX := (width / gridSize) * gridSize; startY := row * gridSize;
     endX := width; endY := (row + 1) * gridSize |}.

Definition bottomEdge (height gridSize col : Z) : GridSection :=
  {| startX := col * gridSize; startY := (height / gridSize) * gridSize;
     endX := (col + 1) * gridSize; endY := height |}.

Definition corner (width height gridSize : Z) : GridSection :=
  {| startX := (width / gridSize) * gridSize; startY := (height / gridSize) * gridSize;
     endX := width; endY := height |}.

Definition fullRow (width gridSize row : Z) : list GridSection :=
  map (cell gridSize row) (zseq 0 (Z.to_nat (width / gridSize))) ++
  (if Z.rem width gridSize >? 0 then [rightEdge width gridSize row] else []).

Definition bottomRow (width height gridSize : Z) : list GridSection :=
  if Z.rem height gridSize >? 0 then
    map (bottomEdge height gridSize) (zseq 0 (Z.to_nat (width / gridSize))) ++
    (if Z.rem width gridSize >? 0 then [corner width height gridSize] else [])
  else [].

(** The section that is the whole image. *)
Definition wholeImage (W H : Z) : GridSection :=
  {| startX := 0; startY := 0; endX := W; endY := H |}.

(** Being a subsequence: the entries of the first list occur in the second,
    in the same order. *)
Inductive subseq {A : Type} : list A -> list A -> Prop :=
| subseq_nil : subseq [] []
| subseq_skip x l1 l2 : subseq l1 l2 -> subseq l1 (x :: l2)
| subseq_keep x l1 l2 : subseq l1 l2 -> subseq (x :: l1) (x :: l2).

Local Open Scope R_scope.

(** A neutral colour and a colour of chroma 5 with the same lightness. *)
Definition labNeutral : LAB := {| lab_l := 50; lab_a := 0; lab_b := 0 |}.
Definition labChroma5 : LAB := {| lab_l := 50; lab_a := 3; lab_b := 4 |}.

(** Sample colours: two grays 2 units of distance apart and two reds 3 units
    apart. *)
Definition grayA : ColorResult :=
  {| color := "#808080"; rgb := mkRGB 128 128 128; lab := mkLAB 54 0 0;
     frequency := 30; clusterSize := 30 |}.
Definition grayB : ColorResult :=
  {| color := "#7b7b7b"; rgb := mkRGB 123 123 123; lab := mkLAB 52 0 0;
     frequency := 25; clusterSize := 25 |}.
Definition redA : ColorResult :=
  {| color := "#dc1c25"; rgb := mkRGB 220 28 37; lab := mkLAB 47 70 45;
     frequency := 20; clusterSize := 20 |}.
Definition redB : ColorResult :=
  {| color := "#d21820"; rgb := mkRGB 210 24 32; lab := mkLAB 44 70 45;
     frequency := 15; clusterSize := 15 |}.

(** An entry below the significance threshold. *)
Definition faint : ColorResult :=
  {| color := "#0a0b0c"; rgb := mkRGB 10 11 12; lab := mkLAB 3 0 0;
     frequency := 0.3; clusterSize := 1 |}.

(** The test of the inner loop: [distance < mergeThreshold]. *)
Definition closeTo (baseColor c : ColorResult) : bool :=
  if Rlt_dec (labDistanceCIE94 (lab baseColor) (lab c)) (mergeThreshold baseColor)
  then true else false.

Definition sumFrequency (l : list ColorResult) : R :=
  fold_right (fun c s => frequency c + s) 0 l.

(** [closeTo] at an index of the array. *)
Definition closeAt (colors : list ColorResult) (baseColor : ColorResult) (j : nat) : bool :=
  match nth_error colors j with
  | Some c => closeTo baseColor c
  | None => false
  end.

Local Close Scope R_scope.

(** A 1x1 image holding one opaque red pixel. *)
Definition onePixel : ImageData :=
  {| data := [255; 0; 0; 255]; width := 1; height := 1 |}.

(** A 20x10 image of opaque pixels: four rows of blue, then six rows of
    red. *)
Definition twoTone : ImageData :=
  {| data := concat (repeat [0; 0; 255; 255] 80) ++ concat (repeat [255; 0; 0; 255] 120);
     width := 20; height := 10 |}.

(** The count recorded for a colour key, 0 when the key is absent. *)
Definition countOf (k : string) (colorCounts : JSMap ColorCount) : Z :=
  match map_get k colorCounts with
  | Some e => count e
  | None => 0
  end.

(** The sum of all counts of a histogram. *)
Definition totalCount (colorCounts : JSMap ColorCount) : Z :=
  fold_right (fun entry s => count (snd entry) + s) 0 colorCounts.

(** Histogram invariant: keys are distinct and counts are not negative. *)
Definition hist_ok (colorCounts : JSMap ColorCount) : Prop :=
  NoDup (map fst colorCounts) /\ Forall (fun entry => 0 <= count (snd entry)) colorCounts.

Local Open Scope R_scope.

(** The weight accumulated for a colour key, 0 when the key is absent. *)
Definition weightOf (k : string) (globalColorWeights : JSMap ColorWeight) : R :=
  match map_get k globalColorWeights with
  | Some w => weightedFrequency w
  | None => 0
  end.

Definition sumR (l : list R) : R := fold_right Rplus 0 l.

(** The histogram of a section. *)
Definition sectionHistogram (imageData : ImageData) (s : GridSection) : JSMap ColorCount :=
  countPixelsByColor imageData (startX s) (startY s) (endX s) (endY s).

(** What one section adds to the weight of a colour key: the local
    percentage over the section's area, times the area weight. *)
Definition sectionWeight (imageData : ImageData) (S : Z) (k : string) (s : GridSection) : R :=
  localPercentage (countOf k (sectionHistogram imageData s)) (sectionArea s)
  * (IZR (sectionArea s) / IZR (S * S)).

Local Close Scope R_scope.

(** The number of pixels of a section that the alpha test skips. *)
Definition transparentPixels (imageData : ImageData) (s : GridSection) : Z :=
  for_range (startY s) (endY s) (fun y n =>
    for_range (startX s) (endX s) (fun x n =>
      if data_at imageData ((y * width imageData + x) * 4 + 3) <? 128
      then n + 1 else n) n) 0.




(** A 2x1 image: an opaque red pixel and a fully transparent pixel. *)
Definition halfTransparent : ImageData :=
  {| data := [255; 0; 0; 255; 0; 0; 0; 0]; width := 2; height := 1 |}.

Definition sumZ (l : list Z) : Z := fold_right Z.add 0 l.

Definition totalArea (sections : list GridSection) : Z :=
  sumZ (map sectionArea sections).

Local Open Scope R_scope.

(** The test of both normalisation passes: [weightedFrequency >= 0.1]. *)
Definition qualifies (entry : string * ColorWeight) : bool :=
  if Rge_dec (weightedFrequency (snd entry)) 0.1 then true else false.

(** The [ColorResult] the second pass pushes for an entry. *)
Definition toResult (total : R) (entry : string * ColorWeight) : ColorResult :=
  {| color := fst entry;
     rgb := cw_rgb (snd entry);
     lab := rgbToLab (cw_rgb (snd entry));
     frequency := weightedFrequency (snd entry) / total * 100;
     clusterSize := IZR (Math_round (weightedFrequency (snd entry) * 10)) |}.

(** A fully opaque image: no pixel fails the alpha test. *)
Definition fullyOpaque (imageData : ImageData) : Prop :=
  forall x y, (0 <= x < width imageData)%Z -> (0 <= y < height imageData)%Z ->
    (128 <= data_at imageData ((y * width imageData + x) * 4 + 3))%Z.

(** A 6x6 image of one opaque colour. *)
Definition solid6x6 : ImageData :=
  {| data := concat (repeat [10; 20; 30; 255]%Z 36); width := 6; height := 6 |}.

Definition nonnegFrequencies (l : list ColorResult) : Prop :=
  Forall (fun c => 0 <= frequency c) l.

(** The frequency of [colors[j]], 0 outside the array. *)
Definition freqAt (colors : list ColorResult) (j : nat) : R :=
  match nth_error colors j with
  | Some c => frequency c
  | None => 0
  end.

(** The total frequency of the colours at the indices [js] that are not yet
    marked as merged. *)
Definition pending (colors : list ColorResult) (used : list nat) (js : list nat) : R :=
  sumR (map (fun j => if used_has j used then 0 else freqAt colors j) js).

(** The inner loop takes the colour at [j] into the group. *)
Definition absorbed (colors : list ColorResult) (baseColor : ColorResult)
    (used : list nat) (j : nat) : bool :=
  negb (used_has j used) && closeAt colors baseColor j.

Local Close Scope R_scope.

(** ** Further definitions used to state properties *)

(** [ceil (a / b)] for positive [b]. *)
Definition ceilDiv (a b : Z) : Z := (a + b - 1) / b.

(** A character of [0123456789abcdef]. *)
Definition isLowerHexDigit (c : ascii) : bool :=
  existsb (Ascii.eqb c) (list_ascii_of_string "0123456789abcdef").

(** The value of a lower-case hexadecimal digit. *)
Definition hexValue (c : ascii) : Z :=
  match c with
  | "0" => 0 | "1" => 1 | "2" => 2 | "3" => 3 | "4" => 4 | "5" => 5
  | "6" => 6 | "7" => 7 | "8" => 8 | "9" => 9 | "a" => 10 | "b" => 11
  | "c" => 12 | "d" => 13 | "e" => 14 | _ => 15
  end%char.

(** The components of a colour are bytes. *)
Definition byteRGB (c : RGB) : Prop :=
  0 <= rgb_r c <= 255 /\ 0 <= rgb_g c <= 255 /\ 0 <= rgb_b c <= 255.

(** Every pixel of the image fails the alpha test. *)
Definition fullyTransparent (imageData : ImageData) : Prop :=
  forall x y, 0 <= x < width imageData -> 0 <= y < height imageData ->
    data_at imageData ((y * width imageData + x) * 4 + 3) < 128.

(** A 2x2 image whose four pixels are transparent. *)
Definition clear2x2 : ImageData :=
  {| data := concat (repeat [9; 9; 9; 0] 4); width := 2; height := 2 |}.

(** The chroma of a LAB colour, [c1] and [c2] of [labDistanceCIE94]. *)
Definition chroma (c : LAB) : R :=
  sqrt (lab_a c * lab_a c + lab_b c * lab_b c)%R.

(** The list is ordered by frequency, highest first. *)
Fixpoint sortedDesc (l : list ColorResult) : Prop :=
  match l with
  | [] => True
  | x :: l' => (forall y, In y l' -> (frequency y <= frequency x)%R) /\ sortedDesc l'
  end.

(** The entries of a given frequency. *)
Definition hasFrequency (f : R) (c : ColorResult) : bool :=
  if Req_dec_T (frequency c) f then true else false.

(** The hex code and the LAB value of an entry are those of its RGB value. *)
Definition consistent (c : ColorResult) : Prop :=
  color c = rgbToHex (rgb c) /\ lab c = rgbToLab (rgb c).

(** The string is [#] followed by six characters of [0123456789abcdef]. *)
Definition isHexColor (s : string) : bool :=
  match s with
  | String "#" digits =>
      (String.length digits =? 6)%nat && forallb isLowerHexDigit (list_ascii_of_string digits)
  | _ => false
  end.

(** ** [extractColorsFromImage] *)

(** The utility function: a fresh extractor, the default cell size 200 and
    the hex codes of the result. *)
Definition extractColorsFromImage (canvasAvailable : bool) (pixels : Promise ImageData)
    (colorCount : Z) : Promise (list string) :=
  match extractColors canvasAvailable pixels colorCount 200 with
  | Fulfilled results => Fulfilled (map color results)
  | Rejected message => Rejected message
  end.

(** ** [calculateDimensions] *)

(** The parameter [maxDimension]: a finite number or [Infinity], its
    default. *)
Inductive MaxDimension : Type :=
| FiniteDimension (d : R)
| Infinity.

Record Dimensions : Type := mkDimensions { dim_width : R; dim_height : R }.

Definition calculateDimensions (originalWidth originalHeight : Z)
    (maxDimension : MaxDimension) : Dimensions :=
  let unchanged :=
    {| dim_width := IZR originalWidth; dim_height := IZR originalHeight |} in
  match maxDimension with
  | Infinity => unchanged
  | FiniteDimension m =>
      let scaled :=
        let ratio := (IZR originalWidth / IZR originalHeight)%R in
        if originalWidth >? originalHeight then
          {| dim_width := m; dim_height := IZR (Math_round (m / ratio)) |}
        else
          {| dim_width := IZR (Math_round (m * ratio)); dim_height := m |} in
      if Rle_dec (IZR originalWidth) m then
        if Rle_dec (IZR originalHeight) m then unchanged else scaled
      else scaled
  end.

(** ** [calculateClusterCentroid] *)

Definition calculateClusterCentroid (cluster : list RGB) : RGB :=
  if (length cluster =? 0)%nat then {| rgb_r := 0; rgb_g := 0; rgb_b := 0 |}
  else
    let sum :=
      fold_left (fun acc pixel =>
                   {| rgb_r := rgb_r acc + rgb_r pixel;
                      rgb_g := rgb_g acc + rgb_g pixel;
                      rgb_b := rgb_b acc + rgb_b pixel |})
                cluster {| rgb_r := 0; rgb_g := 0; rgb_b := 0 |} in
    {| rgb_r := Math_round (IZR (rgb_r sum) / IZR (Z.of_nat (length cluster)));
       rgb_g := Math_round (IZR (rgb_g sum) / IZR (Z.of_nat (length cluster)));
       rgb_b := Math_round (IZR (rgb_b sum) / IZR (Z.of_nat (length cluster))) |}.

(** ** [getColorRange] and [splitBucket] *)

(** The six running bounds of the loop over the pixels. *)
Record ChannelBounds : Type := mkBounds {
  rMin : Z; rMax : Z; gMin : Z; gMax : Z; bMin : Z; bMax : Z
}.

(** The loop [for (const pixel of pixels)] that both functions run, from
    the initial bounds 255 and 0. *)
Definition channelBounds (pixels : list RGB) : ChannelBounds :=
  fold_left (fun bounds pixel =>
               {| rMin := Z.min (rMin bounds) (rgb_r pixel);
                  rMax := Z.max (rMax bounds) (rgb_r pixel);
                  gMin := Z.min (gMin bounds) (rgb_g pixel);
                  gMax := Z.max (gMax bounds) (rgb_g pixel);
                  bMin := Z.min (bMin bounds) (rgb_b pixel);
                  bMax := Z.max (bMax bounds) (rgb_b pixel) |})
            pixels
            {| rMin := 255; rMax := 0; gMin := 255; gMax := 0; bMin := 255; bMax := 0 |}.

Definition getColorRange (pixels : list RGB) : Z :=
  if (length pixels =? 0)%nat then 0
  else
    let bounds := channelBounds pixels in
    let rRange := rMax bounds - rMin bounds in
    let gRange := gMax bounds - gMin bounds in
    let bRange := bMax bounds - bMin bounds in
    Z.max (Z.max rRange gRange) bRange.

(** [pixels.sort((a, b) => key(a) - key(b))]: a stable sort, ascending by the
    key. *)
Fixpoint insertByKey (key : RGB -> Z) (x : RGB) (l : list RGB) : list RGB :=
  match l with
  | [] => [x]
  | y :: l' => if key y <? key x then y :: insertByKey key x l' else x :: l
  end.

Definition sortByKey (key : RGB -> Z) (l : list RGB) : list RGB :=
  fold_right (insertByKey key) [] l.

(** The channel [splitBucket] sorts by: the one of largest range, red before
    green before blue on ties. *)
Definition splitChannel (pixels : list RGB) : RGB -> Z :=
  let bounds := channelBounds pixels in
  let rRange := rMax bounds - rMin bounds in
  let gRange := gMax bounds - gMin bounds in
  let bRange := bMax bounds - bMin bounds in
  if (rRange >=? gRange) && (rRange >=? bRange) then rgb_r
  else if gRange >=? bRange then rgb_g
  else rgb_b.

Definition splitBucket (pixels : list RGB) : list RGB * list RGB :=
  if (length pixels <=? 1)%nat then (pixels, [])
  else
    let pixels := sortByKey (splitChannel pixels) pixels in
    let median := (length pixels / 2)%nat in
    (firstn median pixels, skipn median pixels).

(** ** [medianCutPalette] *)

(** The search for the bucket of largest range: [maxRange] and
    [maxRangeIndex] after the loop over the bucket indices from [i]. *)
Fixpoint widestBucket (buckets : list (list RGB)) (i : Z) (maxRange maxRangeIndex : Z)
    : Z * Z :=
  match buckets with
  | [] => (maxRange, maxRangeIndex)
  | bucket :: rest =>
      let range := getColorRange bucket in
      if range >? maxRange then widestBucket rest (i + 1) range i
      else widestBucket rest (i + 1) maxRange maxRangeIndex
  end.

(** [buckets.splice(index, 1, bucket1, bucket2)]. *)
Definition spliceTwo (buckets : list (list RGB)) (index : nat) (bucket1 bucket2 : list RGB)
    : list (list RGB) :=
  firstn index buckets ++ [bucket1; bucket2] ++ skipn (S index) buckets.

(** The loop [while (buckets.length < maxColors)]; every iteration that does
    not leave the loop adds one bucket, so [maxColors] iterations are
    enough. *)
Fixpoint medianCutLoop (fuel : nat) (maxColors : Z) (buckets : list (list RGB))
    : list (list RGB) :=
  match fuel with
  | O => buckets
  | S fuel' =>
      if Z.of_nat (length buckets) <? maxColors then
        let '(maxRange, maxRangeIndex) := widestBucket buckets 0 (-1) (-1) in
        if (maxRangeIndex =? -1) || (maxRange =? 0) then buckets
        else
          let bucketToSplit := nth (Z.to_nat maxRangeIndex) buckets [] in
          let '(bucket1, bucket2) := splitBucket bucketToSplit in
          medianCutLoop fuel' maxColors
            (spliceTwo buckets (Z.to_nat maxRangeIndex) bucket1 bucket2)
      else buckets
  end.

(** The entry pushed for a non-empty bucket. *)
Definition bucketResult (bucket : list RGB) : ColorResult :=
  let centroid := calculateClusterCentroid bucket in
  {| color := rgbToHex centroid;
     rgb := centroid;
     lab := rgbToLab centroid;
     frequency := IZR (Z.of_nat (length bucket));
     clusterSize := IZR (Z.of_nat (length bucket)) |}.

Definition medianCutPalette (rgbPixels : list RGB) (maxColors : Z) : list ColorResult :=
  if (length rgbPixels =? 0)%nat then []
  else if maxColors >=? Z.of_nat (length rgbPixels) then
    map (fun rgb => {| color := rgbToHex rgb; rgb := rgb; lab := rgbToLab rgb;
                       frequency := 1; clusterSize := 1 |}) rgbPixels
  else
    let buckets := medianCutLoop (Z.to_nat maxColors) maxColors [rgbPixels] in
    let results :=
      flat_map (fun bucket =>
                  if (0 <? length bucket)%nat then [bucketResult bucket] else [])
               buckets in
    sortByFrequencyDesc results.

(** A list in ascending order of a key: every element is at most the ones
    after it. *)
Fixpoint ascending (key : RGB -> Z) (l : list RGB) : Prop :=
  match l with
  | [] => True
  | x :: l' => Forall (fun y => key x <= key y) l' /\ ascending key l'
  end.

(** The buckets in which [medianCutPalette] leaves the pixels. *)
Definition medianCutBuckets (rgbPixels : list RGB) (maxColors : Z) : list (list RGB) :=
  medianCutLoop (Z.to_nat maxColors) maxColors [rgbPixels].

(** ** The string functions of [getContrastColor] *)

(** Strings are sequences of code units below 256.  A number read by
    [Number.parseInt] is an integer or [NaN], here [None]; [-0] is not told
    from [0].  [getContrastColor] itself computes a luminance and compares
    it with 0.5: it is embedded in the modules [Rounded] and [B64] below. *)

(** [s.replace("#", "")]: the first occurrence is removed. *)
Fixpoint removeFirstHash (s : string) : string :=
  match s with
  | EmptyString => EmptyString
  | String c s' => if Ascii.eqb c "#" then s' else String c (removeFirstHash s')
  end.

(** [s.substr(start, length)] for non-negative arguments. *)
Definition substr (s : string) (start len : nat) : string := substring start len s.

(** The white space and line terminators that [parseInt] skips: tab, line
    feed, vertical tab, form feed, carriage return, space and no-break
    space. *)
Definition isWhiteSpace (c : ascii) : bool :=
  existsb (N.eqb (N_of_ascii c)) [9; 10; 11; 12; 13; 32; 160]%N.

Fixpoint trimStart (s : string) : string :=
  match s with
  | EmptyString => EmptyString
  | String c s' => if isWhiteSpace c then trimStart s' else s
  end.

(** The value of a digit of radix 16, in either case. *)
Definition digit16 (c : ascii) : option Z :=
  let n := Z.of_N (N_of_ascii c) in
  if (48 <=? n) && (n <=? 57) then Some (n - 48)
  else if (97 <=? n) && (n <=? 102) then Some (n - 87)
  else if (65 <=? n) && (n <=? 70) then Some (n - 55)
  else None.

(** The value of the longest prefix of digits; [acc] is the value read so
    far, [None] before the first digit. *)
Fixpoint digits16 (s : string) (acc : option Z) : option Z :=
  match s with
  | EmptyString => acc
  | String c s' =>
      match digit16 c with
      | Some d =>
          digits16 s' (Some (16 * match acc with Some v => v | None => 0 end + d))
      | None => acc
      end
  end.

(** [Number.parseInt(s, 16)]: leading white space, a sign and the prefix
    [0x] or [0X] are skipped, then the digits are read up to the first other
    character. *)
Definition parseInt16 (s : string) : option Z :=
  let s := trimStart s in
  let '(sign, s) :=
    match s with
    | String c s' =>
        if Ascii.eqb c "-" then (-1, s')
        else if Ascii.eqb c "+" then (1, s')
        else (1, s)
    | EmptyString => (1, s)
    end in
  let s :=
    match s with
    | String c0 (String c1 s') =>
        if Ascii.eqb c0 "0" && (Ascii.eqb c1 "x" || Ascii.eqb c1 "X") then s' else s
    | _ => s
    end in
  option_map (Z.mul sign) (digits16 s None).

(** ** [mergeSimilarColors] *)

(** The merger with the fixed threshold 10; the extraction path calls the
    conservative one only.  Body of its inner loop: *)
Definition mergeStepPlain (colors : list ColorResult) (baseColor : ColorResult)
    (j : nat) (acc : MergeAcc) : MergeAcc :=
  if used_has j (acc_used acc) then acc
  else match nth_error colors j with
       | None => acc
       | Some compareColor =>
           let distance := labDistanceCIE94 (lab baseColor) (lab compareColor) in
           if Rlt_dec distance 10 then
             {| acc_used := j :: acc_used acc;
                totalFrequency := totalFrequency acc + frequency compareColor;
                totalR := totalR acc + IZR (rgb_r (rgb compareColor)) * frequency compareColor;
                totalG := totalG acc + IZR (rgb_g (rgb compareColor)) * frequency compareColor;
                totalB := totalB acc + IZR (rgb_b (rgb compareColor)) * frequency compareColor |}%R
           else acc
       end.

Definition mergeGroupPlain (colors : list ColorResult) (i : nat) (baseColor : ColorResult)
    (used : list nat) : MergeAcc :=
  let init := {| acc_used := used;
                 totalFrequency := frequency baseColor;
                 totalR := IZR (rgb_r (rgb baseColor)) * frequency baseColor;
                 totalG := IZR (rgb_g (rgb baseColor)) * frequency baseColor;
                 totalB := IZR (rgb_b (rgb baseColor)) * frequency baseColor |}%R in
  for_index (S i) (length colors) (mergeStepPlain colors baseColor) init.

Fixpoint mergeLoopPlain (colors : list ColorResult) (maxColors : Z) (fuel : nat) (i : nat)
    (merged : list ColorResult) (used : list nat) : list ColorResult :=
  match fuel with
  | O => merged
  | S fuel' =>
      if (i <? length colors)%nat && (Z.of_nat (length merged) <? maxColors) then
        if used_has i used then mergeLoopPlain colors maxColors fuel' (S i) merged used
        else match nth_error colors i with
             | None => merged
             | Some baseColor =>
                 let acc := mergeGroupPlain colors i baseColor used in
                 mergeLoopPlain colors maxColors fuel' (S i)
                                (merged ++ [mergedEntry acc]) (i :: acc_used acc)
             end
      else merged
  end.

Definition mergeSimilarColors (colors : list ColorResult) (maxColors : Z)
    : list ColorResult :=
  if Z.of_nat (length colors) <=? maxColors then colors
  else mergeLoopPlain colors maxColors (length colors) 0%nat [] [].

(** ** [samplePixels] of the k-means extractor *)

(** The loop [for (let i = 0; i < data.length; i += step * 4)], with
    [stride = step * 4]. *)
Fixpoint sampleLoop (imageData : ImageData) (stride : Z) (fuel : nat) (i : Z)
    (pixels : list RGB) : list RGB :=
  match fuel with
  | O => pixels
  | S fuel' =>
      if i <? Z.of_nat (length (data imageData)) then
        let alpha := data_at imageData (i + 3) in
        let pixels :=
          if alpha <? 128 then pixels   (* skip transparent pixels *)
          else pixels ++ [{| rgb_r := data_at imageData i;
                             rgb_g := data_at imageData (i + 1);
                             rgb_b := data_at imageData (i + 2) |}] in
        sampleLoop imageData stride fuel' (i + stride) pixels
      else pixels
  end.

(** For [maxSamples = 0] the step is [Infinity] or [NaN] and the loop ends
    after its first iteration.  Otherwise the step is at least 1 and
    [data.length] iterations are enough. *)
Definition samplePixels (imageData : ImageData) (maxSamples : Z) : list RGB :=
  let totalPixels := width imageData * height imageData in
  if maxSamples =? 0 then sampleLoop imageData 0 1 0 []
  else
    let step := Z.max 1 (totalPixels / maxSamples) in
    sampleLoop imageData (step * 4) (length (data imageData)) 0 [].

(** The pixel number [k] of an image, in row-major order, and its alpha. *)
Definition pixelAt (imageData : ImageData) (k : Z) : RGB :=
  {| rgb_r := data_at imageData (4 * k);
     rgb_g := data_at imageData (4 * k + 1);
     rgb_b := data_at imageData (4 * k + 2) |}.

Definition alphaAt (imageData : ImageData) (k : Z) : Z :=
  data_at imageData (4 * k + 3).

(** Three opaque pixels in a row. *)
Definition opaque3x1 : ImageData :=
  {| data := [10; 20; 30; 255; 40; 50; 60; 255; 70; 80; 90; 255];
     width := 3; height := 1 |}.

(** * The rounded reading of the arithmetic *)

(** Between the exact reading above and the binary64 reading below: the
    numbers are reals, and every arithmetic result is passed through a
    rounding function [rnd], of which the properties only assume the
    relative accuracy of binary64 ([accurate]).  The test
    [distance < mergeThreshold], taken by the program on rounded distances,
    is a parameter [close], and so is the converter [rgbToLab], whose values
    enter that test only.  Comparisons of a frequency or a weight with a
    constant, and of two frequencies, are exact in binary64 and stay as
    they are. *)
Module Rounded.

Local Open Scope R_scope.

(** The unit roundoff of binary64, [2^-53]. *)
Definition u : R := / 9007199254740992.

(** Rounding to nearest: inside the range of normal numbers, of which
    [[1e-20, 1e20]] is a part, the result is within the relative distance
    [u] of the exact value. *)
Definition accurate (rnd : R -> R) : Prop :=
  forall x, / 100000000000000000000 <= x <= 100000000000000000000 ->
    Rabs (rnd x - x) <= u * x.

Section Arithmetic.

Variable rnd : R -> R.
Variable close : ColorResult -> ColorResult -> bool.
Variable rgbToLab : RGB -> LAB.

(** ** Global weight aggregator *)

Definition localPercentage (count totalPixelsInSection : Z) : R :=
  rnd (rnd (IZR count / IZR totalPixelsInSection) * 100).

Definition addWeighted (totalPixelsInSection : Z) (areaWeight : R)
    (globalColorWeights : JSMap ColorWeight) (entry : string * ColorCount)
    : JSMap ColorWeight :=
  let '(colorHex, e) := entry in
  let weightedPercentage :=
    rnd (localPercentage (count e) totalPixelsInSection * areaWeight) in
  match map_get colorHex globalColorWeights with
  | Some w =>
      map_set colorHex
              {| cw_rgb := cw_rgb w;
                 weightedFrequency := rnd (weightedFrequency w + weightedPercentage) |}
              globalColorWeights
  | None =>
      map_set colorHex {| cw_rgb := cc_rgb e; weightedFrequency := weightedPercentage |}
              globalColorWeights
  end.

Definition accumulateSection (imageData : ImageData) (standardGridSize : Z)
    (globalColorWeights : JSMap ColorWeight) (section : GridSection)
    : JSMap ColorWeight :=
  let standardArea := (standardGridSize * standardGridSize)%Z in
  let sectionWidth := (endX section - startX section)%Z in
  let sectionHeight := (endY section - startY section)%Z in
  let sectionArea := (sectionWidth * sectionHeight)%Z in
  let colorCounts :=
    countPixelsByColor imageData (startX section) (startY section)
                       (endX section) (endY section) in
  let areaWeight := rnd (IZR sectionArea / IZR standardArea) in
  let totalPixelsInSection := sectionArea in
  fold_left (addWeighted totalPixelsInSection areaWeight) colorCounts globalColorWeights.

Definition aggregateWeights (imageData : ImageData) (standardGridSize : Z)
    : JSMap ColorWeight :=
  let gridSections :=
    calculateGridSections (width imageData) (height imageData) standardGridSize in
  fold_left (accumulateSection imageData standardGridSize) gridSections [].

(** First pass: the total of the weights that reach 0.1. *)
Definition totalWeightedFrequency (globalColorWeights : JSMap ColorWeight) : R :=
  fold_left (fun total (entry : string * ColorWeight) =>
               if Rge_dec (weightedFrequency (snd entry)) 0.1
               then rnd (total + weightedFrequency (snd entry)) else total)
            globalColorWeights 0.

(** Second pass: one [ColorResult] per weight that reaches 0.1. *)
Definition normalizedResults (globalColorWeights : JSMap ColorWeight) : list ColorResult :=
  let totalWeightedFrequency := totalWeightedFrequency globalColorWeights in
  fold_left (fun results (entry : string * ColorWeight) =>
               let '(colorHex, d) := entry in
               if Rge_dec (weightedFrequency d) 0.1 then
                 let normalizedPercentage :=
                   rnd (rnd (weightedFrequency d / totalWeightedFrequency) * 100) in
                 results ++ [ {| color := colorHex;
                                 rgb := cw_rgb d;
                                 lab := rgbToLab (cw_rgb d);
                                 frequency := normalizedPercentage;
                                 clusterSize :=
                                   IZR (Math_round (rnd (weightedFrequency d * 10))) |} ]
               else results)
            globalColorWeights [].

(** ** [mergeSimilarColorsConservative] *)

(** Body of the inner loop; [close baseColor compareColor] is the outcome
    of [distance < mergeThreshold]. *)
Definition mergeStep (colors : list ColorResult) (baseColor : ColorResult)
    (j : nat) (acc : MergeAcc) : MergeAcc :=
  if used_has j (acc_used acc) then acc
  else match nth_error colors j with
       | None => acc
       | Some compareColor =>
           if close baseColor compareColor then
             {| acc_used := j :: acc_used acc;
                totalFrequency := rnd (totalFrequency acc + frequency compareColor);
                totalR := rnd (totalR acc
                               + rnd (IZR (rgb_r (rgb compareColor)) * frequency compareColor));
                totalG := rnd (totalG acc
                               + rnd (IZR (rgb_g (rgb compareColor)) * frequency compareColor));
                totalB := rnd (totalB acc
                               + rnd (IZR (rgb_b (rgb compareColor)) * frequency compareColor)) |}
           else acc
       end.

Definition mergedEntry (acc : MergeAcc) : ColorResult :=
  let avgRgb := {| rgb_r := Math_round (rnd (totalR acc / totalFrequency acc));
                   rgb_g := Math_round (rnd (totalG acc / totalFrequency acc));
                   rgb_b := Math_round (rnd (totalB acc / totalFrequency acc)) |} in
  {| color := rgbToHex avgRgb;
     rgb := avgRgb;
     lab := rgbToLab avgRgb;
     frequency := totalFrequency acc;
     clusterSize := totalFrequency acc |}.

Definition mergeGroup (colors : list ColorResult) (i : nat) (baseColor : ColorResult)
    (used : list nat) : MergeAcc :=
  let init := {| acc_used := used;
                 totalFrequency := frequency baseColor;
                 totalR := rnd (IZR (rgb_r (rgb baseColor)) * frequency baseColor);
                 totalG := rnd (IZR (rgb_g (rgb baseColor)) * frequency baseColor);
                 totalB := rnd (IZR (rgb_b (rgb baseColor)) * frequency baseColor) |} in
  for_index (S i) (length colors) (mergeStep colors baseColor) init.

Fixpoint mergeLoop (colors : list ColorResult) (maxColors : Z) (fuel : nat) (i : nat)
    (merged : list ColorResult) (used : list nat) : list ColorResult :=
  match fuel with
  | O => merged
  | S fuel' =>
      if (i <? length colors)%nat && (Z.of_nat (length merged) <? maxColors)%Z then
        if used_has i used then mergeLoop colors maxColors fuel' (S i) merged used
        else match nth_error colors i with
             | None => merged
             | Some baseColor =>
                 let acc := mergeGroup colors i baseColor used in
                 mergeLoop colors maxColors fuel' (S i)
                           (merged ++ [mergedEntry acc]) (i :: acc_used acc)
             end
      else merged
  end.

Definition mergeSimilarColorsConservative (colors : list ColorResult) (maxColors : Z)
    : list ColorResult :=
  if (Z.of_nat (length colors) <=? maxColors)%Z then colors
  else mergeLoop colors maxColors (length colors) 0%nat [] [].

(** ** [extractColorsWeightedGrid] and [extractColors] *)

Definition extractColorsWeightedGrid (imageData : ImageData) (maxColors : Z)
    (standardGridSize : Z) : list ColorResult :=
  let globalColorWeights := aggregateWeights imageData standardGridSize in
  let results := normalizedResults globalColorWeights in
  let results := sortByFrequencyDesc results in
  let mergedResults := mergeSimilarColorsConservative results (maxColors * 3) in
  let finalSelection := selectDiverseColors mergedResults maxColors in
  finalSelection.

Definition extractColors (canvasAvailable : bool) (pixels : Promise ImageData)
    (maxColors : Z) (standardGridSize : Z) : Promise (list ColorResult) :=
  if negb canvasAvailable then
    Rejected "Failed to extract colors using weighted grid analysis"
  else
    match pixels with
    | Rejected _ => Rejected "Failed to extract colors using weighted grid analysis"
    | Fulfilled imageData =>
        let results := extractColorsWeightedGrid imageData maxColors standardGridSize in
        Fulfilled (sortByFrequencyDesc results)
    end.

(** ** [getContrastColor] of the gradient demo *)

(** The literals [0.299], [0.587] and [0.114] are rounded as every result
    is; [255] and [0.5] are numbers of the format. *)
Definition getContrastColor (hexColor : string) : string :=
  let hex := removeFirstHash hexColor in
  let r := parseInt16 (substr hex 0 2) in
  let g := parseInt16 (substr hex 2 2) in
  let b := parseInt16 (substr hex 4 2) in
  let luminance :=
    match r, g, b with
    | Some r, Some g, Some b =>
        Some (rnd (rnd (rnd (rnd (rnd 0.299 * IZR r) + rnd (rnd 0.587 * IZR g))
                        + rnd (rnd 0.114 * IZR b))
                   / 255))
    | _, _, _ => None
    end in
  match luminance with
  | Some l => if Rgt_dec l 0.5 then "#000000"%string else "#ffffff"%string
  | None => "#ffffff"%string
  end.

End Arithmetic.

(** ** Definitions used to state the properties *)

(** The weights that reach 0.1, in the order of the map. *)
Definition qualifyingWeights (globalColorWeights : JSMap ColorWeight) : list R :=
  map (fun entry => weightedFrequency (snd entry)) (filter qualifies globalColorWeights).

(** [close] at an index of the array, and the test by which the inner loop
    takes the colour at [j] into the group. *)
Definition closeAt (close : ColorResult -> ColorResult -> bool)
    (colors : list ColorResult) (baseColor : ColorResult) (j : nat) : bool :=
  match nth_error colors j with
  | Some c => close baseColor c
  | None => false
  end.

Definition absorbed (close : ColorResult -> ColorResult -> bool)
    (colors : list ColorResult) (baseColor : ColorResult) (used : list nat) (j : nat)
    : bool :=
  negb (used_has j used) && closeAt close colors baseColor j.

(** A rounding that meets [accurate] and is never exact: every result is
    rounded up by the relative distance [u]. *)
Definition roundUp (x : R) : R := x * (1 + u).

End Rounded.

(** Two opaque pixels of different colours. *)
Definition twoPixels : ImageData :=
  {| data := [255; 0; 0; 255; 0; 0; 255; 255]; width := 2; height := 1 |}.


(** * The binary64 reading of the arithmetic *)

(** JavaScript numbers are IEEE 754 binary64 values.  In the module below
    they are the kernel's primitive floats, whose [+], [-], [*], [/] and
    [sqrt] round to nearest, ties to even, as JavaScript's do; a comparison
    with [NaN] is false.  The functions of the class that compute with
    fractions are embedded a second time over these numbers, with the
    source's names; the decisions the program takes on rounded values, and
    the values it returns, are read off this module.  [Math.pow] is left to
    the implementation by the language standard and is a parameter. *)
Module B64.

Local Open Scope float_scope.
#[local] Set Warnings "-inexact-float".

(** The number of an integer (exact below [2^53], rounded above). *)
Definition ofZ (z : Z) : float := SF2Prim (binary_normalize prec emax z 0 false).

(** The exact value of a finite number, as a real; infinities and [NaN] have
    none. *)
Definition toR (x : float) : R :=
  match Prim2SF x with
  | S754_finite s m e =>
      (IZR (cond_Zopp s (Zpos m)) *
       (if (0 <=? e)%Z then IZR (2 ^ e) else / IZR (2 ^ (- e))))%R
  | _ => 0%R
  end.

(** The integer a number holds, for a number that holds one. *)
Definition toZ (x : float) : Z :=
  match Prim2SF x with
  | S754_finite s m e =>
      cond_Zopp s (if (0 <=? e)%Z then Zpos m * 2 ^ e else Zpos m / 2 ^ (- e))%Z
  | _ => 0%Z
  end.

(** [Math.round]: the integer nearest to [x], a tie going up; infinities,
    zeros and [NaN] are returned as they are, and a negative number that
    rounds to zero gives [-0]. *)
Definition Math_round (x : float) : float :=
  match Prim2SF x with
  | S754_finite s m e =>
      if (0 <=? e)%Z then x
      else
        let z := ((2 * cond_Zopp s (Zpos m) + 2 ^ (- e)) / 2 ^ (- e + 1))%Z in
        if (z =? 0)%Z then (if s then -0 else 0) else ofZ z
  | _ => x
  end.

(** The colours of the integer reading, whose names the records below take
    over. *)
Definition ByteColor : Type := RGB.
Definition byte_r : ByteColor -> Z := rgb_r.
Definition byte_g : ByteColor -> Z := rgb_g.
Definition byte_b : ByteColor -> Z := rgb_b.
Definition hexOfByte : Z -> string := toHex.

Record RGB : Type := mkRGB { rgb_r : float; rgb_g : float; rgb_b : float }.

Record LAB : Type := mkLAB { lab_l : float; lab_a : float; lab_b : float }.

Record ColorResult : Type := mkColorResult {
  color : string;
  rgb : RGB;
  lab : LAB;
  frequency : float;
  clusterSize : float
}.

(** The bytes read from the image, as numbers. *)
Definition ofBytes (c : ByteColor) : RGB :=
  {| rgb_r := ofZ (byte_r c); rgb_g := ofZ (byte_g c); rgb_b := ofZ (byte_b c) |}.

(** ** [rgbToHex] *)

(** [Math.max(0, Math.min(255, Math.round(n))).toString(16).padStart(2, '0')]:
    [Math.min] and [Math.max] hand [NaN] on, and its string is [NaN]. *)
Definition toHex (n : float) : string :=
  match Prim2SF (Math_round n) with
  | S754_nan => "NaN"%string
  | S754_infinity false => "ff"%string
  | S754_infinity true => "00"%string
  | _ => hexOfByte (toZ (Math_round n))
  end.

Definition rgbToHex (c : RGB) : string :=
  ("#" ++ toHex (rgb_r c) ++ toHex (rgb_g c) ++ toHex (rgb_b c))%string.

(** ** [labDistanceCIE94] *)

(** [Math.sqrt] is [PrimFloat.sqrt]; [x ** 2] is the product [x * x], as the
    engines compute a square. *)
Definition labDistanceCIE94 (lab1 lab2 : LAB) : float :=
  let dl := lab_l lab1 - lab_l lab2 in
  let da := lab_a lab1 - lab_a lab2 in
  let db := lab_b lab1 - lab_b lab2 in
  let c1 := PrimFloat.sqrt (lab_a lab1 * lab_a lab1 + lab_b lab1 * lab_b lab1) in
  let c2 := PrimFloat.sqrt (lab_a lab2 * lab_a lab2 + lab_b lab2 * lab_b lab2) in
  let dc := c1 - c2 in
  let dh := PrimFloat.sqrt (da * da + db * db - dc * dc) in
  let sl := 1 in
  let kc := 1 in
  let kh := 1 in
  let k1 := 0.045 in
  let k2 := 0.015 in
  let sc := 1 + k1 * c1 in
  let sh := 1 + k2 * c1 in
  let deltaE :=
    PrimFloat.sqrt ((dl / sl) * (dl / sl) +
          (dc / (kc * sc)) * (dc / (kc * sc)) +
          (dh / (kh * sh)) * (dh / (kh * sh))) in
  deltaE.

(** ** [mergeSimilarColorsConservative] *)

Record MergeAcc : Type := mkMergeAcc {
  acc_used : list nat;
  totalFrequency : float;
  totalR : float;
  totalG : float;
  totalB : float
}.

Definition isRedColor (c : ColorResult) : bool :=
  (180 <? rgb_r (rgb c)) && (rgb_g (rgb c) <? 100) && (rgb_b (rgb c) <? 100).

Definition mergeThreshold (baseColor : ColorResult) : float :=
  if isRedColor baseColor then 1.5 else 3.

(** Body of the inner loop [for (let j = i + 1; j < colors.length; j++)]. *)
Definition mergeStep (colors : list ColorResult) (baseColor : ColorResult)
    (j : nat) (acc : MergeAcc) : MergeAcc :=
  if used_has j (acc_used acc) then acc
  else match nth_error colors j with
       | None => acc
       | Some compareColor =>
           let distance := labDistanceCIE94 (lab baseColor) (lab compareColor) in
           if distance <? mergeThreshold baseColor then
             {| acc_used := j :: acc_used acc;
                totalFrequency := totalFrequency acc + frequency compareColor;
                totalR := totalR acc + rgb_r (rgb compareColor) * frequency compareColor;
                totalG := totalG acc + rgb_g (rgb compareColor) * frequency compareColor;
                totalB := totalB acc + rgb_b (rgb compareColor) * frequency compareColor |}
           else acc
       end.

Definition mergeGroup (colors : list ColorResult) (i : nat) (baseColor : ColorResult)
    (used : list nat) : MergeAcc :=
  let init := {| acc_used := used;
                 totalFrequency := frequency baseColor;
                 totalR := rgb_r (rgb baseColor) * frequency baseColor;
                 totalG := rgb_g (rgb baseColor) * frequency baseColor;
                 totalB := rgb_b (rgb baseColor) * frequency baseColor |} in
  for_index (S i) (length colors) (mergeStep colors baseColor) init.

(** ** Global weight aggregator *)

Record ColorWeight : Type := mkColorWeight { cw_rgb : RGB; weightedFrequency : float }.

Definition localPercentage (count totalPixelsInSection : Z) : float :=
  (ofZ count / ofZ totalPixelsInSection) * 100.

Definition addWeighted (totalPixelsInSection : Z) (areaWeight : float)
    (globalColorWeights : JSMap ColorWeight) (entry : string * ColorCount)
    : JSMap ColorWeight :=
  let '(colorHex, e) := entry in
  let weightedPercentage := localPercentage (count e) totalPixelsInSection * areaWeight in
  match map_get colorHex globalColorWeights with
  | Some w =>
      map_set colorHex {| cw_rgb := cw_rgb w;
                          weightedFrequency := weightedFrequency w + weightedPercentage |}
              globalColorWeights
  | None =>
      map_set colorHex {| cw_rgb := ofBytes (cc_rgb e);
                          weightedFrequency := weightedPercentage |}
              globalColorWeights
  end.

Definition accumulateSection (imageData : ImageData) (standardGridSize : Z)
    (globalColorWeights : JSMap ColorWeight) (section : GridSection)
    : JSMap ColorWeight :=
  let standardArea := (standardGridSize * standardGridSize)%Z in
  let sectionWidth := (endX section - startX section)%Z in
  let sectionHeight := (endY section - startY section)%Z in
  let sectionArea := (sectionWidth * sectionHeight)%Z in
  let colorCounts :=
    countPixelsByColor imageData (startX section) (startY section)
                       (endX section) (endY section) in
  let areaWeight := ofZ sectionArea / ofZ standardArea in
  let totalPixelsInSection := sectionArea in
  fold_left (addWeighted totalPixelsInSection areaWeight) colorCounts globalColorWeights.

Definition aggregateWeights (imageData : ImageData) (standardGridSize : Z)
    : JSMap ColorWeight :=
  let gridSections :=
    calculateGridSections (width imageData) (height imageData) standardGridSize in
  fold_left (accumulateSection imageData standardGridSize) gridSections [].

(** First pass: the total of the weights that reach 0.1. *)
Definition totalWeightedFrequency (globalColorWeights : JSMap ColorWeight) : float :=
  fold_left (fun total (entry : string * ColorWeight) =>
               if 0.1 <=? weightedFrequency (snd entry)
               then total + weightedFrequency (snd entry) else total)
            globalColorWeights 0.

(** [results.sort((a, b) => b.frequency - a.frequency)] on frequencies that
    are numbers: a stable sort, descending. *)
Fixpoint insertByFrequency (x : ColorResult) (l : list ColorResult) : list ColorResult :=
  match l with
  | [] => [x]
  | y :: l' =>
      if frequency x <? frequency y then y :: insertByFrequency x l' else x :: l
  end.

Definition sortByFrequencyDesc (l : list ColorResult) : list ColorResult :=
  fold_right insertByFrequency [] l.

(** ** [selectDiverseColors] *)

(** The categories are computed and only logged. *)
Definition selectDiverseColors (colors : list ColorResult) (maxColors : Z)
    : list ColorResult :=
  let significantColors := filter (fun c => 0.5 <=? frequency c) colors in
  if (Z.of_nat (length significantColors) <=? maxColors)%Z then significantColors
  else js_slice significantColors 0 maxColors.

Section Engine.

(** [Math.pow]. *)
Variable Math_pow : float -> float -> float.

(** ** [rgbToLab] *)

Definition gammaExpand (c : float) : float :=
  if 0.04045 <? c then Math_pow ((c + 0.055) / 1.055) 2.4 else c / 12.92.

Definition labF (t : float) : float :=
  if 0.008856 <? t then Math_pow t (1 / 3) else 7.787 * t + 16 / 116.

Definition rgbToLab (c : RGB) : LAB :=
  let r := rgb_r c / 255 in
  let g := rgb_g c / 255 in
  let b := rgb_b c / 255 in
  let r := gammaExpand r in
  let g := gammaExpand g in
  let b := gammaExpand b in
  let x := r * 0.4124564 + g * 0.3575761 + b * 0.1804375 in
  let y := r * 0.2126729 + g * 0.7151522 + b * 0.0721750 in
  let z := r * 0.0193339 + g * 0.1191920 + b * 0.9503041 in
  let x := x / 0.95047 in
  let y := y / 1.00000 in
  let z := z / 1.08883 in
  let fx := labF x in
  let fy := labF y in
  let fz := labF z in
  {| lab_l := 116 * fy - 16; lab_a := 500 * (fx - fy); lab_b := 200 * (fy - fz) |}.

(** The entry pushed to [merged] from the totals of a group. *)
Definition mergedEntry (acc : MergeAcc) : ColorResult :=
  let avgRgb := {| rgb_r := Math_round (totalR acc / totalFrequency acc);
                   rgb_g := Math_round (totalG acc / totalFrequency acc);
                   rgb_b := Math_round (totalB acc / totalFrequency acc) |} in
  {| color := rgbToHex avgRgb;
     rgb := avgRgb;
     lab := rgbToLab avgRgb;
     frequency := totalFrequency acc;
     clusterSize := totalFrequency acc |}.

(** The outer loop; [length colors] iterations are enough since [i] grows by
    one each time. *)
Fixpoint mergeLoop (colors : list ColorResult) (maxColors : Z) (fuel : nat) (i : nat)
    (merged : list ColorResult) (used : list nat) : list ColorResult :=
  match fuel with
  | O => merged
  | S fuel' =>
      if (i <? length colors)%nat && (Z.of_nat (length merged) <? maxColors)%Z then
        if used_has i used then mergeLoop colors maxColors fuel' (S i) merged used
        else match nth_error colors i with
             | None => merged
             | Some baseColor =>
                 let acc := mergeGroup colors i baseColor used in
                 mergeLoop colors maxColors fuel' (S i)
                           (merged ++ [mergedEntry acc]) (i :: acc_used acc)
             end
      else merged
  end.

Definition mergeSimilarColorsConservative (colors : list ColorResult) (maxColors : Z)
    : list ColorResult :=
  if (Z.of_nat (length colors) <=? maxColors)%Z then colors
  else mergeLoop colors maxColors (length colors) 0%nat [] [].

(** Second pass of the normalisation: one entry per weight that reaches
    0.1. *)
Definition normalizedResults (globalColorWeights : JSMap ColorWeight) : list ColorResult :=
  let totalWeightedFrequency := totalWeightedFrequency globalColorWeights in
  fold_left (fun results (entry : string * ColorWeight) =>
               let '(colorHex, d) := entry in
               if 0.1 <=? weightedFrequency d then
                 let normalizedPercentage :=
                   (weightedFrequency d / totalWeightedFrequency) * 100 in
                 results ++ [ {| color := colorHex;
                                 rgb := cw_rgb d;
                                 lab := rgbToLab (cw_rgb d);
                                 frequency := normalizedPercentage;
                                 clusterSize := Math_round (weightedFrequency d * 10) |} ]
               else results)
            globalColorWeights [].

(** ** [extractColorsWeightedGrid] and [extractColors] *)

Definition extractColorsWeightedGrid (imageData : ImageData) (maxColors : Z)
    (standardGridSize : Z) : list ColorResult :=
  let globalColorWeights := aggregateWeights imageData standardGridSize in
  let results := normalizedResults globalColorWeights in
  let results := sortByFrequencyDesc results in
  let mergedResults := mergeSimilarColorsConservative results (maxColors * 3) in
  let finalSelection := selectDiverseColors mergedResults maxColors in
  finalSelection.

Definition extractColors (canvasAvailable : bool) (pixels : Promise ImageData)
    (maxColors : Z) (standardGridSize : Z) : Promise (list ColorResult) :=
  if negb canvasAvailable then
    Rejected "Failed to extract colors using weighted grid analysis"
  else
    match pixels with
    | Rejected _ => Rejected "Failed to extract colors using weighted grid analysis"
    | Fulfilled imageData =>
        let results := extractColorsWeightedGrid imageData maxColors standardGridSize in
        Fulfilled (sortByFrequencyDesc results)
    end.

End Engine.

(** ** [getContrastColor] of the gradient demo *)

(** [parseInt] gives [NaN] where the model has [None]; a luminance of [NaN]
    is not above 0.5. *)
Definition getContrastColor (hexColor : string) : string :=
  let hex := removeFirstHash hexColor in
  let r := parseInt16 (substr hex 0 2) in
  let g := parseInt16 (substr hex 2 2) in
  let b := parseInt16 (substr hex 4 2) in
  match r, g, b with
  | Some r, Some g, Some b =>
      let luminance := (0.299 * ofZ r + 0.587 * ofZ g + 0.114 * ofZ b) / 255 in
      if 0.5 <? luminance then "#000000"%string else "#ffffff"%string
  | _, _, _ => "#ffffff"%string
  end.


(** ** Definitions used to state the properties *)

(** The test of the merger's inner loop, with the thresholds written out:
    the distance is below 1.5 for a base with [r > 180], [g < 100] and
    [b < 100], below 3 for any other base. *)
Definition closeTo (baseColor c : ColorResult) : bool :=
  labDistanceCIE94 (lab baseColor) (lab c)
  <? (if (180 <? rgb_r (rgb baseColor)) && (rgb_g (rgb baseColor) <? 100)
         && (rgb_b (rgb baseColor) <? 100)
      then 1.5 else 3).

(** [closeTo] at an index of the array. *)
Definition closeAt (colors : list ColorResult) (baseColor : ColorResult) (j : nat) : bool :=
  match nth_error colors j with
  | Some c => closeTo baseColor c
  | None => false
  end.

(** The frequencies of a list added to [start] one after the other, as the
    loop adds them. *)
Definition addFrequencies (start : float) (l : list ColorResult) : float :=
  fold_left (fun total c => total + frequency c) l start.

(** Sample colours: two grays 2 units of distance apart, and three reds, the
    second 3 units and the third 2 units from the first. *)
Definition grayA : ColorResult :=
  {| color := "#808080"; rgb := mkRGB 128 128 128; lab := mkLAB 54 0 0;
     frequency := 30; clusterSize := 30 |}.
Definition grayB : ColorResult :=
  {| color := "#7b7b7b"; rgb := mkRGB 123 123 123; lab := mkLAB 52 0 0;
     frequency := 25; clusterSize := 25 |}.
Definition redA : ColorResult :=
  {| color := "#dc1c25"; rgb := mkRGB 220 28 37; lab := mkLAB 47 70 45;
     frequency := 20; clusterSize := 20 |}.
Definition redB : ColorResult :=
  {| color := "#d21820"; rgb := mkRGB 210 24 32; lab := mkLAB 44 70 45;
     frequency := 15; clusterSize := 15 |}.


End B64.

(** A row of nine opaque pixels: seven of one colour and one each of two
    others. *)
Definition nineInARow : ImageData :=
  {| data := [200; 30; 40; 255;  200; 30; 40; 255;  200; 30; 40; 255;
              200; 30; 40; 255;  200; 30; 40; 255;  200; 30; 40; 255;
              200; 30; 40; 255;  20; 90; 160; 255;  240; 240; 240; 255];
     width := 9; height := 1 |}.


(** * Proofs *)

(** ** Facts about the loops *)

Lemma for_upto_push {A : Type} (f : Z -> list A) (n : nat) (i : Z) (s : list A) :
  for_upto n i (fun k acc => acc ++ f k) s = s ++ flat_map f (zseq i n).
Proof.
  revert i s. induction n as [|n IH]; intros i s; simpl.
  - now rewrite app_nil_r.
  - rewrite IH. now rewrite <- app_assoc.
Qed.

Lemma for_upto_ext {St : Type} (f g : Z -> St -> St) (n : nat) (i : Z) (s : St) :
  (forall k t, f k t = g k t) -> for_upto n i f s = for_upto n i g s.
Proof.
  intros E. revert i s. induction n as [|n IH]; intros i s; simpl; [reflexivity|].
  now rewrite E, IH.
Qed.

Lemma in_zseq (k i : Z) (n : nat) :
  In k (zseq i n) <-> i <= k < i + Z.of_nat n.
Proof.
  revert i. induction n as [|n IH]; intros i; simpl.
  - lia.
  - rewrite IH. lia.
Qed.

(** ** The section list as rows of cells *)

Lemma flat_map_singleton {A B : Type} (f : A -> B) (l : list A) :
  flat_map (fun a => [f a]) l = map f l.
Proof. induction l; simpl; congruence. Qed.

Lemma for_upto_push1 {A : Type} (f : Z -> A) (n : nat) (i : Z) (s : list A) :
  for_upto n i (fun k acc => acc ++ [f k]) s = s ++ map f (zseq i n).
Proof.
  rewrite (for_upto_push (fun k => [f k])). now rewrite flat_map_singleton.
Qed.

Lemma calculateGridSections_rows (W H S : Z) :
  calculateGridSections W H S =
  flat_map (fullRow W S) (zseq 0 (Z.to_nat (H / S))) ++ bottomRow W H S.
Proof.
  unfold calculateGridSections, for_range, bottomRow.
  rewrite !Z.sub_0_r.
  rewrite (for_upto_ext _ (fun row acc => acc ++ fullRow W S row) (Z.to_nat (H / S))).
  2:{ intros row acc. unfold fullRow.
      rewrite (for_upto_push1 (cell S row)).
      destruct (Z.rem W S >? 0); [now rewrite <- app_assoc | now rewrite app_nil_r]. }
  rewrite !(for_upto_push (fullRow W S)). simpl.
  destruct (Z.rem H S >? 0).
  - rewrite (for_upto_ext _ (fun col a => a ++ [bottomEdge H S col]) (Z.to_nat (W / S)))
      by reflexivity.
    rewrite for_upto_push1.
    destruct (Z.rem W S >? 0); [now rewrite <- !app_assoc | now rewrite app_nil_r].
  - now rewrite app_nil_r.
Qed.

(** ** C2: the sections partition the pixel grid *)

Ltac zbool :=
  repeat match goal with
  | |- context [Z.leb ?a ?b] => destruct (Z.leb_spec a b)
  | |- context [Z.ltb ?a ?b] => destruct (Z.ltb_spec a b)
  | |- context [Z.gtb ?a ?b] => rewrite (Z.gtb_ltb a b)
  | H : context [Z.leb ?a ?b] |- _ => destruct (Z.leb_spec a b)
  | H : context [Z.ltb ?a ?b] |- _ => destruct (Z.ltb_spec a b)
  | H : context [Z.gtb ?a ?b] |- _ => rewrite (Z.gtb_ltb a b) in H
  end.

Lemma cover_count_app (x y : Z) (l1 l2 : list GridSection) :
  cover_count x y (l1 ++ l2) = (cover_count x y l1 + cover_count x y l2)%nat.
Proof. unfold cover_count. now rewrite filter_app, length_app. Qed.

Lemma cover_count_cons (x y : Z) (s : GridSection) (l : list GridSection) :
  cover_count x y (s :: l) =
  ((if covers x y s then 1 else 0) + cover_count x y l)%nat.
Proof. unfold cover_count. simpl. now destruct (covers x y s). Qed.

Lemma cover_count_nil (x y : Z) : cover_count x y [] = 0%nat.
Proof. reflexivity. Qed.

(** Division facts for a positive image side and a positive cell size. *)
Lemma side_split (W S : Z) :
  1 <= W -> 1 <= S ->
  W = (W / S) * S + Z.rem W S /\ 0 <= Z.rem W S < S /\ 0 <= W / S.
Proof.
  intros HW HS.
  rewrite Z.rem_mod_nonneg by lia.
  pose proof (Z.div_mod W S ltac:(lia)).
  pose proof (Z.mod_pos_bound W S ltac:(lia)).
  pose proof (Z.div_pos W S ltac:(lia) ltac:(lia)).
  lia.
Qed.

Lemma cover_count_cells (x y S row : Z) (n : nat) (i : Z) :
  1 <= S ->
  cover_count x y (map (cell S row) (zseq i n)) =
  if (row * S <=? y) && (y <? (row + 1) * S) && (i * S <=? x)
     && (x <? (i + Z.of_nat n) * S)
  then 1%nat else 0%nat.
Proof.
  intros HS. revert i. induction n as [|n IH]; intros i.
  - simpl. unfold cover_count. simpl. zbool; simpl; try reflexivity; lia.
  - cbn [zseq map]. rewrite cover_count_cons, IH.
    unfold covers, cell; cbn [startX startY endX endY].
    assert (0 <= Z.of_nat n * S) by nia.
    zbool; simpl; try reflexivity; nia.
Qed.

Lemma cover_count_bottomEdges (x y H S : Z) (n : nat) (i : Z) :
  1 <= S ->
  cover_count x y (map (bottomEdge H S) (zseq i n)) =
  if ((H / S) * S <=? y) && (y <? H) && (i * S <=? x)
     && (x <? (i + Z.of_nat n) * S)
  then 1%nat else 0%nat.
Proof.
  intros HS. revert i. induction n as [|n IH]; intros i.
  - simpl. unfold cover_count. simpl. zbool; simpl; try reflexivity; lia.
  - cbn [zseq map]. rewrite cover_count_cons, IH.
    unfold covers, bottomEdge; cbn [startX startY endX endY].
    assert (0 <= Z.of_nat n * S) by nia.
    zbool; simpl; try reflexivity; nia.
Qed.

Lemma cover_count_fullRow (x y W S row : Z) :
  1 <= W -> 1 <= S ->
  cover_count x y (fullRow W S row) =
  if (row * S <=? y) && (y <? (row + 1) * S) && (0 <=? x) && (x <? W)
  then 1%nat else 0%nat.
Proof.
  intros HW HS. destruct (side_split W S HW HS) as (EW & HR & HQ).
  unfold fullRow. rewrite cover_count_app, cover_count_cells by assumption.
  rewrite Z2Nat.id by assumption.
  destruct (Z.rem W S >? 0) eqn:E.
  - rewrite cover_count_cons. rewrite ?cover_count_nil.
    unfold covers, rightEdge; cbn [startX startY endX endY].
    zbool; simpl; try reflexivity; lia.
  - rewrite ?cover_count_nil.
    zbool; simpl; try reflexivity; lia.
Qed.

Lemma cover_count_fullRows (x y W S : Z) (n : nat) (i : Z) :
  1 <= W -> 1 <= S ->
  cover_count x y (flat_map (fullRow W S) (zseq i n)) =
  if (i * S <=? y) && (y <? (i + Z.of_nat n) * S) && (0 <=? x) && (x <? W)
  then 1%nat else 0%nat.
Proof.
  intros HW HS. revert i. induction n as [|n IH]; intros i.
  - simpl. unfold cover_count. simpl. zbool; simpl; try reflexivity; lia.
  - cbn [zseq flat_map]. rewrite cover_count_app, IH, cover_count_fullRow by assumption.
    assert (0 <= Z.of_nat n * S) by nia.
    zbool; simpl; try reflexivity; nia.
Qed.

Lemma cover_count_bottomRow (x y W H S : Z) :
  1 <= W -> 1 <= H -> 1 <= S ->
  cover_count x y (bottomRow W H S) =
  if ((H / S) * S <=? y) && (y <? H) && (0 <=? x) && (x <? W)
  then 1%nat else 0%nat.
Proof.
  intros HW HH HS.
  destruct (side_split W S HW HS) as (EW & HRW & HQW).
  destruct (side_split H S HH HS) as (EH & HRH & HQH).
  unfold bottomRow. destruct (Z.rem H S >? 0) eqn:EH0.
  - rewrite cover_count_app, cover_count_bottomEdges by assumption.
    rewrite Z2Nat.id by assumption.
    destruct (Z.rem W S >? 0) eqn:EW0.
    + rewrite cover_count_cons. rewrite ?cover_count_nil.
      unfold covers, corner; cbn [startX startY endX endY].
      zbool; simpl; try reflexivity; lia.
    + rewrite ?cover_count_nil.
      zbool; simpl; try reflexivity; lia.
  - rewrite cover_count_nil.
    zbool; simpl; try reflexivity; lia.
Qed.

Lemma cover_count_grid (x y W H S : Z) :
  1 <= W -> 1 <= H -> 1 <= S ->
  cover_count x y (calculateGridSections W H S) =
  if (0 <=? x) && (x <? W) && (0 <=? y) && (y <? H) then 1%nat else 0%nat.
Proof.
  intros HW HH HS.
  destruct (side_split H S HH HS) as (EH & HRH & HQH).
  rewrite calculateGridSections_rows, cover_count_app.
  rewrite cover_count_fullRows, cover_count_bottomRow by assumption.
  rewrite Z2Nat.id by assumption.
  zbool; simpl; try reflexivity; lia.
Qed.

Lemma sections_in_image (W H S : Z) :
  1 <= W -> 1 <= H -> 1 <= S ->
  Forall (section_in_image W H) (calculateGridSections W H S).
Proof.
  intros HW HH HS.
  destruct (side_split W S HW HS) as (EW & HRW & HQW).
  destruct (side_split H S HH HS) as (EH & HRH & HQH).
  rewrite calculateGridSections_rows.
  apply Forall_forall. intros s Hs.
  apply in_app_or in Hs. destruct Hs as [Hs|Hs].
  - apply in_flat_map in Hs. destruct Hs as (row & Hrow & Hs).
    apply in_zseq in Hrow. rewrite Z2Nat.id in Hrow by assumption.
    unfold fullRow in Hs. apply in_app_or in Hs. destruct Hs as [Hs|Hs].
    + apply in_map_iff in Hs. destruct Hs as (col & <- & Hcol).
      apply in_zseq in Hcol. rewrite Z2Nat.id in Hcol by assumption.
      unfold section_in_image, cell; cbn [startX startY endX endY]. nia.
    + destruct (Z.rem W S >? 0) eqn:E; [|contradiction].
      destruct Hs as [<-|[]].
      unfold section_in_image, rightEdge; cbn [startX startY endX endY].
      zbool; try discriminate; nia.
  - unfold bottomRow in Hs. destruct (Z.rem H S >? 0) eqn:EH0; [|contradiction].
    apply in_app_or in Hs. destruct Hs as [Hs|Hs].
    + apply in_map_iff in Hs. destruct Hs as (col & <- & Hcol).
      apply in_zseq in Hcol. rewrite Z2Nat.id in Hcol by assumption.
      unfold section_in_image, bottomEdge; cbn [startX startY endX endY].
      zbool; try discriminate; nia.
    + destruct (Z.rem W S >? 0) eqn:E; [|contradiction].
      destruct Hs as [<-|[]].
      unfold section_in_image, corner; cbn [startX startY endX endY].
      zbool; try discriminate; nia.
Qed.

Lemma two_hits_count {A : Type} (p : A -> bool) (l : list A) (i j : nat) (a b : A) :
  i <> j -> nth_error l i = Some a -> nth_error l j = Some b ->
  p a = true -> p b = true -> (2 <= length (filter p l))%nat.
Proof.
  revert i j. induction l as [|c l IH]; intros i j Hij Hi Hj Ha Hb.
  - destruct i; discriminate.
  - destruct i as [|i], j as [|j]; simpl in *.
    + congruence.
    + injection Hi as ->. rewrite Ha. simpl.
      apply nth_error_In in Hj.
      assert (In b (filter p l)) by (apply filter_In; auto).
      destruct (filter p l); [contradiction | simpl; lia].
    + injection Hj as ->. rewrite Hb. simpl.
      apply nth_error_In in Hi.
      assert (In a (filter p l)) by (apply filter_In; auto).
      destruct (filter p l); [contradiction | simpl; lia].
    + assert (2 <= length (filter p l))%nat by (eapply (IH i j); eauto).
      destruct (p c); simpl; lia.
Qed.

(** C2.  For every width, height and cell size of at least 1 the sections
    produced by [calculateGridSections] partition the pixel grid: every pixel
    of the image lies in exactly one section (counted with multiplicity), two
    sections at different positions of the list share no pixel, and every
    section is a non-empty rectangle inside the image. *)
Theorem grid_sections_partition (W H S : Z) :
  1 <= W -> 1 <= H -> 1 <= S ->
  (forall x y, 0 <= x < W -> 0 <= y < H ->
     cover_count x y (calculateGridSections W H S) = 1%nat) /\
  (forall i j a b, i <> j ->
     nth_error (calculateGridSections W H S) i = Some a ->
     nth_error (calculateGridSections W H S) j = Some b ->
     forall x y, covers x y a = true -> covers x y b = false) /\
  Forall (section_in_image W H) (calculateGridSections W H S).
Proof.
  intros HW HH HS. split; [|split].
  - intros x y Hx Hy. rewrite cover_count_grid by assumption.
    zbool; simpl; try reflexivity; lia.
  - intros i j a b Hij Hi Hj x y Ha.
    destruct (covers x y b) eqn:Hb; [exfalso|reflexivity].
    pose proof (two_hits_count (covers x y) _ i j a b Hij Hi Hj Ha Hb) as H2.
    fold (cover_count x y (calculateGridSections W H S)) in H2.
    rewrite cover_count_grid in H2 by assumption.
    destruct ((0 <=? x) && (x <? W) && (0 <=? y) && (y <? H)); lia.
  - now apply sections_in_image.
Qed.

Lemma grid_sections_partition_witness :
  cover_count 4 2 (calculateGridSections 5 3 2) = 1%nat.
Proof.
  apply (proj1 (grid_sections_partition 5 3 2 ltac:(lia) ltac:(lia) ltac:(lia)));
    lia.
Defined.

(** ** C5: images smaller than one cell *)

(** C5, counterexample.  A 1x3 image with cell size 2 has [W < S], yet the
    partitioner emits two sections: the right-edge section of the one full
    row and the corner section. *)
Lemma small_side_two_sections :
  (1 < 2 \/ 3 < 2) /\
  calculateGridSections 1 3 2 =
    [ {| startX := 0; startY := 0; endX := 1; endY := 2 |};
      {| startX := 0; startY := 2; endX := 1; endY := 3 |} ] /\
  calculateGridSections 1 3 2 <> [wholeImage 1 3].
Proof.
  split; [left; lia|]. split; [reflexivity|]. discriminate.
Qed.

(** ** C8: the significance selector *)

Lemma js_slice_prefix {A : Type} (l : list A) (n : Z) :
  0 <= n -> js_slice l 0 n = firstn (Z.to_nat n) l.
Proof.
  intros Hn. unfold js_slice.
  change (0 <? 0) with false. cbv iota.
  destruct (Z.ltb_spec n 0) as [Hlt|_]; [lia|].
  rewrite (Z.min_l 0) by lia. simpl skipn. rewrite Z.sub_0_r.
  destruct (Z.le_ge_cases n (Z.of_nat (length l))) as [Hle|Hge].
  - now rewrite Z.min_l by lia.
  - rewrite Z.min_r by lia. rewrite Nat2Z.id.
    rewrite !firstn_all2; auto; lia.
Qed.

Lemma subseq_refl {A : Type} (l : list A) : subseq l l.
Proof. induction l; [apply subseq_nil | now apply subseq_keep]. Qed.

Lemma subseq_nil_l {A : Type} (l : list A) : subseq [] l.
Proof. induction l; [apply subseq_nil | now apply subseq_skip]. Qed.

Lemma subseq_trans {A : Type} (l1 l2 l3 : list A) :
  subseq l1 l2 -> subseq l2 l3 -> subseq l1 l3.
Proof.
  intros H12 H23. revert l1 H12.
  induction H23 as [|x l2 l3 H IH|x l2 l3 H IH]; intros l1 H12.
  - assumption.
  - apply subseq_skip. auto.
  - inversion H12; subst.
    + apply subseq_skip. auto.
    + apply subseq_keep. auto.
Qed.

Lemma subseq_filter {A : Type} (p : A -> bool) (l : list A) : subseq (filter p l) l.
Proof.
  induction l as [|x l IH]; simpl; [apply subseq_nil|].
  destruct (p x); [now apply subseq_keep | now apply subseq_skip].
Qed.

Lemma subseq_firstn {A : Type} (n : nat) (l : list A) : subseq (firstn n l) l.
Proof.
  revert n. induction l as [|x l IH]; intros [|n]; simpl.
  - apply subseq_nil.
  - apply subseq_nil.
  - apply subseq_nil_l.
  - apply subseq_keep, IH.
Qed.

Lemma subseq_In {A : Type} (l1 l2 : list A) (x : A) :
  subseq l1 l2 -> In x l1 -> In x l2.
Proof.
  induction 1 as [|y l1 l2 H IH|y l1 l2 H IH]; simpl; intros Hin; auto.
  destruct Hin; auto.
Qed.

Lemma selectDiverseColors_prefix (colors : list ColorResult) (maxColors : Z) :
  0 <= maxColors ->
  selectDiverseColors colors maxColors =
  firstn (Z.to_nat maxColors) (filter isSignificant colors).
Proof.
  intros Hm. unfold selectDiverseColors.
  destruct (Z.leb_spec (Z.of_nat (length (filter isSignificant colors))) maxColors).
  - rewrite firstn_all2; auto. lia.
  - now apply js_slice_prefix.
Qed.

Lemma subseq_skipn {A : Type} (n : nat) (l : list A) : subseq (skipn n l) l.
Proof.
  revert n. induction l as [|x l IH]; intros [|n]; simpl.
  - apply subseq_nil.
  - apply subseq_nil.
  - apply subseq_refl.
  - apply subseq_skip, IH.
Qed.

Lemma js_slice_subseq {A : Type} (l : list A) (start end_ : Z) :
  subseq (js_slice l start end_) l.
Proof.
  unfold js_slice.
  eapply subseq_trans; [apply subseq_firstn | apply subseq_skipn].
Qed.

Lemma selectDiverseColors_subseq (colors : list ColorResult) (maxColors : Z) :
  subseq (selectDiverseColors colors maxColors) (filter isSignificant colors).
Proof.
  unfold selectDiverseColors.
  destruct (Z.of_nat (length (filter isSignificant colors)) <=? maxColors).
  - apply subseq_refl.
  - apply js_slice_subseq.
Qed.

(** C8.  For every list, the selector returns the entries with frequency at
    least 0.5, all of them when there are at most [maxColors] and otherwise
    the first [maxColors] of them ([maxColors >= 0]), in the order of the
    input.  For every [maxColors] the result is a subsequence of those
    entries and so of the input: nothing is added, reordered or substituted
    by category; each returned entry is an input entry with frequency at
    least 0.5, and when there are at most [maxColors] such entries every
    one of them is returned. *)
Theorem selectDiverseColors_spec (colors : list ColorResult) (maxColors : Z) :
  let kept :=
    filter (fun c => if Rge_dec (frequency c) 0.5 then true else false) colors in
  (0 <= maxColors ->
     selectDiverseColors colors maxColors = firstn (Z.to_nat maxColors) kept /\
     (Z.of_nat (length kept) <= maxColors ->
        selectDiverseColors colors maxColors = kept) /\
     (maxColors < Z.of_nat (length kept) ->
        Z.of_nat (length (selectDiverseColors colors maxColors)) = maxColors)) /\
  subseq (selectDiverseColors colors maxColors) kept /\
  subseq (selectDiverseColors colors maxColors) colors /\
  (forall c, In c (selectDiverseColors colors maxColors) ->
     In c colors /\ (frequency c >= 0.5)%R) /\
  (Z.of_nat (length kept) <= maxColors ->
     forall c, In c colors -> (frequency c >= 0.5)%R ->
       In c (selectDiverseColors colors maxColors)).
Proof.
  intros kept.
  change kept with (filter isSignificant colors).
  set (significant := filter isSignificant colors).
  pose proof (selectDiverseColors_subseq colors maxColors) as Hsub.
  fold significant in Hsub.
  assert (Hall : Z.of_nat (length significant) <= maxColors ->
                 selectDiverseColors colors maxColors = significant).
  { intros Hle. unfold selectDiverseColors. fold significant.
    apply Z.leb_le in Hle. now rewrite Hle. }
  split; [|split; [|split; [|split]]].
  - intros Hm.
    pose proof (selectDiverseColors_prefix colors maxColors Hm) as E.
    fold significant in E.
    split; [exact E|]. split; [exact Hall|].
    intros Hlt. rewrite E, length_firstn. lia.
  - exact Hsub.
  - eapply subseq_trans; [exact Hsub | apply subseq_filter].
  - intros c Hc. apply (subseq_In _ _ _ Hsub) in Hc.
    apply filter_In in Hc. destruct Hc as [Hin Hsig]. split; [assumption|].
    unfold isSignificant, MIN_FREQUENCY_THRESHOLD in Hsig.
    destruct (Rge_dec (frequency c) 0.5); [assumption | discriminate].
  - intros Hle c Hin Hfreq. rewrite (Hall Hle). apply filter_In. split; [assumption|].
    unfold isSignificant, MIN_FREQUENCY_THRESHOLD.
    destruct (Rge_dec (frequency c) 0.5); [reflexivity | contradiction].
Qed.

(** Four entries, the second below 0.5, capped at two. *)
Lemma selectDiverseColors_spec_witness :
  selectDiverseColors [grayA; faint; grayB; redA] 2 = [grayA; grayB].
Proof.
  assert (H2 : 0 <= 2) by lia.
  rewrite (proj1 (proj1 (selectDiverseColors_spec [grayA; faint; grayB; redA] 2) H2)).
  cbn [filter frequency grayA faint grayB redA].
  destruct (Rge_dec 30 0.5) as [_|H]; [|exfalso; apply H; lra].
  destruct (Rge_dec 0.3 0.5) as [H|_]; [exfalso; lra|].
  destruct (Rge_dec 25 0.5) as [_|H]; [|exfalso; apply H; lra].
  destruct (Rge_dec 20 0.5) as [_|H]; [|exfalso; apply H; lra].
  reflexivity.
Defined.

(** ** C7: the merger applied to its own output *)

(** The fuel [length colors - i] is enough: the loop has stopped by the time
    it is used up, and more fuel gives the same result. *)
Lemma mergeLoop_fuel_enough (colors : list ColorResult) (M : Z) (fuel extra i : nat)
    (merged : list ColorResult) (used : list nat) :
  (length colors <= i + fuel)%nat ->
  mergeLoop colors M (fuel + extra) i merged used = mergeLoop colors M fuel i merged used.
Proof.
  revert i merged used. induction fuel as [|fuel IH]; intros i merged used Hlen.
  - destruct extra; [reflexivity|]. cbn [Nat.add mergeLoop].
    destruct (Nat.ltb_spec i (length colors)); [lia | reflexivity].
  - cbn [Nat.add mergeLoop].
    destruct ((i <? length colors)%nat && (Z.of_nat (length merged) <? M)); [|reflexivity].
    destruct (used_has i used); [apply IH; lia|].
    destruct (nth_error colors i); [apply IH; lia | reflexivity].
Qed.

Lemma mergeLoop_length (colors : list ColorResult) (M : Z) (fuel i : nat)
    (merged : list ColorResult) (used : list nat) :
  Z.of_nat (length (mergeLoop colors M fuel i merged used))
  <= Z.max M (Z.of_nat (length merged)).
Proof.
  revert i merged used. induction fuel as [|fuel IH]; intros i merged used; simpl.
  - lia.
  - destruct (i <? length colors)%nat; simpl; [|lia].
    destruct (Z.ltb_spec (Z.of_nat (length merged)) M) as [Hlt|Hge]; [|lia].
    destruct (used_has i used).
    + apply IH.
    + destruct (nth_error colors i) as [baseColor|]; [|lia].
      etransitivity; [apply IH|].
      rewrite length_app. simpl. lia.
Qed.

Lemma mergeLoop_cap_reached (colors : list ColorResult) (M : Z) (fuel i : nat)
    (merged : list ColorResult) (used : list nat) :
  M <= Z.of_nat (length merged) ->
  mergeLoop colors M fuel i merged used = merged.
Proof.
  intros HM. destruct fuel; simpl; [reflexivity|].
  destruct (Z.ltb_spec (Z.of_nat (length merged)) M); [lia|].
  now rewrite andb_false_r.
Qed.

(** With a cap below 1 no group is ever opened. *)
Lemma merge_nonpositive_cap (colors : list ColorResult) (M : Z) :
  M <= 0 -> mergeSimilarColorsConservative colors M = [].
Proof.
  intros HM. unfold mergeSimilarColorsConservative.
  destruct (Z.leb_spec (Z.of_nat (length colors)) M).
  - destruct colors; [reflexivity | simpl in *; lia].
  - apply mergeLoop_cap_reached. simpl. lia.
Qed.

(** C7.  Applying the merger with the same cap to its own output returns
    that output unchanged. *)
Theorem merge_idempotent (colors : list ColorResult) (M : Z) :
  mergeSimilarColorsConservative (mergeSimilarColorsConservative colors M) M =
  mergeSimilarColorsConservative colors M.
Proof.
  destruct (Z.le_gt_cases M 0) as [HM|HM].
  - rewrite (merge_nonpositive_cap colors M HM).
    now apply merge_nonpositive_cap.
  - assert (Hlen : Z.of_nat (length (mergeSimilarColorsConservative colors M)) <= M).
    { unfold mergeSimilarColorsConservative.
      destruct (Z.leb_spec (Z.of_nat (length colors)) M); [assumption|].
      pose proof (mergeLoop_length colors M (length colors) 0 [] []) as HL.
      simpl in HL. lia. }
    unfold mergeSimilarColorsConservative at 1.
    destruct (Z.leb_spec (Z.of_nat (length (mergeSimilarColorsConservative colors M))) M);
      [reflexivity | lia].
Qed.

(** ** C9: the CIE94 distance depends on the operand order *)

Local Open Scope R_scope.

Lemma sqrt_sq (x y : R) : 0 <= y -> x = y * y -> sqrt x = y.
Proof. intros Hy ->. now apply sqrt_square. Qed.

(** In exact arithmetic the radicand of [dh] is never negative, so the
    square root is taken of a non-negative number, as in the source. *)
Lemma hue_radicand_nonneg (lab1 lab2 : LAB) :
  let da := lab_a lab1 - lab_a lab2 in
  let db := lab_b lab1 - lab_b lab2 in
  let c1 := sqrt (lab_a lab1 * lab_a lab1 + lab_b lab1 * lab_b lab1) in
  let c2 := sqrt (lab_a lab2 * lab_a lab2 + lab_b lab2 * lab_b lab2) in
  let dc := c1 - c2 in
  0 <= da * da + db * db - dc * dc.
Proof.
  intros da db c1 c2 dc.
  pose proof (sqrt_cauchy (lab_a lab1) (lab_b lab1) (lab_a lab2) (lab_b lab2)) as Hcs.
  unfold Rsqr in Hcs. fold c1 c2 in Hcs.
  assert (H1 : c1 * c1 = lab_a lab1 * lab_a lab1 + lab_b lab1 * lab_b lab1).
  { unfold c1. apply sqrt_sqrt. nra. }
  assert (H2 : c2 * c2 = lab_a lab2 * lab_a lab2 + lab_b lab2 * lab_b lab2).
  { unfold c2. apply sqrt_sqrt. nra. }
  unfold da, db, dc. nra.
Qed.

Lemma labDistance_neutral_chroma5 : labDistanceCIE94 labNeutral labChroma5 = 5.
Proof.
  unfold labDistanceCIE94, labNeutral, labChroma5; cbn [lab_l lab_a lab_b].
  rewrite (sqrt_sq (0 * 0 + 0 * 0) 0) by lra.
  rewrite (sqrt_sq (3 * 3 + 4 * 4) 5) by lra.
  rewrite (sqrt_sq ((0 - 3) * (0 - 3) + (0 - 4) * (0 - 4) - (0 - 5) * (0 - 5)) 0) by lra.
  apply sqrt_sq; lra.
Qed.

Lemma labDistance_chroma5_neutral : labDistanceCIE94 labChroma5 labNeutral = 5 / 1.225.
Proof.
  unfold labDistanceCIE94, labNeutral, labChroma5; cbn [lab_l lab_a lab_b].
  rewrite (sqrt_sq (0 * 0 + 0 * 0) 0) by lra.
  rewrite (sqrt_sq (3 * 3 + 4 * 4) 5) by lra.
  rewrite (sqrt_sq ((3 - 0) * (3 - 0) + (4 - 0) * (4 - 0) - (5 - 0) * (5 - 0)) 0) by lra.
  apply sqrt_sq; lra.
Qed.

(** C9.  [labDistanceCIE94] is not symmetric: between a neutral colour and a
    colour of chroma 5 the distance is 5 when the neutral colour comes first
    (S_C = 1) and 5 / 1.225 when the chromatic colour comes first
    (S_C = 1 + 0.045 * 5), the weights being computed from the chroma of the
    first operand only. *)
Theorem labDistanceCIE94_not_symmetric :
  exists A B : LAB,
    labDistanceCIE94 A B = 5 /\
    labDistanceCIE94 B A = 5 / (1 + 0.045 * 5) /\
    labDistanceCIE94 A B <> labDistanceCIE94 B A.
Proof.
  exists labNeutral, labChroma5.
  rewrite labDistance_neutral_chroma5, labDistance_chroma5_neutral.
  split; [reflexivity|]. split; [f_equal; lra|]. lra.
Qed.

Local Close Scope R_scope.

(** ** The sample colours and the groups of the merger *)

Local Open Scope R_scope.

(** Two colours with the same chroma coordinates differ by their lightness
    difference only. *)
Lemma labDistanceCIE94_same_ab (A B : LAB) :
  lab_a A = lab_a B -> lab_b A = lab_b B -> 0 <= lab_l A - lab_l B ->
  labDistanceCIE94 A B = lab_l A - lab_l B.
Proof.
  intros Ha Hb Hl. unfold labDistanceCIE94. rewrite Ha, Hb.
  set (c := sqrt (lab_a B * lab_a B + lab_b B * lab_b B)).
  assert (Hc : 0 <= c) by apply sqrt_pos.
  replace (c - c) with 0 by ring.
  rewrite (sqrt_sq ((lab_a B - lab_a B) * (lab_a B - lab_a B) +
                    (lab_b B - lab_b B) * (lab_b B - lab_b B) - 0 * 0) 0)
    by (try lra; ring).
  apply sqrt_sq; [assumption|].
  unfold Rdiv. rewrite Rinv_1. ring.
Qed.

Lemma grays_distance : labDistanceCIE94 (lab grayA) (lab grayB) = 2.
Proof.
  rewrite labDistanceCIE94_same_ab; simpl; try reflexivity; lra.
Qed.

Lemma reds_distance : labDistanceCIE94 (lab redA) (lab redB) = 3.
Proof.
  rewrite labDistanceCIE94_same_ab; simpl; try reflexivity; lra.
Qed.

Lemma used_has_cons (u j : nat) (used : list nat) :
  used_has u (j :: used) = Nat.eqb u j || used_has u used.
Proof. reflexivity. Qed.

Lemma mergeStep_used (colors : list ColorResult) (baseColor : ColorResult)
    (j : nat) (acc : MergeAcc) (u : nat) :
  used_has u (acc_used (mergeStep colors baseColor j acc)) =
  used_has u (acc_used acc)
  || (Nat.eqb u j && negb (used_has j (acc_used acc)) && closeAt colors baseColor j).
Proof.
  unfold mergeStep, closeAt, closeTo.
  destruct (used_has j (acc_used acc)) eqn:Hj.
  - now rewrite andb_false_r, orb_false_r.
  - destruct (nth_error colors j) as [c|].
    + destruct (Rlt_dec _ _); cbn [acc_used].
      * rewrite used_has_cons, !andb_true_r. apply orb_comm.
      * now rewrite andb_false_r, orb_false_r.
    + now rewrite andb_false_r, orb_false_r.
Qed.

Lemma fold_mergeStep_used (colors : list ColorResult) (baseColor : ColorResult)
    (js : list nat) (acc : MergeAcc) (u : nat) :
  used_has u (acc_used (fold_left (fun st j => mergeStep colors baseColor j st) js acc)) =
  used_has u (acc_used acc) || (existsb (Nat.eqb u) js && closeAt colors baseColor u).
Proof.
  revert acc. induction js as [|j js IH]; intros acc; simpl.
  - now rewrite orb_false_r.
  - rewrite IH, mergeStep_used.
    destruct (Nat.eqb_spec u j) as [->|Hne]; simpl.
    + destruct (used_has j (acc_used acc)), (closeAt colors baseColor j),
        (existsb (Nat.eqb j) js); reflexivity.
    + now rewrite orb_false_r.
Qed.

Lemma existsb_seq (u lo len : nat) :
  existsb (Nat.eqb u) (seq lo len) = (lo <=? u)%nat && (u <? lo + len)%nat.
Proof.
  revert lo. induction len as [|len IH]; intros lo; simpl.
  - destruct (Nat.leb_spec lo u), (Nat.ltb_spec u (lo + 0)); simpl; auto; lia.
  - rewrite IH.
    destruct (Nat.eqb_spec u lo), (Nat.leb_spec (S lo) u), (Nat.leb_spec lo u),
      (Nat.ltb_spec u (S lo + len)), (Nat.ltb_spec u (lo + S len)); simpl; auto; lia.
Qed.

(** Which colours the group of a base absorbs: a later, not yet merged colour
    is marked as merged exactly when it is close to the base. *)
Lemma mergeGroup_absorbs (colors : list ColorResult) (i j : nat)
    (baseColor c : ColorResult) (used : list nat) :
  nth_error colors j = Some c -> (i < j)%nat -> used_has j used = false ->
  used_has j (acc_used (mergeGroup colors i baseColor used)) = closeTo baseColor c.
Proof.
  intros Hj Hij Hused. unfold mergeGroup, for_index.
  rewrite fold_mergeStep_used. cbn [acc_used]. rewrite Hused. simpl.
  unfold closeAt. rewrite Hj.
  assert (j < length colors)%nat by (apply nth_error_Some; congruence).
  rewrite existsb_seq.
  destruct (Nat.leb_spec (S i) j), (Nat.ltb_spec j (S i + (length colors - S i)));
    simpl; auto; lia.
Qed.

Lemma sumFrequency_cons (c : ColorResult) (l : list ColorResult) :
  sumFrequency (c :: l) = frequency c + sumFrequency l.
Proof. reflexivity. Qed.

Lemma sumFrequency_app (l1 l2 : list ColorResult) :
  sumFrequency (l1 ++ l2) = sumFrequency l1 + sumFrequency l2.
Proof.
  induction l1 as [|c l1 IH]; simpl app.
  - unfold sumFrequency at 2. simpl. lra.
  - rewrite !sumFrequency_cons, IH. lra.
Qed.

Local Close Scope R_scope.

(** ** C6: parameters out of range *)

Lemma selectDiverseColors_nil (maxColors : Z) : selectDiverseColors [] maxColors = [].
Proof.
  pose proof (selectDiverseColors_subseq [] maxColors) as H.
  simpl in H. inversion H. reflexivity.
Qed.

Lemma merge_nil (M : Z) : mergeSimilarColorsConservative [] M = [].
Proof.
  unfold mergeSimilarColorsConservative.
  destruct (Z.of_nat (length (@nil ColorResult)) <=? M); reflexivity.
Qed.

(** With [maxColors < 1] the cap of the merger is not positive, no group is
    opened and the selector receives the empty list. *)
Lemma extractColorsWeightedGrid_nonpositive (imageData : ImageData) (maxColors S : Z) :
  maxColors < 1 -> extractColorsWeightedGrid imageData maxColors S = [].
Proof.
  intros Hm. unfold extractColorsWeightedGrid.
  rewrite merge_nonpositive_cap by lia. apply selectDiverseColors_nil.
Qed.

Lemma for_range_empty {St : Type} (lo hi : Z) (body : Z -> St -> St) (s : St) :
  hi <= lo -> for_range lo hi body s = s.
Proof.
  intros H. unfold for_range.
  replace (Z.to_nat (hi - lo)) with 0%nat by lia. reflexivity.
Qed.

(** With a negative cell size every produced section has its end before its
    start. *)
Lemma negative_cell_sections (W H S : Z) :
  1 <= W -> 1 <= H -> S < 0 ->
  Forall (fun s => endY s <= startY s) (calculateGridSections W H S).
Proof.
  intros HW HH HS.
  pose proof (Z.div_mod H S ltac:(lia)) as EH.
  pose proof (Z.mod_neg_bound H S HS) as BH.
  pose proof (Z.div_mod W S ltac:(lia)) as EW.
  pose proof (Z.mod_neg_bound W S HS) as BW.
  assert (HqH : H / S < 0) by nia.
  assert (HqW : W / S < 0) by nia.
  rewrite calculateGridSections_rows.
  replace (Z.to_nat (H / S)) with 0%nat by lia. simpl.
  unfold bottomRow.
  replace (Z.to_nat (W / S)) with 0%nat by lia. simpl.
  destruct (Z.rem H S >? 0); [|constructor].
  destruct (Z.rem W S >? 0); [|constructor].
  constructor; [|constructor].
  unfold corner; cbn [startY endY]. nia.
Qed.

Lemma aggregateWeights_negative_cell (imageData : ImageData) (S : Z) :
  wf_image imageData -> S < 0 -> aggregateWeights imageData S = [].
Proof.
  intros (HW & HH & _) HS. unfold aggregateWeights.
  pose proof (negative_cell_sections _ _ S HW HH HS) as Hall.
  induction Hall as [|s l Hs Hl IH]; [reflexivity|].
  simpl. unfold accumulateSection at 2, countPixelsByColor.
  rewrite for_range_empty by assumption. simpl. exact IH.
Qed.

Lemma extractColorsWeightedGrid_negative_cell (imageData : ImageData) (maxColors S : Z) :
  wf_image imageData -> S < 0 -> extractColorsWeightedGrid imageData maxColors S = [].
Proof.
  intros Hwf HS. unfold extractColorsWeightedGrid.
  rewrite aggregateWeights_negative_cell by assumption.
  cbn [normalizedResults fold_left sortByFrequencyDesc fold_right].
  rewrite merge_nil. apply selectDiverseColors_nil.
Qed.

Lemma onePixel_wf : wf_image onePixel.
Proof.
  unfold wf_image, onePixel; simpl.
  repeat split; try lia.
  repeat constructor; lia.
Qed.

(** C6, counterexample.  With [maxColors = 0] (and cell size 1) the call on
    a well-formed image is fulfilled with the empty list; it is not
    rejected. *)
Lemma zero_maxColors_fulfilled :
  0 < 1 /\ extractColors true (Fulfilled onePixel) 0 1 = Fulfilled [].
Proof.
  split; [lia|]. unfold extractColors. simpl negb. cbv iota.
  now rewrite extractColorsWeightedGrid_nonpositive by lia.
Qed.

(** C6, amended.  [extractColors] does not validate its parameters.  A call
    is rejected only when no canvas is available or the image could not be
    loaded, always with the same generic message.  On a loaded image, with
    [maxColors < 1] (any non-zero cell size) or with a negative cell size,
    the call is fulfilled with the empty list. *)
Theorem extractColors_without_validation :
  (forall canvasAvailable pixels maxColors S msg,
     extractColors canvasAvailable pixels maxColors S = Rejected msg ->
     msg = "Failed to extract colors using weighted grid analysis"%string /\
     (canvasAvailable = false \/ exists e, pixels = Rejected e)) /\
  (forall imageData maxColors S,
     wf_image imageData -> S <> 0 -> maxColors < 1 \/ S < 0 ->
     extractColors true (Fulfilled imageData) maxColors S = Fulfilled []).
Proof.
  split.
  - intros canvasAvailable pixels maxColors S msg H.
    unfold extractColors in H.
    destruct canvasAvailable; simpl in H.
    + destruct pixels as [imageData|e]; [discriminate|].
      injection H as <-. split; [reflexivity|]. right. now exists e.
    + injection H as <-. split; [reflexivity|]. now left.
  - intros imageData maxColors S Hwf HS [Hm|Hneg]; unfold extractColors; simpl negb;
      cbv iota.
    + now rewrite extractColorsWeightedGrid_nonpositive by assumption.
    + now rewrite extractColorsWeightedGrid_negative_cell by assumption.
Qed.

Lemma extractColors_without_validation_witness :
  extractColors true (Fulfilled onePixel) (-2) 1 = Fulfilled [].
Proof.
  apply (proj2 extractColors_without_validation onePixel (-2) 1).
  - exact onePixel_wf.
  - lia.
  - left. lia.
Defined.

(** ** Facts about insertion-ordered maps *)

Lemma map_get_set_eq {V : Type} (k : string) (v : V) (m : JSMap V) :
  map_get k (map_set k v m) = Some v.
Proof.
  induction m as [|[k' v'] m IH]; simpl.
  - now rewrite String.eqb_refl.
  - destruct (String.eqb k k') eqn:E; simpl; rewrite E; auto.
Qed.

Lemma map_get_set_neq {V : Type} (k k' : string) (v : V) (m : JSMap V) :
  k <> k' -> map_get k (map_set k' v m) = map_get k m.
Proof.
  intros Hne. induction m as [|[k'' v''] m IH]; simpl.
  - destruct (String.eqb_spec k k'); [contradiction | reflexivity].
  - destruct (String.eqb_spec k' k'') as [->|Hne']; simpl.
    + destruct (String.eqb_spec k k''); [contradiction | reflexivity].
    + destruct (String.eqb_spec k k''); auto.
Qed.

Lemma map_set_keys {V : Type} (k k' : string) (v : V) (m : JSMap V) :
  In k (map fst (map_set k' v m)) <-> k = k' \/ In k (map fst m).
Proof.
  induction m as [|[k'' v''] m IH]; simpl.
  - intuition.
  - destruct (String.eqb_spec k' k'') as [->|Hne]; simpl.
    + intuition.
    + rewrite IH. intuition.
Qed.

Lemma map_set_NoDup {V : Type} (k : string) (v : V) (m : JSMap V) :
  NoDup (map fst m) -> NoDup (map fst (map_set k v m)).
Proof.
  induction m as [|[k' v'] m IH]; simpl; intros Hnd.
  - constructor; [intros [] | constructor].
  - inversion Hnd as [|? ? Hnotin Hnd']; subst.
    destruct (String.eqb_spec k k') as [->|Hne]; simpl.
    + constructor; assumption.
    + constructor; [|auto].
      rewrite map_set_keys. intros [E|Hin]; [congruence | contradiction].
Qed.

Lemma map_get_In {V : Type} (k : string) (v : V) (m : JSMap V) :
  NoDup (map fst m) -> In (k, v) m -> map_get k m = Some v.
Proof.
  induction m as [|[k' v'] m IH]; simpl; intros Hnd Hin; [contradiction|].
  inversion Hnd as [|? ? Hnotin Hnd']; subst.
  destruct Hin as [E|Hin].
  - injection E as -> ->. now rewrite String.eqb_refl.
  - destruct (String.eqb_spec k k') as [->|Hne]; [|auto].
    exfalso. apply Hnotin. apply (in_map fst) in Hin. exact Hin.
Qed.

Lemma map_get_None_keys {V : Type} (k : string) (m : JSMap V) :
  ~ In k (map fst m) -> map_get k m = None.
Proof.
  induction m as [|[k' v'] m IH]; simpl; intros Hnotin; [reflexivity|].
  destruct (String.eqb_spec k k') as [->|Hne]; [exfalso; auto | auto].
Qed.

Lemma for_upto_invariant {St : Type} (P : St -> Prop) (body : Z -> St -> St)
    (n : nat) (i : Z) (s : St) :
  (forall k t, P t -> P (body k t)) -> P s -> P (for_upto n i body s).
Proof.
  intros Hbody. revert i s. induction n as [|n IH]; intros i s Hs; simpl; auto.
Qed.

(** ** The cell histogram *)

Lemma totalCount_set (k : string) (v : ColorCount) (m : JSMap ColorCount) :
  totalCount (map_set k v m) = totalCount m - countOf k m + count v.
Proof.
  unfold countOf. induction m as [|[k' v'] m IH]; simpl.
  - lia.
  - destruct (String.eqb_spec k k') as [->|Hne]; simpl.
    + lia.
    + rewrite IH. lia.
Qed.

Lemma map_set_Forall {V : Type} (P : string * V -> Prop) (k : string) (v : V) (m : JSMap V) :
  (forall k', P (k', v)) -> Forall P m -> Forall P (map_set k v m).
Proof.
  intros Hv. induction m as [|[k' v'] m IH]; simpl; intros Hall.
  - constructor; auto.
  - inversion Hall; subst.
    destruct (String.eqb k k'); constructor; auto.
Qed.

Lemma countOf_le_total (k : string) (m : JSMap ColorCount) :
  Forall (fun entry => 0 <= count (snd entry)) m -> 0 <= countOf k m <= totalCount m.
Proof.
  unfold countOf. induction m as [|[k' v'] m IH]; simpl; intros Hall; [lia|].
  inversion Hall; subst. simpl in *.
  destruct (String.eqb k k').
  - assert (0 <= totalCount m).
    { specialize (IH ltac:(assumption)). destruct (map_get k m); lia. }
    unfold totalCount in *. lia.
  - specialize (IH ltac:(assumption)). unfold totalCount in *. lia.
Qed.

Lemma countPixel_ok (imageData : ImageData) (x y : Z) (m : JSMap ColorCount) :
  hist_ok m ->
  hist_ok (countPixel imageData x y m) /\
  totalCount (countPixel imageData x y m) <= totalCount m + 1.
Proof.
  intros [Hnd Hall]. unfold countPixel.
  destruct (data_at imageData ((y * width imageData + x) * 4 + 3) <? 128).
  - split; [split; assumption | lia].
  - set (colorHex := rgbToHex _).
    destruct (map_get colorHex m) as [e|] eqn:E.
    + assert (0 <= count e).
      { pose proof (countOf_le_total colorHex m Hall) as Hc.
        unfold countOf in Hc. rewrite E in Hc. lia. }
      split; [split|].
      * now apply map_set_NoDup.
      * apply map_set_Forall; [simpl; lia | assumption].
      * rewrite totalCount_set. unfold countOf. rewrite E. simpl. lia.
    + split; [split|].
      * now apply map_set_NoDup.
      * apply map_set_Forall; [simpl; lia | assumption].
      * rewrite totalCount_set. unfold countOf. rewrite E. simpl. lia.
Qed.

Lemma for_upto_count_bound (body : Z -> JSMap ColorCount -> JSMap ColorCount)
    (step : Z) (n : nat) (i : Z) (m : JSMap ColorCount) :
  (forall k t, hist_ok t -> hist_ok (body k t) /\ totalCount (body k t) <= totalCount t + step) ->
  hist_ok m ->
  hist_ok (for_upto n i body m) /\
  totalCount (for_upto n i body m) <= totalCount m + Z.of_nat n * step.
Proof.
  intros Hbody. revert i m. induction n as [|n IH]; intros i m Hm.
  - simpl. split; [assumption | lia].
  - cbn [for_upto]. destruct (Hbody i m Hm) as [Hok Hle].
    destruct (IH (i + 1) (body i m) Hok) as [Hok' Hle'].
    split; [assumption | lia].
Qed.

Lemma countPixelsByColor_ok (imageData : ImageData) (s : GridSection) :
  startX s <= endX s -> startY s <= endY s ->
  let hist := countPixelsByColor imageData (startX s) (startY s) (endX s) (endY s) in
  hist_ok hist /\ totalCount hist <= sectionArea s.
Proof.
  intros HX HY hist. unfold hist, countPixelsByColor, for_range.
  assert (Hnil : hist_ok []) by (split; constructor).
  destruct (for_upto_count_bound
              (fun y cc => for_upto (Z.to_nat (endX s - startX s)) (startX s)
                             (fun x cc => countPixel imageData x y cc) cc)
              (endX s - startX s) (Z.to_nat (endY s - startY s)) (startY s) [])
    as [Hok Hle].
  - intros y t Ht.
    destruct (for_upto_count_bound (fun x cc => countPixel imageData x y cc) 1
                (Z.to_nat (endX s - startX s)) (startX s) t) as [Hok Hle].
    + intros x t' Ht'. now apply countPixel_ok.
    + assumption.
    + split; [assumption | lia].
  - assumption.
  - split; [assumption|].
    unfold sectionArea, sectionWidth, sectionHeight.
    change (totalCount []) with 0 in Hle. nia.
Qed.

(** ** The global weight map *)

Local Open Scope R_scope.

Lemma localPercentage_0 (T : Z) : localPercentage 0 T = 0.
Proof. unfold localPercentage. unfold Rdiv. ring. Qed.

Lemma weightOf_addWeighted (k : string) (T : Z) (aw : R) (m : JSMap ColorWeight)
    (k' : string) (e : ColorCount) :
  weightOf k (addWeighted T aw m (k', e)) =
  weightOf k m + (if String.eqb k k' then localPercentage (count e) T * aw else 0).
Proof.
  unfold addWeighted, weightOf.
  destruct (String.eqb_spec k k') as [->|Hne].
  - destruct (map_get k' m) as [w|]; rewrite map_get_set_eq; simpl; lra.
  - destruct (map_get k' m) as [w|]; rewrite map_get_set_neq by assumption; lra.
Qed.

Lemma addWeighted_NoDup (T : Z) (aw : R) (m : JSMap ColorWeight) (entry : string * ColorCount) :
  NoDup (map fst m) -> NoDup (map fst (addWeighted T aw m entry)).
Proof.
  destruct entry as [k' e]. unfold addWeighted.
  destruct (map_get k' m); apply map_set_NoDup.
Qed.

Lemma weightOf_fold_addWeighted (k : string) (T : Z) (aw : R)
    (hist : JSMap ColorCount) (m : JSMap ColorWeight) :
  NoDup (map fst hist) ->
  weightOf k (fold_left (addWeighted T aw) hist m) =
  weightOf k m + localPercentage (countOf k hist) T * aw.
Proof.
  revert m. induction hist as [|[k' e] hist IH]; intros m Hnd.
  - simpl. unfold countOf. simpl. rewrite localPercentage_0. lra.
  - inversion Hnd as [|? ? Hnotin Hnd']; subst.
    cbn [fold_left]. rewrite IH by assumption.
    rewrite weightOf_addWeighted. unfold countOf. simpl map_get.
    destruct (String.eqb_spec k k') as [->|Hne].
    + rewrite (map_get_None_keys k' hist Hnotin), localPercentage_0. lra.
    + lra.
Qed.

Lemma fold_addWeighted_NoDup (T : Z) (aw : R) (hist : JSMap ColorCount)
    (m : JSMap ColorWeight) :
  NoDup (map fst m) -> NoDup (map fst (fold_left (addWeighted T aw) hist m)).
Proof.
  revert m. induction hist as [|entry hist IH]; intros m Hnd; simpl; auto.
  apply IH. now apply addWeighted_NoDup.
Qed.

Lemma sectionHistogram_NoDup (imageData : ImageData) (s : GridSection) :
  NoDup (map fst (sectionHistogram imageData s)).
Proof.
  unfold sectionHistogram, countPixelsByColor, for_range.
  apply (for_upto_invariant (fun m : JSMap ColorCount => NoDup (map fst m))).
  - intros y t Ht.
    apply (for_upto_invariant (fun m : JSMap ColorCount => NoDup (map fst m))); auto.
    intros x t' Ht'. unfold countPixel.
    destruct (_ <? 128)%Z; auto.
    destruct (map_get _ t'); now apply map_set_NoDup.
  - constructor.
Qed.

Lemma weightOf_accumulateSection (imageData : ImageData) (S : Z) (k : string)
    (m : JSMap ColorWeight) (s : GridSection) :
  weightOf k (accumulateSection imageData S m s) =
  weightOf k m + sectionWeight imageData S k s.
Proof.
  unfold accumulateSection, sectionWeight.
  rewrite weightOf_fold_addWeighted by apply sectionHistogram_NoDup.
  reflexivity.
Qed.

Lemma weightOf_fold_sections (imageData : ImageData) (S : Z) (k : string)
    (sections : list GridSection) (m : JSMap ColorWeight) :
  weightOf k (fold_left (accumulateSection imageData S) sections m) =
  weightOf k m + sumR (map (sectionWeight imageData S k) sections).
Proof.
  revert m. induction sections as [|s sections IH]; intros m; simpl.
  - lra.
  - rewrite IH, weightOf_accumulateSection. lra.
Qed.

Lemma aggregateWeights_NoDup (imageData : ImageData) (S : Z) :
  NoDup (map fst (aggregateWeights imageData S)).
Proof.
  unfold aggregateWeights.
  generalize (calculateGridSections (width imageData) (height imageData) S).
  assert (Hnil : NoDup (map fst (@nil (string * ColorWeight)))) by constructor.
  revert Hnil. generalize (@nil (string * ColorWeight)).
  intros m Hm l. revert m Hm.
  induction l as [|s l IH]; intros m Hm; simpl; auto.
  apply IH. unfold accumulateSection. now apply fold_addWeighted_NoDup.
Qed.

Local Close Scope R_scope.

(** ** C1: the denominator of the local percentage *)









(** ** The areas of the sections add up to the image area *)

Lemma totalArea_app (l1 l2 : list GridSection) :
  totalArea (l1 ++ l2) = totalArea l1 + totalArea l2.
Proof.
  unfold totalArea, sumZ. induction l1 as [|s l1 IH]; simpl; [reflexivity|].
  rewrite IH. lia.
Qed.

Lemma totalArea_cons (s : GridSection) (l : list GridSection) :
  totalArea (s :: l) = sectionArea s + totalArea l.
Proof. reflexivity. Qed.

Lemma totalArea_cells (S row : Z) (n : nat) (i : Z) :
  totalArea (map (cell S row) (zseq i n)) = Z.of_nat n * (S * S).
Proof.
  revert i. induction n as [|n IH]; intros i.
  - reflexivity.
  - cbn [zseq map]. rewrite totalArea_cons, IH.
    unfold sectionArea, sectionWidth, sectionHeight, cell; cbn [startX startY endX endY].
    lia.
Qed.

Lemma totalArea_bottomEdges (H S : Z) (n : nat) (i : Z) :
  totalArea (map (bottomEdge H S) (zseq i n)) = Z.of_nat n * (S * (H - (H / S) * S)).
Proof.
  revert i. induction n as [|n IH]; intros i.
  - reflexivity.
  - cbn [zseq map]. rewrite totalArea_cons, IH.
    unfold sectionArea, sectionWidth, sectionHeight, bottomEdge;
      cbn [startX startY endX endY].
    lia.
Qed.

Lemma totalArea_fullRow (W S row : Z) :
  1 <= W -> 1 <= S -> totalArea (fullRow W S row) = W * S.
Proof.
  intros HW HS. destruct (side_split W S HW HS) as (EW & HR & HQ).
  unfold fullRow. rewrite totalArea_app, totalArea_cells, Z2Nat.id by assumption.
  destruct (Z.rem W S >? 0) eqn:E.
  - rewrite totalArea_cons.
    unfold sectionArea, sectionWidth, sectionHeight, rightEdge;
      cbn [startX startY endX endY].
    change (totalArea []) with 0. nia.
  - change (totalArea []) with 0. zbool; try discriminate. nia.
Qed.

Lemma totalArea_fullRows (W S : Z) (n : nat) (i : Z) :
  1 <= W -> 1 <= S ->
  totalArea (flat_map (fullRow W S) (zseq i n)) = Z.of_nat n * (W * S).
Proof.
  intros HW HS. revert i. induction n as [|n IH]; intros i.
  - reflexivity.
  - cbn [zseq flat_map]. rewrite totalArea_app, totalArea_fullRow, IH by assumption.
    lia.
Qed.

Lemma totalArea_grid (W H S : Z) :
  1 <= W -> 1 <= H -> 1 <= S ->
  totalArea (calculateGridSections W H S) = W * H.
Proof.
  intros HW HH HS.
  destruct (side_split W S HW HS) as (EW & HRW & HQW).
  destruct (side_split H S HH HS) as (EH & HRH & HQH).
  rewrite calculateGridSections_rows, totalArea_app, totalArea_fullRows by assumption.
  rewrite Z2Nat.id by assumption.
  unfold bottomRow. destruct (Z.rem H S >? 0) eqn:EH0.
  - rewrite totalArea_app, totalArea_bottomEdges, Z2Nat.id by assumption.
    destruct (Z.rem W S >? 0) eqn:EW0.
    + rewrite totalArea_cons.
      unfold sectionArea, sectionWidth, sectionHeight, corner;
        cbn [startX startY endX endY].
      change (totalArea []) with 0. nia.
    + change (totalArea []) with 0. zbool; try discriminate. nia.
  - change (totalArea []) with 0. zbool; try discriminate. nia.
Qed.

(** ** C10: images much smaller than one cell *)

Local Open Scope R_scope.

Lemma sectionWeight_bound (imageData : ImageData) (S : Z) (k : string) (s : GridSection)
    (W H : Z) :
  (1 <= S)%Z -> section_in_image W H s ->
  sectionWeight imageData S k s <= 100 * IZR (sectionArea s) / IZR (S * S).
Proof.
  intros HS (Hx0 & Hx & Hx1 & Hy0 & Hy & Hy1).
  destruct (countPixelsByColor_ok imageData s ltac:(lia) ltac:(lia)) as [[_ Hall] Hle].
  fold (sectionHistogram imageData s) in Hall, Hle.
  pose proof (countOf_le_total k _ Hall) as [Hc0 Hc1].
  assert (Ha : (1 <= sectionArea s)%Z).
  { unfold sectionArea, sectionWidth, sectionHeight. nia. }
  assert (Hca : (countOf k (sectionHistogram imageData s) <= sectionArea s)%Z) by lia.
  unfold sectionWeight, localPercentage.
  set (c := countOf k (sectionHistogram imageData s)) in *.
  set (a := sectionArea s) in *.
  assert (HA : 1 <= IZR a) by (apply IZR_le in Ha; exact Ha).
  assert (HC : IZR c <= IZR a) by (apply IZR_le; exact Hca).
  assert (HC0 : 0 <= IZR c) by (apply IZR_le in Hc0; exact Hc0).
  assert (HQ : 1 <= IZR (S * S)) by (apply (IZR_le 1); nia).
  replace (IZR c / IZR a * 100 * (IZR a / IZR (S * S)))
    with (100 * IZR c / IZR (S * S)) by (field; lra).
  unfold Rdiv. apply Rmult_le_compat_r.
  - left. apply Rinv_0_lt_compat. lra.
  - lra.
Qed.

Lemma sum_sectionWeight_bound (imageData : ImageData) (S : Z) (k : string)
    (sections : list GridSection) (W H : Z) :
  (1 <= S)%Z -> Forall (section_in_image W H) sections ->
  sumR (map (sectionWeight imageData S k) sections)
  <= 100 * IZR (totalArea sections) / IZR (S * S).
Proof.
  intros HS Hall. induction Hall as [|s l Hs Hl IH].
  - simpl. change (totalArea []) with 0%Z. unfold Rdiv. rewrite Rmult_0_r, Rmult_0_l. lra.
  - cbn [map sumR fold_right]. fold (sumR (map (sectionWeight imageData S k) l)).
    rewrite totalArea_cons, plus_IZR.
    pose proof (sectionWeight_bound imageData S k s W H HS Hs) as Hb.
    assert (HQ : 1 <= IZR (S * S)) by (apply (IZR_le 1); nia).
    replace (100 * (IZR (sectionArea s) + IZR (totalArea l)) / IZR (S * S))
      with (100 * IZR (sectionArea s) / IZR (S * S) + 100 * IZR (totalArea l) / IZR (S * S))
      by (field; lra).
    lra.
Qed.

(** The weight of every colour is at most 100 x W x H / S^2. *)
Lemma weightOf_aggregate_bound (imageData : ImageData) (S : Z) (k : string) :
  wf_image imageData -> (1 <= S)%Z ->
  weightOf k (aggregateWeights imageData S)
  <= 100 * IZR (width imageData * height imageData) / IZR (S * S).
Proof.
  intros (HW & HH & _) HS. unfold aggregateWeights.
  rewrite weightOf_fold_sections.
  unfold weightOf at 1. cbn [map_get]. rewrite Rplus_0_l.
  rewrite <- (totalArea_grid (width imageData) (height imageData) S) by assumption.
  apply (sum_sectionWeight_bound _ _ _ _ (width imageData) (height imageData)); auto.
  now apply sections_in_image.
Qed.

Lemma normalizedResults_fold (total : R) (m : JSMap ColorWeight) (acc : list ColorResult) :
  fold_left (fun results (entry : string * ColorWeight) =>
               let '(colorHex, d) := entry in
               if Rge_dec (weightedFrequency d) 0.1 then
                 let normalizedPercentage := weightedFrequency d / total * 100 in
                 results ++ [ {| color := colorHex;
                                 rgb := cw_rgb d;
                                 lab := rgbToLab (cw_rgb d);
                                 frequency := normalizedPercentage;
                                 clusterSize := IZR (Math_round (weightedFrequency d * 10)) |} ]
               else results)
            m acc
  = acc ++ map (toResult total) (filter qualifies m).
Proof.
  revert acc. induction m as [|[k w] m IH]; intros acc.
  - simpl. now rewrite app_nil_r.
  - cbn [fold_left filter]. rewrite IH. unfold qualifies at 2. cbn [snd].
    destruct (Rge_dec (weightedFrequency w) 0.1).
    + cbn [map]. now rewrite <- app_assoc.
    + reflexivity.
Qed.

Lemma normalizedResults_filter (m : JSMap ColorWeight) :
  normalizedResults m = map (toResult (totalWeightedFrequency m)) (filter qualifies m).
Proof.
  unfold normalizedResults. now rewrite normalizedResults_fold.
Qed.

Lemma filter_none {A : Type} (p : A -> bool) (l : list A) :
  Forall (fun x => p x = false) l -> filter p l = [].
Proof.
  induction 1 as [|x l Hx Hl IH]; simpl; [reflexivity|]. now rewrite Hx.
Qed.

Lemma aggregate_entry_weight (imageData : ImageData) (S : Z) (k : string) (w : ColorWeight) :
  In (k, w) (aggregateWeights imageData S) ->
  weightOf k (aggregateWeights imageData S) = weightedFrequency w.
Proof.
  intros Hin. unfold weightOf.
  now rewrite (map_get_In k w _ (aggregateWeights_NoDup imageData S) Hin).
Qed.

Lemma tiny_image_no_candidate (imageData : ImageData) (S : Z) :
  wf_image imageData -> (1 <= S)%Z ->
  (1000 * (width imageData * height imageData) < S * S)%Z ->
  (forall k, weightOf k (aggregateWeights imageData S) < 0.1) /\
  normalizedResults (aggregateWeights imageData S) = [].
Proof.
  intros Hwf HS Hsmall.
  assert (Hw : forall k, weightOf k (aggregateWeights imageData S) < 0.1).
  { intros k.
    pose proof (weightOf_aggregate_bound imageData S k Hwf HS) as Hb.
    apply IZR_lt in Hsmall. rewrite mult_IZR in Hsmall.
    assert (HQ : 1 <= IZR (S * S)) by (apply (IZR_le 1); nia).
    eapply Rle_lt_trans; [exact Hb|].
    apply (Rmult_lt_reg_r (IZR (S * S))); [lra|].
    unfold Rdiv. rewrite Rmult_assoc, Rinv_l by lra. lra. }
  split; [exact Hw|].
  rewrite normalizedResults_filter.
  rewrite filter_none; [reflexivity|].
  apply Forall_forall. intros [k w] Hin.
  unfold qualifies. cbn [snd].
  pose proof (Hw k) as Hk.
  rewrite (aggregate_entry_weight _ _ _ _ Hin) in Hk.
  destruct (Rge_dec (weightedFrequency w) 0.1); [lra | reflexivity].
Qed.

(** C10.  For every fully opaque image whose area is below S^2 / 1000, the
    accumulated weight of every colour is below the cut-off 0.1, no colour
    passes the two normalisation passes, and the extraction returns the empty
    list. *)
Theorem tiny_image_extracts_nothing (imageData : ImageData) (S maxColors : Z) :
  wf_image imageData -> fullyOpaque imageData -> (1 <= S)%Z ->
  (1000 * (width imageData * height imageData) < S * S)%Z ->
  (forall k, weightOf k (aggregateWeights imageData S) < 0.1) /\
  extractColorsWeightedGrid imageData maxColors S = [] /\
  extractColors true (Fulfilled imageData) maxColors S = Fulfilled [].
Proof.
  intros Hwf _ HS Hsmall.
  destruct (tiny_image_no_candidate imageData S Hwf HS Hsmall) as [Hw Hnone].
  assert (E : extractColorsWeightedGrid imageData maxColors S = []).
  { unfold extractColorsWeightedGrid. rewrite Hnone.
    cbn [sortByFrequencyDesc fold_right]. rewrite merge_nil.
    apply selectDiverseColors_nil. }
  split; [exact Hw|]. split; [exact E|].
  unfold extractColors. simpl negb. cbv iota. now rewrite E.
Qed.

Lemma solid6x6_wf : wf_image solid6x6.
Proof.
  unfold wf_image, solid6x6; cbn [data width height].
  split; [lia|]. split; [lia|]. split; [reflexivity|].
  apply Forall_forall. intros v Hv.
  apply in_concat in Hv. destruct Hv as (px & Hpx & Hv).
  apply repeat_spec in Hpx. subst px.
  simpl in Hv. intuition lia.
Qed.

Lemma solid6x6_opaque : fullyOpaque solid6x6.
Proof.
  intros x y Hx Hy. cbn [width height solid6x6] in *.
  assert (Hcases : In (x, y) (list_prod (zseq 0 6) (zseq 0 6))).
  { apply in_prod; apply in_zseq; lia. }
  vm_compute in Hcases.
  repeat (destruct Hcases as [E|Hcases];
          [injection E as <- <-; vm_compute; discriminate|]).
  contradiction.
Qed.

Lemma tiny_image_extracts_nothing_witness :
  extractColors true (Fulfilled solid6x6) 5 200 = Fulfilled [].
Proof.
  apply (tiny_image_extracts_nothing solid6x6 200 5).
  - exact solid6x6_wf.
  - exact solid6x6_opaque.
  - lia.
  - vm_compute. reflexivity.
Defined.

Local Close Scope R_scope.

(** ** Sums of frequencies *)

Local Open Scope R_scope.

Lemma sumR_cons (x : R) (l : list R) : sumR (x :: l) = x + sumR l.
Proof. reflexivity. Qed.

Lemma sumR_ext {A : Type} (f g : A -> R) (l : list A) :
  (forall x, In x l -> f x = g x) -> sumR (map f l) = sumR (map g l).
Proof.
  induction l as [|x l IH]; intros H; [reflexivity|].
  cbn [map]. rewrite !sumR_cons, IH, (H x); auto using in_eq, in_cons.
Qed.

Lemma sumR_plus {A : Type} (f g : A -> R) (l : list A) :
  sumR (map f l) + sumR (map g l) = sumR (map (fun x => f x + g x) l).
Proof.
  induction l as [|x l IH]; cbn [map]; rewrite ?sumR_cons.
  - unfold sumR. simpl. lra.
  - rewrite <- IH. lra.
Qed.

Lemma sumR_nonneg {A : Type} (f : A -> R) (l : list A) :
  (forall x, In x l -> 0 <= f x) -> 0 <= sumR (map f l).
Proof.
  induction l as [|x l IH]; intros H; cbn [map]; rewrite ?sumR_cons.
  - unfold sumR. simpl. lra.
  - specialize (IH (fun y Hy => H y (in_cons _ _ _ Hy))).
    specialize (H x (in_eq _ _)). lra.
Qed.

Lemma freqAt_nonneg (colors : list ColorResult) (j : nat) :
  nonnegFrequencies colors -> 0 <= freqAt colors j.
Proof.
  intros Hnn. unfold freqAt. destruct (nth_error colors j) as [c|] eqn:E; [|lra].
  apply nth_error_In in E. unfold nonnegFrequencies in Hnn.
  rewrite Forall_forall in Hnn. now apply Hnn.
Qed.

Lemma pending_nonneg (colors : list ColorResult) (used : list nat) (js : list nat) :
  nonnegFrequencies colors -> 0 <= pending colors used js.
Proof.
  intros Hnn. unfold pending. apply sumR_nonneg. intros j _.
  destruct (used_has j used); [lra | now apply freqAt_nonneg].
Qed.

Lemma pending_cons (colors : list ColorResult) (used : list nat) (j : nat) (js : list nat) :
  pending colors used (j :: js) =
  (if used_has j used then 0 else freqAt colors j) + pending colors used js.
Proof. reflexivity. Qed.

Lemma pending_all (colors : list ColorResult) :
  pending colors [] (seq 0 (length colors)) = sumFrequency colors.
Proof.
  unfold pending. cbn [used_has existsb].
  induction colors as [|c colors IH].
  - reflexivity.
  - cbn [length seq map]. rewrite sumR_cons, sumFrequency_cons, <- IH.
    rewrite <- seq_shift, map_map. reflexivity.
Qed.

Lemma insertByFrequency_sum (x : ColorResult) (l : list ColorResult) :
  sumFrequency (insertByFrequency x l) = frequency x + sumFrequency l.
Proof.
  induction l as [|y l IH]; cbn [insertByFrequency].
  - reflexivity.
  - destruct (Rlt_dec (frequency x) (frequency y)).
    + rewrite !sumFrequency_cons, IH. lra.
    + now rewrite sumFrequency_cons.
Qed.

Lemma sortByFrequencyDesc_sum (l : list ColorResult) :
  sumFrequency (sortByFrequencyDesc l) = sumFrequency l.
Proof.
  induction l as [|x l IH]; [reflexivity|].
  cbn [sortByFrequencyDesc fold_right]. fold (sortByFrequencyDesc l).
  now rewrite insertByFrequency_sum, IH, sumFrequency_cons.
Qed.

Lemma subseq_sum (l1 l2 : list ColorResult) :
  subseq l1 l2 -> nonnegFrequencies l2 -> sumFrequency l1 <= sumFrequency l2.
Proof.
  induction 1 as [|x l1 l2 H IH|x l1 l2 H IH]; intros Hnn.
  - lra.
  - inversion Hnn; subst. rewrite sumFrequency_cons. specialize (IH ltac:(assumption)). lra.
  - inversion Hnn; subst. rewrite !sumFrequency_cons. specialize (IH ltac:(assumption)). lra.
Qed.

Lemma filter_qualifies (m : JSMap ColorWeight) :
  Forall (fun entry => qualifies entry = true) (filter qualifies m).
Proof.
  apply Forall_forall. intros e He. now apply filter_In in He.
Qed.

Lemma map_get_Some_In {V : Type} (k : string) (v : V) (m : JSMap V) :
  map_get k m = Some v -> In (k, v) m.
Proof.
  induction m as [|[k' v'] m IH]; simpl; [discriminate|].
  destruct (String.eqb_spec k k') as [->|Hne].
  - intros E. injection E as ->. now left.
  - intros E. right. auto.
Qed.

Local Close Scope R_scope.

(** ** A run of the whole pipeline *)

Local Open Scope R_scope.

Lemma onePixel_weights :
  aggregateWeights onePixel 1 =
  [ ("#ff0000"%string,
     {| cw_rgb := mkRGB 255 0 0;
        weightedFrequency := localPercentage 1 1 * (IZR 1 / IZR 1) |}) ].
Proof.
  unfold aggregateWeights. cbn [width height onePixel].
  change (calculateGridSections 1 1 1)
    with [ {| startX := 0; startY := 0; endX := 1; endY := 1 |} ]%Z.
  fold onePixel. cbn [fold_left]. unfold accumulateSection.
  cbn [startX startY endX endY].
  change (countPixelsByColor onePixel 0 0 1 1)
    with [ ("#ff0000"%string, {| cc_rgb := mkRGB 255 0 0; count := 1 |}) ].
  reflexivity.
Qed.

(** A single opaque red pixel with cell size 1 is extracted as one colour of
    frequency 100. *)
Example onePixel_extraction :
  exists c,
    extractColorsWeightedGrid onePixel 5 1 = [c] /\
    color c = "#ff0000"%string /\ rgb c = mkRGB 255 0 0 /\ frequency c = 100.
Proof.
  assert (Hw : localPercentage 1 1 * (IZR 1 / IZR 1) = 100)
    by (unfold localPercentage; lra).
  unfold extractColorsWeightedGrid. rewrite onePixel_weights.
  unfold normalizedResults, totalWeightedFrequency.
  cbn [fold_left snd weightedFrequency]. rewrite !Hw.
  destruct (Rge_dec 100 0.1) as [_|Hn]; [|exfalso; lra].
  cbn [app sortByFrequencyDesc fold_right insertByFrequency].
  unfold mergeSimilarColorsConservative. cbn [length].
  change (Z.of_nat 1 <=? 5 * 3)%Z with true. cbv iota.
  match goal with |- context [selectDiverseColors [?e] _] => set (c := e) end.
  assert (Hsig : isSignificant c = true).
  { unfold isSignificant, MIN_FREQUENCY_THRESHOLD, c. cbn [frequency].
    destruct (Rge_dec _ 0.5) as [_|Hn]; [reflexivity | exfalso; lra]. }
  unfold selectDiverseColors. cbn [filter]. rewrite Hsig.
  cbn [length]. change (Z.of_nat 1 <=? 5)%Z with true. cbv iota.
  exists c. split; [reflexivity|]. unfold c. cbn [color rgb frequency cw_rgb].
  repeat split. lra.
Qed.

Lemma twoTone_histogram :
  countPixelsByColor twoTone 0 0 20 10 =
  [ ("#0000ff"%string, {| cc_rgb := mkRGB 0 0 255; count := 80 |});
    ("#ff0000"%string, {| cc_rgb := mkRGB 255 0 0; count := 120 |}) ].
Proof. vm_compute. reflexivity. Qed.

Lemma twoTone_weights :
  aggregateWeights twoTone 200 =
  [ ("#0000ff"%string,
     {| cw_rgb := mkRGB 0 0 255;
        weightedFrequency := localPercentage 80 200 * (IZR 200 / IZR 40000) |});
    ("#ff0000"%string,
     {| cw_rgb := mkRGB 255 0 0;
        weightedFrequency := localPercentage 120 200 * (IZR 200 / IZR 40000) |}) ].
Proof.
  unfold aggregateWeights. cbn [width height twoTone].
  change (calculateGridSections 20 10 200)
    with [ {| startX := 0; startY := 0; endX := 20; endY := 10 |} ]%Z.
  fold twoTone. cbn [fold_left]. unfold accumulateSection.
  cbn [startX startY endX endY]. rewrite twoTone_histogram.
  reflexivity.
Qed.

(** With the default cell size the image is one section; blue is counted
    first and red comes out first: 60 against 40. *)
Lemma twoTone_extraction :
  exists c1 c2,
    extractColorsWeightedGrid twoTone 5 200 = [c1; c2] /\
    sortByFrequencyDesc [c1; c2] = [c1; c2] /\
    color c1 = "#ff0000"%string /\ frequency c1 = 60 /\
    color c2 = "#0000ff"%string /\ frequency c2 = 40.
Proof.
  assert (Hb : localPercentage 80 200 * (IZR 200 / IZR 40000) = 0.2)
    by (unfold localPercentage; lra).
  assert (Hr : localPercentage 120 200 * (IZR 200 / IZR 40000) = 0.3)
    by (unfold localPercentage; lra).
  unfold extractColorsWeightedGrid. rewrite twoTone_weights.
  unfold normalizedResults, totalWeightedFrequency.
  cbn [fold_left snd weightedFrequency]. rewrite !Hb, !Hr.
  destruct (Rge_dec 0.2 0.1) as [_|Hn]; [|exfalso; lra].
  destruct (Rge_dec 0.3 0.1) as [_|Hn]; [|exfalso; lra].
  cbn [app cw_rgb].
  match goal with
  | |- context [sortByFrequencyDesc [?x; ?y]] => set (c2 := x); set (c1 := y)
  end.
  assert (F1 : frequency c1 = 60) by (unfold c1; cbn [frequency]; lra).
  assert (F2 : frequency c2 = 40) by (unfold c2; cbn [frequency]; lra).
  assert (Hs : sortByFrequencyDesc [c2; c1] = [c1; c2]).
  { cbn [sortByFrequencyDesc fold_right insertByFrequency].
    destruct (Rlt_dec (frequency c2) (frequency c1)) as [_|Hn]; [reflexivity|].
    exfalso. lra. }
  assert (Hs' : sortByFrequencyDesc [c1; c2] = [c1; c2]).
  { cbn [sortByFrequencyDesc fold_right insertByFrequency].
    destruct (Rlt_dec (frequency c1) (frequency c2)) as [Hn|_]; [|reflexivity].
    exfalso. lra. }
  rewrite Hs. unfold mergeSimilarColorsConservative. cbn [length].
  change (Z.of_nat 2 <=? 5 * 3)%Z with true. cbv iota.
  assert (S1 : isSignificant c1 = true).
  { unfold isSignificant, MIN_FREQUENCY_THRESHOLD. rewrite F1.
    destruct (Rge_dec _ 0.5) as [_|Hn]; [reflexivity | exfalso; lra]. }
  assert (S2 : isSignificant c2 = true).
  { unfold isSignificant, MIN_FREQUENCY_THRESHOLD. rewrite F2.
    destruct (Rge_dec _ 0.5) as [_|Hn]; [reflexivity | exfalso; lra]. }
  unfold selectDiverseColors. cbn [filter]. rewrite S1, S2.
  cbn [length]. change (Z.of_nat 2 <=? 5)%Z with true. cbv iota.
  exists c1, c2. repeat split; assumption || reflexivity.
Qed.

Local Close Scope R_scope.

(** * Further properties of the code *)

(** ** The grid partitioner *)

(** X1.  For every width, height and cell size of at least 1 the areas of
    the sections of [calculateGridSections] add up to the area of the
    image. *)
Theorem grid_sections_area (W H S : Z) :
  1 <= W -> 1 <= H -> 1 <= S ->
  totalArea (calculateGridSections W H S) = W * H.
Proof. intros HW HH HS. now apply totalArea_grid. Qed.

Lemma grid_sections_area_witness :
  totalArea (calculateGridSections 450 330 200) = 450 * 330.
Proof. apply (grid_sections_area 450 330 200); lia. Defined.

Lemma ceilDiv_split (W S : Z) :
  1 <= W -> 1 <= S ->
  ceilDiv W S = W / S + (if Z.rem W S >? 0 then 1 else 0).
Proof.
  intros HW HS. destruct (side_split W S HW HS) as (EW & HR & HQ).
  unfold ceilDiv.
  destruct (Z.gtb_spec (Z.rem W S) 0) as [Hpos|Hzero].
  - symmetry. apply (Z.div_unique _ _ _ (Z.rem W S - 1)); lia.
  - symmetry. apply (Z.div_unique _ _ _ (S - 1)); lia.
Qed.

Lemma length_fullRow (W S row : Z) :
  1 <= W -> 1 <= S -> Z.of_nat (length (fullRow W S row)) = ceilDiv W S.
Proof.
  intros HW HS. destruct (side_split W S HW HS) as (EW & HR & HQ).
  rewrite ceilDiv_split by assumption. unfold fullRow.
  rewrite length_app, length_map.
  assert (Hz : forall i n, length (zseq i n) = n).
  { intros i n. revert i. induction n as [|n IH]; intros i; simpl; auto. }
  rewrite Hz. destruct (Z.rem W S >? 0); simpl length; lia.
Qed.

Lemma length_fullRows (W S : Z) (n : nat) (i : Z) :
  1 <= W -> 1 <= S ->
  Z.of_nat (length (flat_map (fullRow W S) (zseq i n))) = Z.of_nat n * ceilDiv W S.
Proof.
  intros HW HS. revert i. induction n as [|n IH]; intros i.
  - reflexivity.
  - cbn [zseq flat_map]. rewrite length_app, Nat2Z.inj_add, IH, length_fullRow by assumption.
    lia.
Qed.

(** X2.  For every width, height and cell size of at least 1,
    [calculateGridSections] produces [ceil (W / S) * ceil (H / S)]
    sections. *)
Theorem grid_sections_count (W H S : Z) :
  1 <= W -> 1 <= H -> 1 <= S ->
  Z.of_nat (length (calculateGridSections W H S)) = ceilDiv W S * ceilDiv H S.
Proof.
  intros HW HH HS.
  destruct (side_split W S HW HS) as (EW & HRW & HQW).
  destruct (side_split H S HH HS) as (EH & HRH & HQH).
  rewrite calculateGridSections_rows, length_app, Nat2Z.inj_add.
  rewrite length_fullRows, Z2Nat.id by assumption.
  rewrite (ceilDiv_split H S), (ceilDiv_split W S) by assumption.
  unfold bottomRow.
  assert (Hz : forall i n, length (zseq i n) = n).
  { intros i n. revert i. induction n as [|n IH]; intros i; simpl; auto. }
  destruct (Z.rem H S >? 0).
  - rewrite length_app, length_map, Hz.
    destruct (Z.rem W S >? 0); simpl length; lia.
  - simpl length. lia.
Qed.

Lemma grid_sections_count_witness :
  Z.of_nat (length (calculateGridSections 450 330 200)) = ceilDiv 450 200 * ceilDiv 330 200.
Proof. apply (grid_sections_count 450 330 200); lia. Defined.

(** X3.  For every width, height and cell size of at least 1, no section is
    larger than the standard cell: its width and its height lie between 1
    and the cell size, so its area is at most the standard area. *)
Theorem grid_sections_within_cell (W H S : Z) :
  1 <= W -> 1 <= H -> 1 <= S ->
  Forall (fun s => 1 <= sectionWidth s <= S /\ 1 <= sectionHeight s <= S /\
                   sectionArea s <= S * S)
         (calculateGridSections W H S).
Proof.
  intros HW HH HS.
  destruct (side_split W S HW HS) as (EW & HRW & HQW).
  destruct (side_split H S HH HS) as (EH & HRH & HQH).
  assert (Hgoal : forall s, (1 <= sectionWidth s <= S /\ 1 <= sectionHeight s <= S) ->
            1 <= sectionWidth s <= S /\ 1 <= sectionHeight s <= S /\ sectionArea s <= S * S).
  { intros s [Hw Hh]. unfold sectionArea. repeat split; try lia. nia. }
  rewrite calculateGridSections_rows.
  apply Forall_forall. intros s Hs. apply Hgoal.
  unfold sectionWidth, sectionHeight.
  apply in_app_or in Hs. destruct Hs as [Hs|Hs].
  - apply in_flat_map in Hs. destruct Hs as (row & Hrow & Hs).
    unfold fullRow in Hs. apply in_app_or in Hs. destruct Hs as [Hs|Hs].
    + apply in_map_iff in Hs. destruct Hs as (col & <- & Hcol).
      unfold cell; cbn [startX startY endX endY]. lia.
    + destruct (Z.rem W S >? 0) eqn:E; [|contradiction].
      destruct Hs as [<-|[]].
      unfold rightEdge; cbn [startX startY endX endY].
      zbool; try discriminate; lia.
  - unfold bottomRow in Hs. destruct (Z.rem H S >? 0) eqn:EH0; [|contradiction].
    apply in_app_or in Hs. destruct Hs as [Hs|Hs].
    + apply in_map_iff in Hs. destruct Hs as (col & <- & Hcol).
      unfold bottomEdge; cbn [startX startY endX endY].
      zbool; try discriminate; lia.
    + destruct (Z.rem W S >? 0) eqn:E; [|contradiction].
      destruct Hs as [<-|[]].
      unfold corner; cbn [startX startY endX endY].
      zbool; try discriminate; lia.
Qed.

Lemma grid_sections_within_cell_witness :
  Forall (fun s => 1 <= sectionWidth s <= 200 /\ 1 <= sectionHeight s <= 200 /\
                   sectionArea s <= 200 * 200)
         (calculateGridSections 450 330 200).
Proof. apply (grid_sections_within_cell 450 330 200); lia. Defined.

(** ** The cell histogram *)

Lemma countPixel_total (imageData : ImageData) (x y : Z) (m : JSMap ColorCount) :
  totalCount (countPixel imageData x y m) =
  totalCount m
  + (if data_at imageData ((y * width imageData + x) * 4 + 3) <? 128 then 0 else 1).
Proof.
  unfold countPixel.
  destruct (data_at imageData ((y * width imageData + x) * 4 + 3) <? 128); [lia|].
  set (colorHex := rgbToHex _).
  destruct (map_get colorHex m) as [e|] eqn:E;
    rewrite totalCount_set; unfold countOf; rewrite E; simpl; lia.
Qed.

(** Two loops over the same range, one on a histogram and one on a counter,
    whose bodies together add [d] per iteration. *)
Lemma for_upto_lockstep (f : Z -> JSMap ColorCount -> JSMap ColorCount)
    (g : Z -> Z -> Z) (d : Z) (n : nat) (i : Z) (m : JSMap ColorCount) (t : Z) :
  (forall k a b, totalCount (f k a) + g k b = totalCount a + b + d) ->
  totalCount (for_upto n i f m) + for_upto n i g t = totalCount m + t + Z.of_nat n * d.
Proof.
  intros Hstep. revert i m t. induction n as [|n IH]; intros i m t.
  - simpl. lia.
  - cbn [for_upto]. rewrite IH, Hstep. lia.
Qed.

(** X4.  The counts of the histogram of a section add up to the number of
    its pixels that pass the alpha test: the area of the section minus the
    transparent pixels. *)
Theorem histogram_counts_opaque_pixels (imageData : ImageData) (s : GridSection) :
  startX s <= endX s -> startY s <= endY s ->
  totalCount (sectionHistogram imageData s) =
  sectionArea s - transparentPixels imageData s.
Proof.
  intros HX HY.
  unfold sectionHistogram, countPixelsByColor, transparentPixels, for_range.
  pose proof (for_upto_lockstep
                (fun y cc => for_upto (Z.to_nat (endX s - startX s)) (startX s)
                               (fun x cc => countPixel imageData x y cc) cc)
                (fun y n => for_upto (Z.to_nat (endX s - startX s)) (startX s)
                               (fun x n =>
                                  if data_at imageData ((y * width imageData + x) * 4 + 3)
                                     <? 128 then n + 1 else n) n)
                (endX s - startX s) (Z.to_nat (endY s - startY s)) (startY s) [] 0) as H.
  change (totalCount []) with 0 in H.
  unfold sectionArea, sectionWidth, sectionHeight.
  rewrite Z2Nat.id in H by lia.
  enough (E : forall y a b,
            totalCount (for_upto (Z.to_nat (endX s - startX s)) (startX s)
                          (fun x cc => countPixel imageData x y cc) a)
            + for_upto (Z.to_nat (endX s - startX s)) (startX s)
                (fun x n => if data_at imageData ((y * width imageData + x) * 4 + 3) <? 128
                            then n + 1 else n) b
            = totalCount a + b + (endX s - startX s)).
  { specialize (H E). lia. }
  intros y a b.
  rewrite (for_upto_lockstep (fun x cc => countPixel imageData x y cc)
             (fun x n => if data_at imageData ((y * width imageData + x) * 4 + 3) <? 128
                         then n + 1 else n) 1).
  - rewrite Z2Nat.id by lia. lia.
  - intros x a' b'. rewrite countPixel_total.
    destruct (data_at imageData ((y * width imageData + x) * 4 + 3) <? 128); lia.
Qed.

Lemma histogram_counts_opaque_pixels_witness :
  totalCount (sectionHistogram halfTransparent
                {| startX := 0; startY := 0; endX := 2; endY := 1 |}) =
  sectionArea {| startX := 0; startY := 0; endX := 2; endY := 1 |}
  - transparentPixels halfTransparent {| startX := 0; startY := 0; endX := 2; endY := 1 |}.
Proof.
  apply (histogram_counts_opaque_pixels halfTransparent
           {| startX := 0; startY := 0; endX := 2; endY := 1 |}); simpl; lia.
Defined.

Lemma map_set_Forall_key {V : Type} (P : string * V -> Prop) (k : string) (v : V)
    (m : JSMap V) :
  P (k, v) -> Forall P m -> Forall P (map_set k v m).
Proof.
  intros Hv. induction m as [|[k' v'] m IH]; simpl; intros Hall.
  - constructor; auto.
  - inversion Hall; subst.
    destruct (String.eqb_spec k k') as [->|Hne]; constructor; auto.
Qed.

Lemma map_get_Forall {V : Type} (P : string * V -> Prop) (k : string) (v : V)
    (m : JSMap V) :
  Forall P m -> map_get k m = Some v -> P (k, v).
Proof.
  intros Hall Hget. apply map_get_Some_In in Hget.
  rewrite Forall_forall in Hall. now apply Hall.
Qed.

(** X5.  In the histogram of any region every colour key occurs once, it is
    the hex code of the colour stored under it, and its count is at least
    1. *)
Theorem histogram_entries (imageData : ImageData) (startX startY endX endY : Z) :
  let hist := countPixelsByColor imageData startX startY endX endY in
  NoDup (map fst hist) /\
  Forall (fun entry => fst entry = rgbToHex (cc_rgb (snd entry)) /\ 1 <= count (snd entry))
         hist.
Proof.
  intros hist. split.
  - apply (sectionHistogram_NoDup imageData (mkSection startX startY endX endY)).
  - unfold hist, countPixelsByColor, for_range.
    set (P := fun entry : string * ColorCount =>
                fst entry = rgbToHex (cc_rgb (snd entry)) /\ 1 <= count (snd entry)).
    apply (for_upto_invariant (fun m => Forall P m)); [|constructor].
    intros y t Ht.
    apply (for_upto_invariant (fun m => Forall P m)); [|assumption].
    intros x t' Ht'. unfold countPixel.
    destruct (_ <? 128); [assumption|].
    set (c := {| rgb_r := _; rgb_g := _; rgb_b := _ |}).
    destruct (map_get (rgbToHex c) t') as [e|] eqn:E.
    + pose proof (map_get_Forall P _ _ _ Ht' E) as [He1 He2]. cbn [fst snd] in He1, He2.
      apply map_set_Forall_key; [|assumption].
      split; cbn [fst snd cc_rgb count]; [assumption | lia].
    + apply map_set_Forall_key; [|assumption].
      split; cbn [fst snd cc_rgb count]; [reflexivity | lia].
Qed.

(** ** [rgbToHex] *)

Lemma hexDigit_lower (d : Z) : isLowerHexDigit (hexDigit d) = true.
Proof.
  unfold hexDigit.
  destruct d as [|p|p]; try reflexivity.
  do 4 (destruct p as [p|p|]; try reflexivity).
Qed.

Lemma hexValue_hexDigit (d : Z) : 0 <= d <= 15 -> hexValue (hexDigit d) = d.
Proof.
  intros Hd.
  assert (H : d = 0 \/ d = 1 \/ d = 2 \/ d = 3 \/ d = 4 \/ d = 5 \/ d = 6 \/ d = 7 \/
              d = 8 \/ d = 9 \/ d = 10 \/ d = 11 \/ d = 12 \/ d = 13 \/ d = 14 \/ d = 15)
    by lia.
  repeat (destruct H as [->|H]; [reflexivity|]). subst d. reflexivity.
Qed.

Lemma byte_digits (n : Z) :
  0 <= n <= 255 -> 0 <= n / 16 <= 15 /\ 0 <= n mod 16 <= 15.
Proof.
  intros Hn.
  pose proof (Z.mod_pos_bound n 16 ltac:(lia)).
  pose proof (Z.div_pos n 16 ltac:(lia) ltac:(lia)).
  pose proof (Z.div_lt_upper_bound n 16 16 ltac:(lia) ltac:(lia)).
  lia.
Qed.

Lemma toHex_injective (n1 n2 : Z) :
  0 <= n1 <= 255 -> 0 <= n2 <= 255 -> toHex n1 = toHex n2 -> n1 = n2.
Proof.
  intros H1 H2 E. unfold toHex in E.
  rewrite !Z.min_r, !Z.max_r in E by lia.
  injection E as Ehi Elo.
  apply (f_equal hexValue) in Ehi, Elo.
  destruct (byte_digits n1 H1) as [Hd1 Hm1], (byte_digits n2 H2) as [Hd2 Hm2].
  rewrite !hexValue_hexDigit in Ehi, Elo by assumption.
  rewrite (Z.div_mod n1 16), (Z.div_mod n2 16) by lia. congruence.
Qed.

(** X6.  The hex code of every colour is [#] followed by six characters of
    [0123456789abcdef]. *)
Theorem rgbToHex_format (c : RGB) :
  exists d1 d2 d3 d4 d5 d6 : ascii,
    rgbToHex c =
      String "#" (String d1 (String d2 (String d3 (String d4 (String d5
        (String d6 EmptyString)))))) /\
    forallb isLowerHexDigit [d1; d2; d3; d4; d5; d6] = true.
Proof.
  unfold rgbToHex, toHex. cbn [append].
  do 6 eexists. split; [reflexivity|].
  cbn [forallb]. now rewrite !hexDigit_lower.
Qed.

(** X7.  On colours whose components are bytes the hex code is injective:
    two different colours never share a key of the histogram. *)
Theorem rgbToHex_injective (c1 c2 : RGB) :
  byteRGB c1 -> byteRGB c2 -> rgbToHex c1 = rgbToHex c2 -> c1 = c2.
Proof.
  intros (Hr1 & Hg1 & Hb1) (Hr2 & Hg2 & Hb2) E.
  destruct c1 as [r1 g1 b1], c2 as [r2 g2 b2]. cbn [rgb_r rgb_g rgb_b] in *.
  unfold rgbToHex in E. cbn [rgb_r rgb_g rgb_b append] in E.
  assert (Er : toHex r1 = toHex r2 /\ toHex g1 = toHex g2 /\ toHex b1 = toHex b2).
  { unfold toHex in *. cbn [append] in E.
    injection E as E1 E2 E3 E4 E5 E6. repeat split; congruence. }
  destruct Er as (Er & Eg & Eb).
  apply toHex_injective in Er, Eg, Eb; try assumption. congruence.
Qed.

Lemma rgbToHex_injective_witness :
  rgbToHex (mkRGB 220 28 37) <> rgbToHex (mkRGB 220 28 38).
Proof.
  intros E.
  apply (rgbToHex_injective (mkRGB 220 28 37) (mkRGB 220 28 38)) in E;
    [discriminate | unfold byteRGB; simpl; lia | unfold byteRGB; simpl; lia].
Defined.

(** ** The CIE94 distance *)

Local Open Scope R_scope.

(** The three squared terms under the outer square root. *)
Lemma labDistanceCIE94_terms (lab1 lab2 : LAB) :
  let dl := lab_l lab1 - lab_l lab2 in
  let da := lab_a lab1 - lab_a lab2 in
  let db := lab_b lab1 - lab_b lab2 in
  let dc := chroma lab1 - chroma lab2 in
  let dh := sqrt (da * da + db * db - dc * dc) in
  let sc := 1 + 0.045 * chroma lab1 in
  let sh := 1 + 0.015 * chroma lab1 in
  labDistanceCIE94 lab1 lab2 = sqrt (dl * dl + (dc / sc) * (dc / sc) + (dh / sh) * (dh / sh))
  /\ 1 <= sc /\ 1 <= sh /\ 0 <= dh /\ dh * dh = da * da + db * db - dc * dc.
Proof.
  intros dl da db dc dh sc sh.
  assert (Hc : 0 <= chroma lab1) by apply sqrt_pos.
  pose proof (hue_radicand_nonneg lab1 lab2) as Hrad. cbv zeta in Hrad.
  fold (chroma lab1) (chroma lab2) in Hrad. fold da db dc in Hrad.
  split; [|split; [|split; [|split]]].
  - unfold labDistanceCIE94. fold (chroma lab1) (chroma lab2). fold dl da db dc dh sc sh.
    f_equal. unfold Rdiv. rewrite Rinv_1, !(Rmult_1_l sc), !(Rmult_1_l sh). ring.
  - unfold sc. lra.
  - unfold sh. lra.
  - apply sqrt_pos.
  - unfold dh. now apply sqrt_sqrt.
Qed.

Lemma square_div_zero (x s : R) : 1 <= s -> (x / s) * (x / s) = 0 -> x = 0.
Proof.
  intros Hs H.
  assert (Hx : x / s = 0) by nra.
  unfold Rdiv in Hx. apply Rmult_integral in Hx. destruct Hx as [Hx|Hx]; [assumption|].
  exfalso. apply (Rinv_neq_0_compat s); [lra | assumption].
Qed.

(** X8.  The distance of two LAB colours is 0 exactly when they are the same
    colour. *)
Theorem labDistanceCIE94_zero_iff (lab1 lab2 : LAB) :
  labDistanceCIE94 lab1 lab2 = 0 <-> lab1 = lab2.
Proof.
  destruct (labDistanceCIE94_terms lab1 lab2) as (E & Hsc & Hsh & Hdh & Hdh2).
  cbv zeta in E, Hsc, Hsh, Hdh, Hdh2.
  set (dl := lab_l lab1 - lab_l lab2) in *.
  set (da := lab_a lab1 - lab_a lab2) in *.
  set (db := lab_b lab1 - lab_b lab2) in *.
  set (dc := chroma lab1 - chroma lab2) in *.
  set (dh := sqrt (da * da + db * db - dc * dc)) in *.
  set (sc := 1 + 0.045 * chroma lab1) in *.
  set (sh := 1 + 0.015 * chroma lab1) in *.
  split.
  - intros H0. rewrite E in H0.
    assert (Hc2 : 0 <= (dc / sc) * (dc / sc)) by nra.
    assert (Hh2 : 0 <= (dh / sh) * (dh / sh)) by nra.
    apply sqrt_eq_0 in H0; [|nra].
    assert (Hl : dl = 0) by nra.
    assert (Hc : dc = 0) by (apply (square_div_zero dc sc); [assumption | nra]).
    assert (Hh : dh = 0) by (apply (square_div_zero dh sh); [assumption | nra]).
    assert (Ha : da = 0) by nra.
    assert (Hb : db = 0) by nra.
    unfold dl in Hl. unfold da in Ha. unfold db in Hb.
    destruct lab1 as [l1 a1 b1], lab2 as [l2 a2 b2]. cbn [lab_l lab_a lab_b] in *.
    f_equal; lra.
  - intros ->. rewrite labDistanceCIE94_same_ab; [ring | reflexivity | reflexivity |].
    right. ring.
Qed.

(** X10.  On two colours of equal chroma the distance does not depend on the
    order of the operands. *)
Theorem labDistanceCIE94_symmetric_equal_chroma (lab1 lab2 : LAB) :
  chroma lab1 = chroma lab2 ->
  labDistanceCIE94 lab1 lab2 = labDistanceCIE94 lab2 lab1.
Proof.
  intros Hc.
  destruct (labDistanceCIE94_terms lab1 lab2) as (E12 & _).
  destruct (labDistanceCIE94_terms lab2 lab1) as (E21 & _).
  cbv zeta in E12, E21. rewrite E12, E21, Hc.
  replace (chroma lab2 - chroma lab2) with 0 by ring.
  replace ((lab_a lab2 - lab_a lab1) * (lab_a lab2 - lab_a lab1)
           + (lab_b lab2 - lab_b lab1) * (lab_b lab2 - lab_b lab1) - 0 * 0)
    with ((lab_a lab1 - lab_a lab2) * (lab_a lab1 - lab_a lab2)
          + (lab_b lab1 - lab_b lab2) * (lab_b lab1 - lab_b lab2) - 0 * 0) by ring.
  f_equal. ring.
Qed.

Lemma labDistanceCIE94_symmetric_equal_chroma_witness :
  labDistanceCIE94 (lab grayA) (lab grayB) = labDistanceCIE94 (lab grayB) (lab grayA).
Proof.
  apply (labDistanceCIE94_symmetric_equal_chroma (lab grayA) (lab grayB)).
  reflexivity.
Defined.

Local Close Scope R_scope.

(** ** The conservative merger *)

Lemma mergeLoop_length_fuel (colors : list ColorResult) (M : Z) (fuel i : nat)
    (merged : list ColorResult) (used : list nat) :
  (length (mergeLoop colors M fuel i merged used) <= length merged + fuel)%nat.
Proof.
  revert i merged used. induction fuel as [|fuel IH]; intros i merged used; cbn [mergeLoop].
  - lia.
  - destruct ((i <? length colors)%nat && (Z.of_nat (length merged) <? M)); [|lia].
    destruct (used_has i used).
    + etransitivity; [apply IH|]. lia.
    + destruct (nth_error colors i); [|lia].
      etransitivity; [apply IH|]. rewrite length_app. simpl. lia.
Qed.

(** X11.  The merger never returns more entries than it was given, and for
    a cap [M >= 0] never more than [M]. *)
Theorem merge_length (colors : list ColorResult) (M : Z) :
  (length (mergeSimilarColorsConservative colors M) <= length colors)%nat /\
  (0 <= M -> Z.of_nat (length (mergeSimilarColorsConservative colors M)) <= M).
Proof.
  unfold mergeSimilarColorsConservative.
  destruct (Z.leb_spec (Z.of_nat (length colors)) M) as [Hle|Hgt].
  - split; [lia | intros _; assumption].
  - split.
    + pose proof (mergeLoop_length_fuel colors M (length colors) 0 [] []) as H.
      simpl in H. exact H.
    + intros HM.
      pose proof (mergeLoop_length colors M (length colors) 0 [] []) as H.
      simpl in H. lia.
Qed.

Lemma merge_length_witness :
  Z.of_nat (length (mergeSimilarColorsConservative [grayA; grayB; redA; redB] 3)) <= 3.
Proof.
  apply (proj2 (merge_length [grayA; grayB; redA; redB] 3)). lia.
Defined.

Local Open Scope R_scope.

Lemma labDistanceCIE94_ge_lightness (lab1 lab2 : LAB) :
  Rabs (lab_l lab1 - lab_l lab2) <= labDistanceCIE94 lab1 lab2.
Proof.
  destruct (labDistanceCIE94_terms lab1 lab2) as (E & Hsc & Hsh & Hdh & Hdh2).
  cbv zeta in E, Hsc, Hsh, Hdh, Hdh2. rewrite E.
  set (dl := lab_l lab1 - lab_l lab2) in *.
  set (x := (chroma lab1 - chroma lab2) / _).
  set (y := sqrt _ / _).
  assert (Hx : 0 <= x * x) by nra.
  assert (Hy : 0 <= y * y) by nra.
  rewrite <- sqrt_Rsqr_abs. unfold Rsqr. apply sqrt_le_1; nra.
Qed.

(** X13.  Whatever the position of the base colour, a later colour that is
    not yet merged and has the LAB coordinates of the base is merged into
    its group, and a later colour whose lightness differs from the base's by
    3 or more is not. *)
Theorem merge_by_lightness (colors : list ColorResult) (i j : nat)
    (baseColor c : ColorResult) (used : list nat) :
  nth_error colors j = Some c -> (i < j)%nat -> used_has j used = false ->
  (lab c = lab baseColor ->
   used_has j (acc_used (mergeGroup colors i baseColor used)) = true) /\
  (3 <= Rabs (lab_l (lab baseColor) - lab_l (lab c)) ->
   used_has j (acc_used (mergeGroup colors i baseColor used)) = false).
Proof.
  intros Hj Hij Hu. rewrite (mergeGroup_absorbs colors i j baseColor c used Hj Hij Hu).
  unfold closeTo.
  assert (Ht : 1.5 <= mergeThreshold baseColor <= 3).
  { unfold mergeThreshold. destruct (isRedColor baseColor); lra. }
  split.
  - intros E. rewrite E.
    assert (H0 : labDistanceCIE94 (lab baseColor) (lab baseColor) = 0).
    { rewrite labDistanceCIE94_same_ab; [ring | reflexivity | reflexivity | right; ring]. }
    rewrite H0. destruct (Rlt_dec 0 (mergeThreshold baseColor)); [reflexivity | lra].
  - intros Hl.
    pose proof (labDistanceCIE94_ge_lightness (lab baseColor) (lab c)) as Hd.
    destruct (Rlt_dec _ _); [lra | reflexivity].
Qed.

Lemma merge_by_lightness_witness :
  used_has 1 (acc_used (mergeGroup [redA; redB] 0 redA [])) = false.
Proof.
  apply (proj2 (merge_by_lightness [redA; redB] 0 1 redA redB []
                  eq_refl (Nat.lt_0_succ 0) eq_refl)).
  simpl. rewrite Rabs_right; lra.
Defined.

Local Close Scope R_scope.

(** ** The order and the bounds of the returned list *)

Local Open Scope R_scope.

Lemma insertByFrequency_In (x z : ColorResult) (l : list ColorResult) :
  In z (insertByFrequency x l) <-> z = x \/ In z l.
Proof.
  induction l as [|y l IH]; cbn [insertByFrequency].
  - simpl. intuition.
  - destruct (Rlt_dec (frequency x) (frequency y)).
    + simpl. rewrite IH. intuition.
    + simpl. intuition.
Qed.

Lemma insertByFrequency_sorted (x : ColorResult) (l : list ColorResult) :
  sortedDesc l -> sortedDesc (insertByFrequency x l).
Proof.
  induction l as [|y l IH]; cbn [insertByFrequency]; intros Hs.
  - simpl. split; [intros ? [] | exact I].
  - destruct Hs as [Hy Hs].
    destruct (Rlt_dec (frequency x) (frequency y)) as [Hlt|Hge].
    + cbn [sortedDesc]. split; [|auto].
      intros z Hz. apply insertByFrequency_In in Hz.
      destruct Hz as [->|Hz]; [lra | auto].
    + cbn [sortedDesc]. split; [|split; assumption].
      intros z [<-|Hz]; [lra|]. specialize (Hy z Hz). lra.
Qed.

Lemma sortByFrequencyDesc_sorted (l : list ColorResult) :
  sortedDesc (sortByFrequencyDesc l).
Proof.
  induction l as [|x l IH]; [exact I|].
  cbn [sortByFrequencyDesc fold_right]. fold (sortByFrequencyDesc l).
  now apply insertByFrequency_sorted.
Qed.

Lemma insertByFrequency_perm (x : ColorResult) (l : list ColorResult) :
  Permutation (x :: l) (insertByFrequency x l).
Proof.
  induction l as [|y l IH]; cbn [insertByFrequency]; [reflexivity|].
  destruct (Rlt_dec (frequency x) (frequency y)); [|reflexivity].
  etransitivity; [apply perm_swap|]. now apply perm_skip.
Qed.

Lemma sortByFrequencyDesc_perm (l : list ColorResult) :
  Permutation l (sortByFrequencyDesc l).
Proof.
  induction l as [|x l IH]; [reflexivity|].
  cbn [sortByFrequencyDesc fold_right]. fold (sortByFrequencyDesc l).
  etransitivity; [apply perm_skip, IH | apply insertByFrequency_perm].
Qed.

Lemma insertByFrequency_stable (f : R) (x : ColorResult) (l : list ColorResult) :
  filter (hasFrequency f) (insertByFrequency x l) = filter (hasFrequency f) (x :: l).
Proof.
  induction l as [|y l IH]; cbn [insertByFrequency]; [reflexivity|].
  destruct (Rlt_dec (frequency x) (frequency y)) as [Hlt|Hge]; [|reflexivity].
  cbn [filter] in IH |- *. rewrite IH. unfold hasFrequency.
  destruct (Req_dec_T (frequency y) f), (Req_dec_T (frequency x) f); try reflexivity.
  exfalso. lra.
Qed.

Lemma sortByFrequencyDesc_stable (f : R) (l : list ColorResult) :
  filter (hasFrequency f) (sortByFrequencyDesc l) = filter (hasFrequency f) l.
Proof.
  induction l as [|x l IH]; [reflexivity|].
  cbn [sortByFrequencyDesc fold_right]. fold (sortByFrequencyDesc l).
  rewrite insertByFrequency_stable. cbn [filter]. now rewrite IH.
Qed.

(** X14.  The list a call is fulfilled with is ordered by frequency, highest
    first; it holds the entries chosen by the selector, and entries of equal
    frequency keep the order the selector gave them. *)
Theorem extractColors_sorted (canvasAvailable : bool) (pixels : Promise ImageData)
    (maxColors S : Z) (l : list ColorResult) :
  extractColors canvasAvailable pixels maxColors S = Fulfilled l ->
  sortedDesc l /\
  exists imageData,
    pixels = Fulfilled imageData /\
    Permutation (extractColorsWeightedGrid imageData maxColors S) l /\
    forall f, filter (hasFrequency f) l =
              filter (hasFrequency f) (extractColorsWeightedGrid imageData maxColors S).
Proof.
  unfold extractColors. destruct canvasAvailable; simpl; [|discriminate].
  destruct pixels as [imageData|e]; [|discriminate].
  intros E. injection E as <-.
  split; [apply sortByFrequencyDesc_sorted|].
  exists imageData. split; [reflexivity|]. split.
  - apply sortByFrequencyDesc_perm.
  - intros f. apply sortByFrequencyDesc_stable.
Qed.

Lemma extractColors_sorted_witness :
  sortedDesc (sortByFrequencyDesc (extractColorsWeightedGrid twoTone 5 200)) /\
  map color (sortByFrequencyDesc (extractColorsWeightedGrid twoTone 5 200))
  = ["#ff0000"; "#0000ff"]%string.
Proof.
  split.
  - apply (proj1 (extractColors_sorted true (Fulfilled twoTone) 5 200 _ eq_refl)).
  - destruct twoTone_extraction as (c1 & c2 & -> & -> & E1 & _ & E2 & _).
    cbn [map]. now rewrite E1, E2.
Defined.

Lemma element_le_sum (l : list ColorResult) (c : ColorResult) :
  nonnegFrequencies l -> In c l -> frequency c <= sumFrequency l.
Proof.
  induction 1 as [|x l Hx Hl IH]; intros Hin; [contradiction|].
  rewrite sumFrequency_cons.
  assert (0 <= sumFrequency l).
  { clear IH Hin. induction Hl as [|y l Hy Hl IH]; [unfold sumFrequency; simpl; lra|].
    rewrite sumFrequency_cons. lra. }
  destruct Hin as [->|Hin]; [lra|]. specialize (IH Hin). lra.
Qed.

Lemma selected_significant (colors : list ColorResult) (maxColors : Z) (c : ColorResult) :
  In c (selectDiverseColors colors maxColors) -> In c colors /\ 0.5 <= frequency c.
Proof.
  intros Hc. apply (subseq_In _ _ _ (selectDiverseColors_subseq colors maxColors)) in Hc.
  apply filter_In in Hc. destruct Hc as [Hin Hsig]. split; [assumption|].
  unfold isSignificant, MIN_FREQUENCY_THRESHOLD in Hsig.
  destruct (Rge_dec (frequency c) 0.5); [lra | discriminate].
Qed.

Local Close Scope R_scope.

(** ** The fields of the returned entries *)

Lemma countPixelsByColor_keys (imageData : ImageData) (startX startY endX endY : Z) :
  Forall (fun entry : string * ColorCount => fst entry = rgbToHex (cc_rgb (snd entry)))
         (countPixelsByColor imageData startX startY endX endY).
Proof.
  unfold countPixelsByColor, for_range.
  set (P := fun entry : string * ColorCount => fst entry = rgbToHex (cc_rgb (snd entry))).
  apply (for_upto_invariant (fun m => Forall P m)); [|constructor].
  intros y t Ht.
  apply (for_upto_invariant (fun m => Forall P m)); [|assumption].
  intros x t' Ht'. unfold countPixel.
  destruct (_ <? 128); [assumption|].
  set (c := {| rgb_r := _; rgb_g := _; rgb_b := _ |}).
  destruct (map_get (rgbToHex c) t') as [e|] eqn:E.
  - pose proof (map_get_Forall P _ _ _ Ht' E) as He. cbn [P fst snd] in He.
    apply map_set_Forall_key; [exact He | assumption].
  - apply map_set_Forall_key; [reflexivity | assumption].
Qed.

Lemma addWeighted_keys (T : Z) (aw : R) (m : JSMap ColorWeight) (entry : string * ColorCount) :
  fst entry = rgbToHex (cc_rgb (snd entry)) ->
  Forall (fun e : string * ColorWeight => fst e = rgbToHex (cw_rgb (snd e))) m ->
  Forall (fun e : string * ColorWeight => fst e = rgbToHex (cw_rgb (snd e)))
         (addWeighted T aw m entry).
Proof.
  destruct entry as [k e]. cbn [fst snd]. intros Hk Hm. unfold addWeighted.
  destruct (map_get k m) as [w|] eqn:E.
  - pose proof (map_get_Forall _ _ _ _ Hm E) as Hw. cbn [fst snd] in Hw.
    apply map_set_Forall_key; [exact Hw | assumption].
  - apply map_set_Forall_key; [exact Hk | assumption].
Qed.

Lemma aggregateWeights_keys (imageData : ImageData) (S : Z) :
  Forall (fun e : string * ColorWeight => fst e = rgbToHex (cw_rgb (snd e)))
         (aggregateWeights imageData S).
Proof.
  unfold aggregateWeights.
  generalize (calculateGridSections (width imageData) (height imageData) S).
  intros sections.
  assert (Hnil : Forall (fun e : string * ColorWeight => fst e = rgbToHex (cw_rgb (snd e))) [])
    by constructor.
  revert Hnil. generalize (@nil (string * ColorWeight)).
  induction sections as [|s sections IH]; intros m Hm; cbn [fold_left]; [assumption|].
  apply IH. unfold accumulateSection.
  pose proof (countPixelsByColor_keys imageData (startX s) (startY s) (endX s) (endY s)) as Hh.
  revert m Hm. induction Hh as [|entry hist He Hh IHh]; intros m Hm; cbn [fold_left];
    [assumption|].
  apply IHh. now apply addWeighted_keys.
Qed.

Lemma mergeLoop_Forall (P : ColorResult -> Prop) (colors : list ColorResult) (M : Z)
    (fuel i : nat) (merged : list ColorResult) (used : list nat) :
  (forall acc, P (mergedEntry acc)) -> Forall P merged ->
  Forall P (mergeLoop colors M fuel i merged used).
Proof.
  intros HP. revert i merged used.
  induction fuel as [|fuel IH]; intros i merged used Hm; cbn [mergeLoop]; [assumption|].
  destruct ((i <? length colors)%nat && (Z.of_nat (length merged) <? M)); [|assumption].
  destruct (used_has i used); [now apply IH|].
  destruct (nth_error colors i); [|assumption].
  apply IH. apply Forall_app. split; [assumption|]. constructor; [apply HP | constructor].
Qed.

Lemma subseq_Forall {A : Type} (P : A -> Prop) (l1 l2 : list A) :
  subseq l1 l2 -> Forall P l2 -> Forall P l1.
Proof.
  intros Hsub Hall. apply Forall_forall. intros x Hx.
  rewrite Forall_forall in Hall. apply Hall. eapply subseq_In; eauto.
Qed.

Lemma extractColorsWeightedGrid_consistent (imageData : ImageData) (maxColors S : Z) :
  Forall consistent (extractColorsWeightedGrid imageData maxColors S).
Proof.
  unfold extractColorsWeightedGrid.
  assert (H1 : Forall consistent (normalizedResults (aggregateWeights imageData S))).
  { rewrite normalizedResults_filter. apply Forall_forall. intros c Hc.
    apply in_map_iff in Hc. destruct Hc as (e & <- & He).
    apply filter_In in He. destruct He as [He _].
    pose proof (aggregateWeights_keys imageData S) as Hk.
    rewrite Forall_forall in Hk. specialize (Hk e He).
    split; [exact Hk | reflexivity]. }
  assert (H2 : Forall consistent
                 (sortByFrequencyDesc (normalizedResults (aggregateWeights imageData S)))).
  { apply Forall_forall. intros c Hc.
    apply (Permutation_in _ (Permutation_sym (sortByFrequencyDesc_perm _))) in Hc.
    rewrite Forall_forall in H1. now apply H1. }
  set (sorted := sortByFrequencyDesc _) in *.
  assert (H3 : Forall consistent (mergeSimilarColorsConservative sorted (maxColors * 3))).
  { unfold mergeSimilarColorsConservative.
    destruct (Z.of_nat (length sorted) <=? maxColors * 3); [assumption|].
    apply mergeLoop_Forall; [|constructor].
    intros acc. split; reflexivity. }
  eapply subseq_Forall; [|exact H3].
  eapply subseq_trans; [apply selectDiverseColors_subseq | apply subseq_filter].
Qed.

(** X16.  In every entry a call is fulfilled with, the hex code and the LAB
    value are those of the entry's RGB value. *)
Theorem extractColors_consistent (canvasAvailable : bool) (pixels : Promise ImageData)
    (maxColors S : Z) (l : list ColorResult) :
  extractColors canvasAvailable pixels maxColors S = Fulfilled l ->
  Forall consistent l.
Proof.
  unfold extractColors. destruct canvasAvailable; simpl; [|discriminate].
  destruct pixels as [imageData|e]; [|discriminate].
  intros E. injection E as <-.
  apply Forall_forall. intros c Hc.
  apply (Permutation_in _ (Permutation_sym (sortByFrequencyDesc_perm _))) in Hc.
  pose proof (extractColorsWeightedGrid_consistent imageData maxColors S) as H.
  rewrite Forall_forall in H. now apply H.
Qed.

Lemma extractColors_consistent_witness :
  Forall consistent (sortByFrequencyDesc (extractColorsWeightedGrid onePixel 5 1)).
Proof.
  apply (extractColors_consistent true (Fulfilled onePixel) 5 1 _ eq_refl).
Defined.

Lemma rgbToHex_isHexColor (c : RGB) : isHexColor (rgbToHex c) = true.
Proof.
  unfold rgbToHex, toHex. cbn [append isHexColor String.length list_ascii_of_string forallb].
  rewrite !hexDigit_lower. reflexivity.
Qed.

(** X17.  [extractColorsFromImage] is rejected exactly when [extractColors]
    with the default cell size is; otherwise it is fulfilled with one string
    per extracted colour, in the same order, each of them [#] followed by
    six characters of [0123456789abcdef], and at most [colorCount] of them
    when [colorCount >= 0]. *)
Theorem extractColorsFromImage_hex (canvasAvailable : bool) (pixels : Promise ImageData)
    (colorCount : Z) :
  (forall message,
     extractColorsFromImage canvasAvailable pixels colorCount = Rejected message <->
     extractColors canvasAvailable pixels colorCount 200 = Rejected message) /\
  (forall hexes,
     extractColorsFromImage canvasAvailable pixels colorCount = Fulfilled hexes ->
     (exists results,
        extractColors canvasAvailable pixels colorCount 200 = Fulfilled results /\
        hexes = map color results) /\
     forallb isHexColor hexes = true /\
     (0 <= colorCount -> Z.of_nat (length hexes) <= colorCount)).
Proof.
  unfold extractColorsFromImage.
  destruct (extractColors canvasAvailable pixels colorCount 200) as [results|msg] eqn:E.
  - split.
    + intros message. split; discriminate.
    + intros hexes Hh. injection Hh as <-.
      split; [exists results; split; reflexivity|]. split.
      * assert (Hc : Forall consistent results).
        { unfold extractColors in E. destruct canvasAvailable; simpl in E; [|discriminate].
          destruct pixels as [imageData|e]; [|discriminate].
          injection E as <-.
          apply Forall_forall. intros c Hc.
          apply (Permutation_in _ (Permutation_sym (sortByFrequencyDesc_perm _))) in Hc.
          pose proof (extractColorsWeightedGrid_consistent imageData colorCount 200) as H.
          rewrite Forall_forall in H. now apply H. }
        apply forallb_forall. intros h Hin.
        apply in_map_iff in Hin. destruct Hin as (c & <- & Hin).
        rewrite Forall_forall in Hc. destruct (Hc c Hin) as [-> _].
        apply rgbToHex_isHexColor.
      * intros Hm. rewrite length_map.
        unfold extractColors in E. destruct canvasAvailable; simpl in E; [|discriminate].
        destruct pixels as [imageData|e]; [|discriminate].
        injection E as <-.
        rewrite <- (Permutation_length (sortByFrequencyDesc_perm _)).
        unfold extractColorsWeightedGrid.
        rewrite selectDiverseColors_prefix by assumption.
        rewrite length_firstn. lia.
  - split.
    + intros message. split; intros H; injection H as ->; reflexivity.
    + intros hexes Hh. discriminate.
Qed.

Lemma extractColorsFromImage_hex_witness :
  extractColorsFromImage true (Fulfilled twoTone) 5 = Fulfilled ["#ff0000"; "#0000ff"]%string /\
  forallb isHexColor ["#ff0000"; "#0000ff"]%string = true.
Proof.
  assert (E : extractColorsFromImage true (Fulfilled twoTone) 5
              = Fulfilled ["#ff0000"; "#0000ff"]%string).
  { unfold extractColorsFromImage, extractColors. cbn [negb].
    destruct twoTone_extraction as (c1 & c2 & -> & -> & E1 & _ & E2 & _).
    cbn [map]. now rewrite E1, E2. }
  split; [exact E|].
  exact (proj1 (proj2 (proj2 (extractColorsFromImage_hex true (Fulfilled twoTone) 5) _ E))).
Defined.

(** ** Transparent images *)

Lemma for_upto_invariant_range {St : Type} (P : St -> Prop) (body : Z -> St -> St)
    (n : nat) (i : Z) (s : St) :
  (forall k t, i <= k < i + Z.of_nat n -> P t -> P (body k t)) ->
  P s -> P (for_upto n i body s).
Proof.
  revert i s. induction n as [|n IH]; intros i s Hbody Hs; cbn [for_upto]; [assumption|].
  apply IH.
  - intros k t Hk. apply Hbody. lia.
  - apply Hbody; [lia | assumption].
Qed.

Lemma transparent_section_histogram (imageData : ImageData) (s : GridSection) :
  fullyTransparent imageData ->
  section_in_image (width imageData) (height imageData) s ->
  sectionHistogram imageData s = [].
Proof.
  intros Htr (Hx0 & Hx & Hx1 & Hy0 & Hy & Hy1).
  unfold sectionHistogram, countPixelsByColor, for_range.
  apply (for_upto_invariant_range (fun m : JSMap ColorCount => m = [])); [|reflexivity].
  intros y t Hyr ->.
  apply (for_upto_invariant_range (fun m : JSMap ColorCount => m = [])); [|reflexivity].
  intros x t Hxr ->.
  unfold countPixel.
  destruct (Z.ltb_spec (data_at imageData ((y * width imageData + x) * 4 + 3)) 128)
    as [_|Hge]; [reflexivity|].
  exfalso. specialize (Htr x y ltac:(lia) ltac:(lia)). lia.
Qed.

(** X18.  On an image all of whose pixels fail the alpha test (alpha below
    128) no colour is counted, and the extraction returns the empty list
    whatever [maxColors] and the cell size [S >= 1] are. *)
Theorem transparent_image_extracts_nothing (imageData : ImageData) (maxColors S : Z) :
  wf_image imageData -> fullyTransparent imageData -> 1 <= S ->
  aggregateWeights imageData S = [] /\
  extractColors true (Fulfilled imageData) maxColors S = Fulfilled [].
Proof.
  intros Hwf Htr HS.
  assert (E : aggregateWeights imageData S = []).
  { destruct Hwf as (HW & HH & _). unfold aggregateWeights.
    pose proof (sections_in_image _ _ S HW HH HS) as Hall.
    induction Hall as [|s l Hs Hl IH]; [reflexivity|].
    cbn [fold_left]. unfold accumulateSection at 2.
    fold (sectionHistogram imageData s).
    rewrite (transparent_section_histogram imageData s Htr Hs). exact IH. }
  split; [exact E|].
  unfold extractColors, extractColorsWeightedGrid. simpl negb. cbv iota.
  rewrite E. cbn [normalizedResults fold_left sortByFrequencyDesc fold_right].
  rewrite merge_nil, selectDiverseColors_nil. reflexivity.
Qed.

Lemma clear2x2_wf : wf_image clear2x2.
Proof.
  unfold wf_image, clear2x2; cbn [data width height].
  split; [lia|]. split; [lia|]. split; [reflexivity|].
  apply Forall_forall. intros v Hv.
  apply in_concat in Hv. destruct Hv as (px & Hpx & Hv).
  apply repeat_spec in Hpx. subst px.
  simpl in Hv. intuition lia.
Qed.

Lemma clear2x2_transparent : fullyTransparent clear2x2.
Proof.
  intros x y Hx Hy. cbn [width height clear2x2] in *.
  assert (Hcases : In (x, y) (list_prod (zseq 0 2) (zseq 0 2))).
  { apply in_prod; apply in_zseq; lia. }
  vm_compute in Hcases.
  repeat (destruct Hcases as [E|Hcases];
          [injection E as <- <-; vm_compute; reflexivity|]).
  contradiction.
Qed.

Lemma transparent_image_extracts_nothing_witness :
  extractColors true (Fulfilled clear2x2) 5 1 = Fulfilled [].
Proof.
  apply (transparent_image_extracts_nothing clear2x2 5 1).
  - exact clear2x2_wf.
  - exact clear2x2_transparent.
  - lia.
Defined.

(** ** Rounding, [calculateDimensions] and [calculateClusterCentroid] *)

Local Open Scope R_scope.

Lemma Math_round_bounds (x : R) :
  x - / 2 < IZR (Math_round x) <= x + / 2.
Proof.
  unfold Math_round. destruct (base_Int_part (x + / 2)) as [H1 H2]. lra.
Qed.

Lemma Math_round_between (x : R) (lo hi : Z) :
  IZR lo <= x <= IZR hi -> (lo <= Math_round x <= hi)%Z.
Proof.
  intros [Hlo Hhi]. destruct (Math_round_bounds x) as [H1 H2].
  split.
  - assert (H : (lo - 1 < Math_round x)%Z).
    { apply lt_IZR. rewrite minus_IZR. lra. }
    lia.
  - assert (H : (Math_round x < hi + 1)%Z).
    { apply lt_IZR. rewrite plus_IZR. lra. }
    lia.
Qed.

Lemma Math_round_IZR (n : Z) : Math_round (IZR n) = n.
Proof.
  pose proof (Math_round_between (IZR n) n n ltac:(lra)). lia.
Qed.

(** X21.  For an image of positive width and height: with the default
    [maxDimension] (Infinity), or when both sides fit, the dimensions are
    returned unchanged.  Otherwise, for a finite [maxDimension >= 0], the
    longer side (the height when both are equal) becomes [maxDimension] and
    the other side is a non-negative integer within one half of
    [maxDimension] times the original aspect ratio, so at most
    [maxDimension + 1/2]. *)
Theorem calculateDimensions_spec (originalWidth originalHeight : Z) :
  (1 <= originalWidth)%Z -> (1 <= originalHeight)%Z ->
  let unchanged := {| dim_width := IZR originalWidth; dim_height := IZR originalHeight |} in
  calculateDimensions originalWidth originalHeight Infinity = unchanged /\
  (forall m, IZR originalWidth <= m -> IZR originalHeight <= m ->
     calculateDimensions originalWidth originalHeight (FiniteDimension m) = unchanged) /\
  (forall m, 0 <= m -> ~ (IZR originalWidth <= m /\ IZR originalHeight <= m) ->
     let d := calculateDimensions originalWidth originalHeight (FiniteDimension m) in
     ((originalHeight < originalWidth)%Z ->
        dim_width d = m /\
        (exists h : Z, dim_height d = IZR h /\ (0 <= h)%Z) /\
        Rabs (dim_height d - m * IZR originalHeight / IZR originalWidth) <= / 2 /\
        dim_height d <= m + / 2) /\
     ((originalWidth <= originalHeight)%Z ->
        dim_height d = m /\
        (exists w : Z, dim_width d = IZR w /\ (0 <= w)%Z) /\
        Rabs (dim_width d - m * IZR originalWidth / IZR originalHeight) <= / 2 /\
        dim_width d <= m + / 2)).
Proof.
  intros HW HH unchanged.
  assert (HWr : 1 <= IZR originalWidth) by (apply (IZR_le 1); assumption).
  assert (HHr : 1 <= IZR originalHeight) by (apply (IZR_le 1); assumption).
  split; [reflexivity|]. split.
  - intros m Hw Hh. unfold calculateDimensions.
    destruct (Rle_dec (IZR originalWidth) m); [|contradiction].
    destruct (Rle_dec (IZR originalHeight) m); [reflexivity | contradiction].
  - intros m Hm Hnot d.
    assert (Ed : d = if (originalWidth >? originalHeight)%Z
                     then {| dim_width := m;
                             dim_height := IZR (Math_round
                               (m / (IZR originalWidth / IZR originalHeight))) |}
                     else {| dim_width := IZR (Math_round
                               (m * (IZR originalWidth / IZR originalHeight)));
                             dim_height := m |}).
    { unfold d, calculateDimensions.
      destruct (Rle_dec (IZR originalWidth) m); [|reflexivity].
      destruct (Rle_dec (IZR originalHeight) m); [|reflexivity].
      exfalso. apply Hnot. split; assumption. }
    assert (Hround : forall x, 0 <= x <= m ->
              (exists z : Z, IZR (Math_round x) = IZR z /\ (0 <= z)%Z) /\
              Rabs (IZR (Math_round x) - x) <= / 2 /\ IZR (Math_round x) <= m + / 2).
    { intros x [Hx0 Hxm]. destruct (Math_round_bounds x) as [H1 H2].
      split; [|split].
      - exists (Math_round x). split; [reflexivity|].
        assert (H : (-1 < Math_round x)%Z) by (apply lt_IZR; lra). lia.
      - apply Rabs_le. lra.
      - lra. }
    split.
    + intros Hlt. rewrite Ed.
      destruct (Z.gtb_spec originalWidth originalHeight) as [_|Hle]; [|lia].
      cbn [dim_width dim_height].
      apply IZR_lt in Hlt.
      replace (m / (IZR originalWidth / IZR originalHeight))
        with (m * IZR originalHeight / IZR originalWidth) by (field; lra).
      assert (Hx : 0 <= m * IZR originalHeight / IZR originalWidth <= m).
      { split.
        - apply Rmult_le_pos; [nra | left; apply Rinv_0_lt_compat; lra].
        - apply (Rmult_le_reg_r (IZR originalWidth)); [lra|].
          unfold Rdiv. rewrite Rmult_assoc, Rinv_l, Rmult_1_r by lra. nra. }
      destruct (Hround _ Hx) as (Hz & Ha & Hb).
      split; [reflexivity|]. split; [exact Hz|]. split; assumption.
    + intros Hle. rewrite Ed.
      destruct (Z.gtb_spec originalWidth originalHeight) as [Hgt|_]; [lia|].
      cbn [dim_width dim_height].
      apply IZR_le in Hle.
      replace (m * (IZR originalWidth / IZR originalHeight))
        with (m * IZR originalWidth / IZR originalHeight) by (field; lra).
      assert (Hx : 0 <= m * IZR originalWidth / IZR originalHeight <= m).
      { split.
        - apply Rmult_le_pos; [nra | left; apply Rinv_0_lt_compat; lra].
        - apply (Rmult_le_reg_r (IZR originalHeight)); [lra|].
          unfold Rdiv. rewrite Rmult_assoc, Rinv_l, Rmult_1_r by lra. nra. }
      destruct (Hround _ Hx) as (Hz & Ha & Hb).
      split; [reflexivity|]. split; [exact Hz|]. split; assumption.
Qed.

Lemma calculateDimensions_spec_witness :
  calculateDimensions 1920 1080 Infinity =
  {| dim_width := IZR 1920; dim_height := IZR 1080 |}.
Proof.
  assert (H1 : (1 <= 1920)%Z) by lia. assert (H2 : (1 <= 1080)%Z) by lia.
  exact (proj1 (calculateDimensions_spec 1920 1080 H1 H2)).
Defined.

Lemma centroid_sum (cluster : list RGB) (acc : RGB) :
  let sum := fold_left (fun acc pixel =>
                          {| rgb_r := rgb_r acc + rgb_r pixel;
                             rgb_g := rgb_g acc + rgb_g pixel;
                             rgb_b := rgb_b acc + rgb_b pixel |}) cluster acc in
  rgb_r sum = (rgb_r acc + sumZ (map rgb_r cluster))%Z /\
  rgb_g sum = (rgb_g acc + sumZ (map rgb_g cluster))%Z /\
  rgb_b sum = (rgb_b acc + sumZ (map rgb_b cluster))%Z.
Proof.
  revert acc. induction cluster as [|p cluster IH]; intros acc; cbn [fold_left map].
  - unfold sumZ. simpl. lia.
  - specialize (IH {| rgb_r := rgb_r acc + rgb_r p;
                      rgb_g := rgb_g acc + rgb_g p;
                      rgb_b := rgb_b acc + rgb_b p |}).
    cbv zeta in IH |- *. cbn [rgb_r rgb_g rgb_b] in IH.
    unfold sumZ in *. cbn [fold_right]. lia.
Qed.

Lemma sumZ_between (l : list Z) (lo hi : Z) :
  Forall (fun v => lo <= v <= hi)%Z l ->
  (Z.of_nat (length l) * lo <= sumZ l <= Z.of_nat (length l) * hi)%Z.
Proof.
  induction 1 as [|v l Hv Hl IH]; unfold sumZ in *; cbn [fold_right length]; lia.
Qed.

Lemma mean_round_between (s : Z) (n : nat) (lo hi : Z) :
  (0 < n)%nat -> (Z.of_nat n * lo <= s <= Z.of_nat n * hi)%Z ->
  (lo <= Math_round (IZR s / IZR (Z.of_nat n)) <= hi)%Z.
Proof.
  intros Hn [Hlo Hhi]. apply Math_round_between.
  assert (Hnr : 0 < IZR (Z.of_nat n)) by (apply (IZR_lt 0); lia).
  apply IZR_le in Hlo, Hhi. rewrite mult_IZR in Hlo, Hhi.
  split.
  - apply (Rmult_le_reg_r (IZR (Z.of_nat n))); [assumption|].
    unfold Rdiv. rewrite Rmult_assoc, Rinv_l, Rmult_1_r by lra. lra.
  - apply (Rmult_le_reg_r (IZR (Z.of_nat n))); [assumption|].
    unfold Rdiv. rewrite Rmult_assoc, Rinv_l, Rmult_1_r by lra. lra.
Qed.

Lemma centroid_channels (cluster : list RGB) (lo hi : Z) :
  cluster <> [] ->
  let c := calculateClusterCentroid cluster in
  (Forall (fun p => (lo <= rgb_r p <= hi)%Z) cluster -> (lo <= rgb_r c <= hi)%Z) /\
  (Forall (fun p => (lo <= rgb_g p <= hi)%Z) cluster -> (lo <= rgb_g c <= hi)%Z) /\
  (Forall (fun p => (lo <= rgb_b p <= hi)%Z) cluster -> (lo <= rgb_b c <= hi)%Z).
Proof.
  intros Hne c. unfold c, calculateClusterCentroid.
  destruct cluster as [|p0 cluster']; [congruence|].
  set (cluster := p0 :: cluster') in *.
  change (length cluster =? 0)%nat with false. cbv iota.
  destruct (centroid_sum cluster {| rgb_r := 0; rgb_g := 0; rgb_b := 0 |})
    as (Er & Eg & Eb).
  cbv zeta in Er, Eg, Eb. cbn [rgb_r rgb_g rgb_b] in Er, Eg, Eb |- *.
  rewrite Er, Eg, Eb, !Z.add_0_l.
  assert (Hn : (0 < length cluster)%nat) by (simpl; lia).
  assert (Hmap : forall f : RGB -> Z,
            Forall (fun p => (lo <= f p <= hi)%Z) cluster ->
            (Z.of_nat (length cluster) * lo <= sumZ (map f cluster)
             <= Z.of_nat (length cluster) * hi)%Z).
  { intros f Hf. rewrite <- (length_map f cluster). apply sumZ_between.
    apply Forall_map. exact Hf. }
  split; [|split]; intros Hall; apply mean_round_between; auto.
Qed.

(** X22.  The centroid of the empty cluster is black.  For a non-empty
    cluster whose components all lie between two integers, so do the
    components of the centroid (bytes give bytes); in particular the centroid
    of a cluster of equal pixels is that pixel. *)
Theorem centroid_within_cluster :
  calculateClusterCentroid [] = {| rgb_r := 0; rgb_g := 0; rgb_b := 0 |} /\
  (forall (cluster : list RGB) (lo hi : Z),
     cluster <> [] ->
     Forall (fun p => (lo <= rgb_r p <= hi /\ lo <= rgb_g p <= hi /\ lo <= rgb_b p <= hi)%Z)
            cluster ->
     let c := calculateClusterCentroid cluster in
     (lo <= rgb_r c <= hi /\ lo <= rgb_g c <= hi /\ lo <= rgb_b c <= hi)%Z) /\
  (forall (cluster : list RGB) (p : RGB),
     cluster <> [] -> Forall (fun q => q = p) cluster ->
     calculateClusterCentroid cluster = p).
Proof.
  split; [reflexivity|]. split.
  - intros cluster lo hi Hne Hall c.
    destruct (centroid_channels cluster lo hi Hne) as (Hr & Hg & Hb).
    split; [|split]; [apply Hr | apply Hg | apply Hb];
      (eapply Forall_impl; [|exact Hall]); cbv beta; intros a Ha; tauto.
  - intros cluster p Hne Hall.
    destruct (centroid_channels cluster (rgb_r p) (rgb_r p) Hne) as (Hr & _ & _).
    destruct (centroid_channels cluster (rgb_g p) (rgb_g p) Hne) as (_ & Hg & _).
    destruct (centroid_channels cluster (rgb_b p) (rgb_b p) Hne) as (_ & _ & Hb).
    assert (Hc : forall f : RGB -> Z, Forall (fun q => (f p <= f q <= f p)%Z) cluster).
    { intros f. eapply Forall_impl; [|exact Hall]. cbv beta. intros q ->. lia. }
    specialize (Hr (Hc rgb_r)). specialize (Hg (Hc rgb_g)). specialize (Hb (Hc rgb_b)).
    destruct (calculateClusterCentroid cluster) as [r g b].
    destruct p as [pr pg pb]. cbn [rgb_r rgb_g rgb_b] in *.
    f_equal; lia.
Qed.

Lemma centroid_within_cluster_witness :
  calculateClusterCentroid [mkRGB 10 20 30; mkRGB 10 20 30] = mkRGB 10 20 30.
Proof.
  apply (proj2 (proj2 centroid_within_cluster)).
  - discriminate.
  - repeat constructor.
Defined.

Local Close Scope R_scope.

(** ** [getColorRange] *)

Lemma fold_min_spec (l : list Z) (a : Z) :
  fold_left Z.min l a <= a /\
  (forall v, In v l -> fold_left Z.min l a <= v) /\
  (fold_left Z.min l a = a \/ In (fold_left Z.min l a) l).
Proof.
  revert a. induction l as [|x l IH]; intros a; cbn [fold_left].
  - split; [lia|]. split; [intros v []|]. now left.
  - destruct (IH (Z.min a x)) as (H1 & H2 & H3).
    split; [lia|]. split.
    + intros v [<-|Hv]; [lia | auto].
    + destruct H3 as [H3|H3]; [|right; now right].
      destruct (Z.min_spec a x) as [[_ E]|[_ E]].
      * left. now rewrite H3.
      * right. left. now rewrite H3.
Qed.

Lemma fold_max_spec (l : list Z) (a : Z) :
  a <= fold_left Z.max l a /\
  (forall v, In v l -> v <= fold_left Z.max l a) /\
  (fold_left Z.max l a = a \/ In (fold_left Z.max l a) l).
Proof.
  revert a. induction l as [|x l IH]; intros a; cbn [fold_left].
  - split; [lia|]. split; [intros v []|]. now left.
  - destruct (IH (Z.max a x)) as (H1 & H2 & H3).
    split; [lia|]. split.
    + intros v [<-|Hv]; [lia | auto].
    + destruct H3 as [H3|H3]; [|right; now right].
      destruct (Z.max_spec a x) as [[_ E]|[_ E]].
      * right. left. now rewrite H3.
      * left. now rewrite H3.
Qed.

Lemma channelBounds_folds (pixels : list RGB) (b0 : ChannelBounds) :
  let b := fold_left (fun bounds pixel =>
               {| rMin := Z.min (rMin bounds) (rgb_r pixel);
                  rMax := Z.max (rMax bounds) (rgb_r pixel);
                  gMin := Z.min (gMin bounds) (rgb_g pixel);
                  gMax := Z.max (gMax bounds) (rgb_g pixel);
                  bMin := Z.min (bMin bounds) (rgb_b pixel);
                  bMax := Z.max (bMax bounds) (rgb_b pixel) |}) pixels b0 in
  rMin b = fold_left Z.min (map rgb_r pixels) (rMin b0) /\
  rMax b = fold_left Z.max (map rgb_r pixels) (rMax b0) /\
  gMin b = fold_left Z.min (map rgb_g pixels) (gMin b0) /\
  gMax b = fold_left Z.max (map rgb_g pixels) (gMax b0) /\
  bMin b = fold_left Z.min (map rgb_b pixels) (bMin b0) /\
  bMax b = fold_left Z.max (map rgb_b pixels) (bMax b0).
Proof.
  revert b0. induction pixels as [|p pixels IH]; intros b0; cbn [fold_left map].
  - repeat split.
  - apply IH.
Qed.

(** The spread of one channel over a non-empty list of bytes. *)
Lemma channel_spread (l : list Z) :
  l <> [] -> Forall (fun v => 0 <= v <= 255) l ->
  let spread := fold_left Z.max l 0 - fold_left Z.min l 255 in
  0 <= spread <= 255 /\
  (forall v w, In v l -> In w l -> Z.abs (v - w) <= spread) /\
  (exists v w, In v l /\ In w l /\ spread = v - w).
Proof.
  intros Hne Hall spread. rewrite Forall_forall in Hall.
  destruct (fold_min_spec l 255) as (Hm1 & Hm2 & Hm3).
  destruct (fold_max_spec l 0) as (Hx1 & Hx2 & Hx3).
  destruct l as [|v0 l']; [congruence|].
  set (l := v0 :: l') in *.
  assert (Hv0 : In v0 l) by now left.
  assert (Hmin : In (fold_left Z.min l 255) l).
  { destruct Hm3 as [E|Hin]; [|assumption].
    pose proof (Hm2 v0 Hv0). pose proof (Hall v0 Hv0).
    replace (fold_left Z.min l 255) with v0 by lia. assumption. }
  assert (Hmax : In (fold_left Z.max l 0) l).
  { destruct Hx3 as [E|Hin]; [|assumption].
    pose proof (Hx2 v0 Hv0). pose proof (Hall v0 Hv0).
    replace (fold_left Z.max l 0) with v0 by lia. assumption. }
  pose proof (Hall _ Hmin). pose proof (Hall _ Hmax).
  pose proof (Hm2 _ Hmax).
  split; [unfold spread; lia|]. split.
  - intros v w Hv Hw. pose proof (Hm2 v Hv). pose proof (Hm2 w Hw).
    pose proof (Hx2 v Hv). pose proof (Hx2 w Hw). unfold spread. lia.
  - exists (fold_left Z.max l 0), (fold_left Z.min l 255). auto.
Qed.

Lemma getColorRange_bytes (pixels : list RGB) :
  pixels <> [] -> Forall byteRGB pixels ->
  0 <= getColorRange pixels <= 255 /\
  (forall p q, In p pixels -> In q pixels ->
     Z.abs (rgb_r p - rgb_r q) <= getColorRange pixels /\
     Z.abs (rgb_g p - rgb_g q) <= getColorRange pixels /\
     Z.abs (rgb_b p - rgb_b q) <= getColorRange pixels) /\
  (getColorRange pixels = 0 <-> forall p q, In p pixels -> In q pixels -> p = q).
Proof.
  intros Hne Hbytes.
  unfold getColorRange.
  destruct pixels as [|p0 pixels']; [congruence|].
  set (pixels := p0 :: pixels') in *.
  change (length pixels =? 0)%nat with false. cbv iota zeta.
  destruct (channelBounds_folds pixels
              {| rMin := 255; rMax := 0; gMin := 255; gMax := 0; bMin := 255; bMax := 0 |})
    as (E1 & E2 & E3 & E4 & E5 & E6).
  cbv zeta in E1, E2, E3, E4, E5, E6.
  cbn [rMin rMax gMin gMax bMin bMax] in E1, E2, E3, E4, E5, E6.
  fold (channelBounds pixels) in E1, E2, E3, E4, E5, E6.
  rewrite E1, E2, E3, E4, E5, E6.
  assert (Hch : forall f : RGB -> Z,
            (forall p, byteRGB p -> 0 <= f p <= 255) ->
            map f pixels <> [] /\ Forall (fun v => 0 <= v <= 255) (map f pixels)).
  { intros f Hf. split; [discriminate|].
    apply Forall_map. eapply Forall_impl; [|exact Hbytes]. exact Hf. }
  destruct (Hch rgb_r ltac:(unfold byteRGB; tauto)) as [Nr Br].
  destruct (Hch rgb_g ltac:(unfold byteRGB; tauto)) as [Ng Bg].
  destruct (Hch rgb_b ltac:(unfold byteRGB; tauto)) as [Nb Bb].
  destruct (channel_spread _ Nr Br) as (Rr & Dr & _).
  destruct (channel_spread _ Ng Bg) as (Rg & Dg & _).
  destruct (channel_spread _ Nb Bb) as (Rb & Db & _).
  cbv zeta in Rr, Dr, Rg, Dg, Rb, Db.
  set (sr := fold_left Z.max (map rgb_r pixels) 0 - fold_left Z.min (map rgb_r pixels) 255) in *.
  set (sg := fold_left Z.max (map rgb_g pixels) 0 - fold_left Z.min (map rgb_g pixels) 255) in *.
  set (sb := fold_left Z.max (map rgb_b pixels) 0 - fold_left Z.min (map rgb_b pixels) 255) in *.
  assert (Hdiff : forall p q, In p pixels -> In q pixels ->
            Z.abs (rgb_r p - rgb_r q) <= sr /\ Z.abs (rgb_g p - rgb_g q) <= sg /\
            Z.abs (rgb_b p - rgb_b q) <= sb).
  { intros p q Hp Hq. split; [|split].
    - apply Dr; now apply in_map.
    - apply Dg; now apply in_map.
    - apply Db; now apply in_map. }
  split; [lia|]. split.
  - intros p q Hp Hq. destruct (Hdiff p q Hp Hq) as (H1 & H2 & H3). lia.
  - split.
    + intros H0 p q Hp Hq. destruct (Hdiff p q Hp Hq) as (H1 & H2 & H3).
      destruct p as [pr pg pb], q as [qr qg qb]. cbn [rgb_r rgb_g rgb_b] in *.
      f_equal; lia.
    + intros Heq.
      destruct (channel_spread _ Nr Br) as (_ & _ & (v1 & w1 & Hv1 & Hw1 & Er)).
      destruct (channel_spread _ Ng Bg) as (_ & _ & (v2 & w2 & Hv2 & Hw2 & Eg)).
      destruct (channel_spread _ Nb Bb) as (_ & _ & (v3 & w3 & Hv3 & Hw3 & Eb)).
      cbv zeta in Er, Eg, Eb. fold sr in Er. fold sg in Eg. fold sb in Eb.
      assert (Hsame : forall (f : RGB -> Z) v w,
                In v (map f pixels) -> In w (map f pixels) -> v = w).
      { intros f v w Hv Hw. apply in_map_iff in Hv, Hw.
        destruct Hv as (p & <- & Hp), Hw as (q & <- & Hq).
        now rewrite (Heq p q Hp Hq). }
      rewrite (Hsame rgb_r v1 w1 Hv1 Hw1) in Er.
      rewrite (Hsame rgb_g v2 w2 Hv2 Hw2) in Eg.
      rewrite (Hsame rgb_b v3 w3 Hv3 Hw3) in Eb.
      lia.
Qed.

(** X23.  The colour range of the empty bucket is 0.  For a non-empty bucket
    of byte colours the range lies between 0 and 255, no two pixels differ
    by more than the range in any channel, and the range is 0 exactly when
    all pixels of the bucket are equal. *)
Theorem getColorRange_spec :
  getColorRange [] = 0 /\
  (forall pixels, pixels <> [] -> Forall byteRGB pixels ->
     0 <= getColorRange pixels <= 255 /\
     (forall p q, In p pixels -> In q pixels ->
        Z.abs (rgb_r p - rgb_r q) <= getColorRange pixels /\
        Z.abs (rgb_g p - rgb_g q) <= getColorRange pixels /\
        Z.abs (rgb_b p - rgb_b q) <= getColorRange pixels) /\
     (getColorRange pixels = 0 <-> forall p q, In p pixels -> In q pixels -> p = q)).
Proof.
  split; [reflexivity | exact getColorRange_bytes].
Qed.

Lemma getColorRange_spec_witness :
  0 <= getColorRange [mkRGB 10 200 30; mkRGB 90 20 30] <= 255.
Proof.
  apply (proj2 getColorRange_spec [mkRGB 10 200 30; mkRGB 90 20 30]).
  - discriminate.
  - repeat constructor; simpl; lia.
Defined.

(** ** [splitBucket] *)

Lemma insertByKey_perm (key : RGB -> Z) (x : RGB) (l : list RGB) :
  Permutation (x :: l) (insertByKey key x l).
Proof.
  induction l as [|y l IH]; cbn [insertByKey]; [reflexivity|].
  destruct (key y <? key x); [|reflexivity].
  etransitivity; [apply perm_swap | apply perm_skip, IH].
Qed.

Lemma sortByKey_perm (key : RGB -> Z) (l : list RGB) :
  Permutation l (sortByKey key l).
Proof.
  induction l as [|x l IH]; [reflexivity|].
  cbn [sortByKey fold_right]. fold (sortByKey key l).
  etransitivity; [apply perm_skip, IH | apply insertByKey_perm].
Qed.

Lemma insertByKey_ascending (key : RGB -> Z) (x : RGB) (l : list RGB) :
  ascending key l -> ascending key (insertByKey key x l).
Proof.
  induction l as [|y l IH]; cbn [insertByKey ascending].
  - intros _. split; [constructor | exact I].
  - intros [Hy Hl]. destruct (key y <? key x) eqn:E; cbn [ascending].
    + split; [|now apply IH].
      apply (Permutation_Forall (insertByKey_perm key x l)).
      constructor; [apply Z.ltb_lt in E; lia | assumption].
    + apply Z.ltb_ge in E. split; [|now split].
      constructor; [assumption|].
      eapply Forall_impl; [|exact Hy]. cbv beta. intros; lia.
Qed.

Lemma sortByKey_ascending (key : RGB -> Z) (l : list RGB) :
  ascending key (sortByKey key l).
Proof.
  induction l as [|x l IH]; [exact I|].
  cbn [sortByKey fold_right]. fold (sortByKey key l).
  now apply insertByKey_ascending.
Qed.

Lemma ascending_split (key : RGB -> Z) (l : list RGB) (n : nat) :
  ascending key l ->
  forall a b, In a (firstn n l) -> In b (skipn n l) -> key a <= key b.
Proof.
  revert n. induction l as [|x l IH]; intros n Hasc a b Ha Hb.
  - destruct n; destruct Ha.
  - destruct n as [|n]; [destruct Ha|].
    cbn [firstn skipn] in Ha, Hb. destruct Hasc as [Hx Hl].
    destruct Ha as [<-|Ha].
    + rewrite Forall_forall in Hx. apply Hx.
      rewrite <- (firstn_skipn n l). apply in_or_app. now right.
    + now apply (IH n).
Qed.

Lemma half_bounds (n : nat) : (2 <= n -> 0 < n / 2 < n)%nat.
Proof.
  intros Hn. split.
  - apply Nat.div_str_pos. lia.
  - apply Nat.div_lt; lia.
Qed.

Lemma splitBucket_parts (pixels : list RGB) :
  Permutation (fst (splitBucket pixels) ++ snd (splitBucket pixels)) pixels /\
  ((2 <= length pixels)%nat ->
     length (fst (splitBucket pixels)) = (length pixels / 2)%nat /\
     length (snd (splitBucket pixels)) = (length pixels - length pixels / 2)%nat).
Proof.
  unfold splitBucket.
  destruct (length pixels <=? 1)%nat eqn:E.
  - cbn [fst snd]. rewrite app_nil_r. split; [reflexivity|].
    apply Nat.leb_le in E. lia.
  - cbv zeta. cbn [fst snd]. rewrite firstn_skipn. split.
    + symmetry. apply sortByKey_perm.
    + intros Hn.
      pose proof (Permutation_length (sortByKey_perm (splitChannel pixels) pixels)) as HL.
      rewrite <- HL. pose proof (half_bounds _ Hn).
      rewrite length_firstn, length_skipn. lia.
Qed.

(** X24.  [splitBucket] returns a bucket of at most one pixel unchanged,
    with an empty second half.  In every case the two halves together hold
    the pixels of the bucket, each as often as the bucket does, and no pixel
    of the first half exceeds a pixel of the second in the channel sorted
    by; that channel is one of widest range.  For two pixels or more the
    first half has half of them, rounded down, the second the rest, and
    neither is empty. *)
Theorem splitBucket_spec (pixels : list RGB) :
  let bucket1 := fst (splitBucket pixels) in
  let bucket2 := snd (splitBucket pixels) in
  ((length pixels <= 1)%nat -> bucket1 = pixels /\ bucket2 = []) /\
  Permutation (bucket1 ++ bucket2) pixels /\
  (forall a b, In a bucket1 -> In b bucket2 ->
     splitChannel pixels a <= splitChannel pixels b) /\
  (let bounds := channelBounds pixels in
   (splitChannel pixels = rgb_r /\
      rMax bounds - rMin bounds >= gMax bounds - gMin bounds /\
      rMax bounds - rMin bounds >= bMax bounds - bMin bounds) \/
   (splitChannel pixels = rgb_g /\
      gMax bounds - gMin bounds >= rMax bounds - rMin bounds /\
      gMax bounds - gMin bounds >= bMax bounds - bMin bounds) \/
   (splitChannel pixels = rgb_b /\
      bMax bounds - bMin bounds >= rMax bounds - rMin bounds /\
      bMax bounds - bMin bounds >= gMax bounds - gMin bounds)) /\
  ((2 <= length pixels)%nat ->
     length bucket1 = (length pixels / 2)%nat /\
     length bucket2 = (length pixels - length pixels / 2)%nat /\
     bucket1 <> [] /\ bucket2 <> []).
Proof.
  cbv zeta. split; [|split; [|split; [|split]]].
  - intros Hn. unfold splitBucket.
    apply Nat.leb_le in Hn. rewrite Hn. now split.
  - apply splitBucket_parts.
  - intros a b. unfold splitBucket.
    destruct (length pixels <=? 1)%nat; cbn [fst snd]; [intros _ []|].
    apply ascending_split, sortByKey_ascending.
  - unfold splitChannel. cbv zeta.
    set (bounds := channelBounds pixels).
    destruct (rMax bounds - rMin bounds >=? gMax bounds - gMin bounds) eqn:E1;
      destruct (rMax bounds - rMin bounds >=? bMax bounds - bMin bounds) eqn:E2;
      destruct (gMax bounds - gMin bounds >=? bMax bounds - bMin bounds) eqn:E3;
      cbn [andb]; rewrite ?Z.geb_leb in *;
      try apply Z.leb_le in E1; try apply Z.leb_gt in E1;
      try apply Z.leb_le in E2; try apply Z.leb_gt in E2;
      try apply Z.leb_le in E3; try apply Z.leb_gt in E3;
      first [ left; split; [reflexivity | lia]
            | right; left; split; [reflexivity | lia]
            | right; right; split; [reflexivity | lia] ].
  - intros Hn. destruct (splitBucket_parts pixels) as [_ HL].
    destruct (HL Hn) as [L1 L2]. pose proof (half_bounds _ Hn).
    split; [assumption|]. split; [assumption|].
    split; intros E; rewrite E in *; cbn [length] in *; lia.
Qed.

Lemma splitBucket_spec_witness :
  length (fst (splitBucket [mkRGB 200 10 10; mkRGB 20 10 10; mkRGB 90 10 10])) = 1%nat.
Proof.
  apply (proj2 (proj2 (proj2 (proj2
           (splitBucket_spec [mkRGB 200 10 10; mkRGB 20 10 10; mkRGB 90 10 10]))))).
  simpl. lia.
Defined.

(** ** [medianCutPalette] *)

Lemma widestBucket_max (buckets : list (list RGB)) (i maxRange maxRangeIndex : Z) :
  maxRange <= fst (widestBucket buckets i maxRange maxRangeIndex) /\
  Forall (fun b => getColorRange b <= fst (widestBucket buckets i maxRange maxRangeIndex))
         buckets.
Proof.
  revert i maxRange maxRangeIndex.
  induction buckets as [|b bs IH]; intros i mr mi; cbn [widestBucket].
  - split; [cbn; lia | constructor].
  - cbv zeta. destruct (getColorRange b >? mr) eqn:E.
    + destruct (IH (i + 1) (getColorRange b) i) as [H1 H2].
      apply Z.gtb_lt in E. split; [lia|]. now constructor.
    + destruct (IH (i + 1) mr mi) as [H1 H2].
      rewrite Z.gtb_ltb in E. apply Z.ltb_ge in E.
      split; [assumption|]. constructor; [lia | assumption].
Qed.

(** Either no bucket beat the initial range, or the index found is the
    position of a bucket whose range is the range found. *)
Lemma widestBucket_found (buckets : list (list RGB)) (i maxRange maxRangeIndex : Z) :
  let r := fst (widestBucket buckets i maxRange maxRangeIndex) in
  let k := snd (widestBucket buckets i maxRange maxRangeIndex) in
  (r = maxRange /\ k = maxRangeIndex) \/
  (maxRange < r /\ i <= k < i + Z.of_nat (length buckets) /\
   getColorRange (nth (Z.to_nat (k - i)) buckets []) = r).
Proof.
  cbv zeta. revert i maxRange maxRangeIndex.
  induction buckets as [|b bs IH]; intros i mr mi; cbn [widestBucket]; [now left|].
  cbv zeta. rewrite length_cons, Nat2Z.inj_succ.
  destruct (getColorRange b >? mr) eqn:E.
  - apply Z.gtb_lt in E. right.
    destruct (IH (i + 1) (getColorRange b) i) as [[E1 E2]|(H1 & H2 & H3)].
    + rewrite E1, E2. split; [lia|]. split; [lia|].
      now rewrite Z.sub_diag.
    + split; [lia|]. split; [lia|].
      replace (Z.to_nat (snd (widestBucket bs (i + 1) (getColorRange b) i) - i))
        with (S (Z.to_nat (snd (widestBucket bs (i + 1) (getColorRange b) i) - (i + 1))))
        by lia.
      exact H3.
  - destruct (IH (i + 1) mr mi) as [[E1 E2]|(H1 & H2 & H3)]; [now left|].
    right. split; [lia|]. split; [lia|].
    replace (Z.to_nat (snd (widestBucket bs (i + 1) mr mi) - i))
      with (S (Z.to_nat (snd (widestBucket bs (i + 1) mr mi) - (i + 1)))) by lia.
    exact H3.
Qed.

Lemma nth_decompose {A : Type} (l : list A) (k : nat) (d : A) :
  (k < length l)%nat -> l = firstn k l ++ nth k l d :: skipn (S k) l.
Proof.
  revert k. induction l as [|x l IH]; intros k Hk; [cbn in Hk; lia|].
  destruct k as [|k]; [reflexivity|].
  cbn [firstn nth skipn app]. f_equal. apply IH. cbn in Hk. lia.
Qed.

(** One iteration of the loop: it leaves the buckets as they are, because
    there are [maxColors] of them or none has a positive range, or it
    replaces a bucket of positive range by its two halves. *)
Lemma medianCutLoop_step (fuel : nat) (maxColors : Z) (buckets : list (list RGB)) :
  (medianCutLoop (S fuel) maxColors buckets = buckets /\
   (maxColors <= Z.of_nat (length buckets) \/
    Forall (fun b => getColorRange b <= 0) buckets)) \/
  (Z.of_nat (length buckets) < maxColors /\
   exists l1 b l2,
     buckets = l1 ++ b :: l2 /\ 0 < getColorRange b /\
     medianCutLoop (S fuel) maxColors buckets =
     medianCutLoop fuel maxColors
       (l1 ++ fst (splitBucket b) :: snd (splitBucket b) :: l2)).
Proof.
  cbn [medianCutLoop].
  destruct (Z.of_nat (length buckets) <? maxColors) eqn:Elen.
  2:{ left. apply Z.ltb_ge in Elen. split; [reflexivity | now left]. }
  apply Z.ltb_lt in Elen.
  pose proof (widestBucket_found buckets 0 (-1) (-1)) as Hfound.
  pose proof (widestBucket_max buckets 0 (-1) (-1)) as [_ Hmax].
  cbv zeta in Hfound.
  destruct (widestBucket buckets 0 (-1) (-1)) as [r k]. cbn [fst snd] in *.
  destruct ((k =? -1) || (r =? 0)) eqn:Ebreak.
  - left. split; [reflexivity|]. right.
    eapply Forall_impl; [|exact Hmax]. cbv beta. intros b Hb.
    apply orb_true_iff in Ebreak. destruct Ebreak as [Ek|Er].
    + apply Z.eqb_eq in Ek. destruct Hfound as [[-> _]|(_ & Hk & _)]; lia.
    + apply Z.eqb_eq in Er. lia.
  - right. split; [assumption|].
    apply orb_false_iff in Ebreak. destruct Ebreak as [Ek Er].
    apply Z.eqb_neq in Ek, Er.
    destruct Hfound as [[_ ->]|(Hr & Hk & Hnth)]; [congruence|].
    rewrite Z.sub_0_r in Hnth.
    exists (firstn (Z.to_nat k) buckets), (nth (Z.to_nat k) buckets []),
           (skipn (S (Z.to_nat k)) buckets).
    split; [apply nth_decompose; lia|]. split; [lia|].
    destruct (splitBucket (nth (Z.to_nat k) buckets [])) as [bucket1 bucket2].
    reflexivity.
Qed.

(** A property of the buckets that splitting a bucket of positive range
    keeps holds after the loop. *)
Lemma medianCutLoop_invariant (P : list (list RGB) -> Prop) :
  (forall l1 b l2, P (l1 ++ b :: l2) -> 0 < getColorRange b ->
     P (l1 ++ fst (splitBucket b) :: snd (splitBucket b) :: l2)) ->
  forall fuel maxColors buckets, P buckets -> P (medianCutLoop fuel maxColors buckets).
Proof.
  intros Hstep fuel maxColors.
  induction fuel as [|fuel IH]; intros buckets HP; [exact HP|].
  destruct (medianCutLoop_step fuel maxColors buckets)
    as [[-> _]|(_ & l1 & b & l2 & -> & Hb & ->)]; [exact HP|].
  apply IH. now apply Hstep.
Qed.

Lemma medianCutLoop_perm (fuel : nat) (maxColors : Z) (buckets : list (list RGB)) :
  Permutation (concat (medianCutLoop fuel maxColors buckets)) (concat buckets).
Proof.
  apply (medianCutLoop_invariant
           (fun bs => Permutation (concat bs) (concat buckets))); [|reflexivity].
  intros l1 b l2 HP _. etransitivity; [|exact HP].
  rewrite !concat_app. apply Permutation_app_head.
  cbn [concat]. rewrite app_assoc. apply Permutation_app_tail.
  apply splitBucket_parts.
Qed.

Lemma medianCutLoop_length (fuel : nat) (maxColors : Z) (buckets : list (list RGB)) :
  Z.of_nat (length (medianCutLoop fuel maxColors buckets))
  <= Z.max maxColors (Z.of_nat (length buckets)).
Proof.
  revert buckets. induction fuel as [|fuel IH]; intros buckets; [cbn; lia|].
  destruct (medianCutLoop_step fuel maxColors buckets)
    as [[-> _]|(Hlen & l1 & b & l2 & -> & Hb & ->)]; [lia|].
  etransitivity; [apply IH|].
  rewrite !length_app in *. cbn [length] in *. lia.
Qed.

(** With one unit of fuel for every bucket still missing, the loop ends as
    the source's does: with [maxColors] buckets, or with no bucket of
    positive range. *)
Lemma medianCutLoop_stops (fuel : nat) (maxColors : Z) (buckets : list (list RGB)) :
  maxColors - Z.of_nat (length buckets) <= Z.of_nat fuel ->
  maxColors <= Z.of_nat (length (medianCutLoop fuel maxColors buckets)) \/
  Forall (fun b => getColorRange b <= 0) (medianCutLoop fuel maxColors buckets).
Proof.
  revert buckets. induction fuel as [|fuel IH]; intros buckets Hfuel.
  - left. cbn [medianCutLoop]. lia.
  - destruct (medianCutLoop_step fuel maxColors buckets)
      as [[-> Hstop]|(Hlen & l1 & b & l2 & -> & Hb & ->)]; [exact Hstop|].
    apply IH. rewrite !length_app in *. cbn [length] in *. lia.
Qed.

(** More fuel than that changes nothing. *)
Lemma medianCutLoop_fuel (fuel extra : nat) (maxColors : Z) (buckets : list (list RGB)) :
  maxColors - Z.of_nat (length buckets) <= Z.of_nat fuel ->
  medianCutLoop (fuel + extra) maxColors buckets = medianCutLoop fuel maxColors buckets.
Proof.
  revert buckets. induction fuel as [|fuel IH]; intros buckets Hfuel.
  - cbn [Nat.add medianCutLoop]. destruct extra as [|extra]; [reflexivity|].
    cbn [medianCutLoop].
    destruct (Z.of_nat (length buckets) <? maxColors) eqn:E; [|reflexivity].
    apply Z.ltb_lt in E. lia.
  - cbn [Nat.add medianCutLoop].
    destruct (Z.of_nat (length buckets) <? maxColors); [|reflexivity].
    destruct (widestBucket buckets 0 (-1) (-1)) as [r k].
    destruct ((k =? -1) || (r =? 0)); [reflexivity|].
    destruct (splitBucket (nth (Z.to_nat k) buckets [])) as [b1 b2].
    apply IH. unfold spliceTwo.
    rewrite !length_app, length_firstn, length_skipn. cbn [length]. lia.
Qed.

Lemma singleton_range (p : RGB) : byteRGB p -> getColorRange [p] = 0.
Proof.
  destruct p as [r g b]. unfold byteRGB, getColorRange, channelBounds.
  cbn. lia.
Qed.

(** On byte colours no bucket is ever empty. *)
Lemma medianCutLoop_bytes (fuel : nat) (maxColors : Z) (buckets : list (list RGB)) :
  Forall (fun b => b <> [] /\ Forall byteRGB b) buckets ->
  Forall (fun b => b <> [] /\ Forall byteRGB b) (medianCutLoop fuel maxColors buckets).
Proof.
  apply (medianCutLoop_invariant
           (fun bs => Forall (fun b => b <> [] /\ Forall byteRGB b) bs)).
  intros l1 b l2 HP Hb.
  apply Forall_app in HP. destruct HP as [H1 H2].
  inversion H2 as [|b' l2' [Hne Hbytes] H3]; subst.
  assert (Hlen : (2 <= length b)%nat).
  { destruct b as [|p [|q b']]; [congruence| |cbn; lia].
    inversion Hbytes; subst. rewrite singleton_range in Hb by assumption. lia. }
  destruct (splitBucket_parts b) as [Hperm HL].
  destruct (HL Hlen) as [L1 L2]. pose proof (half_bounds _ Hlen) as Hhalf.
  apply (Permutation_Forall (Permutation_sym Hperm)) in Hbytes.
  apply Forall_app in Hbytes. destruct Hbytes as [B1 B2].
  apply Forall_app. split; [assumption|].
  constructor; [|constructor; [|assumption]].
  - split; [|assumption]. intros E. rewrite E in L1. cbn [length] in L1. lia.
  - split; [|assumption]. intros E. rewrite E in L2. cbn [length] in L2. lia.
Qed.

Local Open Scope R_scope.

Lemma results_sum (buckets : list (list RGB)) :
  sumFrequency
    (flat_map (fun bucket =>
                 if (0 <? length bucket)%nat then [bucketResult bucket] else [])
              buckets)
  = IZR (Z.of_nat (length (concat buckets))).
Proof.
  induction buckets as [|b bs IH]; [reflexivity|].
  cbn [flat_map concat]. rewrite sumFrequency_app, IH.
  rewrite length_app, Nat2Z.inj_add, plus_IZR.
  destruct b as [|p b]; cbn [length].
  - change (0 <? 0)%nat with false. unfold sumFrequency; cbn. lra.
  - change (0 <? S (length b))%nat with true.
    unfold sumFrequency, bucketResult; cbn [fold_right frequency length]. lra.
Qed.

Lemma results_length (buckets : list (list RGB)) :
  (length (flat_map (fun bucket =>
                       if (0 <? length bucket)%nat then [bucketResult bucket] else [])
                    buckets)
   <= length buckets)%nat.
Proof.
  induction buckets as [|b bs IH]; [cbn; lia|].
  cbn [flat_map]. rewrite length_app.
  destruct (0 <? length b)%nat; cbn [length]; lia.
Qed.

Lemma results_nonempty (buckets : list (list RGB)) :
  concat buckets <> [] ->
  (1 <= length (flat_map (fun bucket =>
                            if (0 <? length bucket)%nat then [bucketResult bucket] else [])
                         buckets))%nat.
Proof.
  induction buckets as [|b bs IH]; [cbn; congruence|].
  cbn [flat_map concat]. rewrite length_app.
  destruct b as [|p b]; cbn [length app].
  - change (0 <? 0)%nat with false. intros H. specialize (IH H). cbn [length]. lia.
  - change (0 <? S (length b))%nat with true. intros _. cbn [length]. lia.
Qed.

Lemma results_frequencies (buckets : list (list RGB)) :
  Forall (fun c => 1 <= frequency c /\ clusterSize c = frequency c)
    (flat_map (fun bucket =>
                 if (0 <? length bucket)%nat then [bucketResult bucket] else [])
              buckets).
Proof.
  induction buckets as [|b bs IH]; [constructor|].
  cbn [flat_map]. apply Forall_app. split; [|assumption].
  destruct b as [|p b]; cbn [length].
  - change (0 <? 0)%nat with false. constructor.
  - change (0 <? S (length b))%nat with true. constructor; [|constructor].
    unfold bucketResult; cbn [frequency clusterSize]. split; [|reflexivity].
    apply IZR_le. cbn [length]. lia.
Qed.

Lemma results_of_nonempty (buckets : list (list RGB)) :
  Forall (fun b => b <> []) buckets ->
  flat_map (fun bucket =>
              if (0 <? length bucket)%nat then [bucketResult bucket] else [])
           buckets
  = map bucketResult buckets.
Proof.
  induction 1 as [|b bs Hb _ IH]; [reflexivity|].
  cbn [flat_map map]. rewrite IH.
  destruct b as [|p b]; [congruence | reflexivity].
Qed.

Lemma sortedDesc_constant (f : R) (l : list ColorResult) :
  Forall (fun c => frequency c = f) l -> sortedDesc l.
Proof.
  induction 1 as [|x l Hx Hl IH]; [exact I|].
  cbn [sortedDesc]. split; [|assumption].
  intros y Hy. rewrite Forall_forall in Hl. rewrite (Hl y Hy), Hx. lra.
Qed.

(** X25.  [medianCutPalette] returns nothing for no pixels.  Otherwise the
    frequencies of its results add up to the number of pixels, so no pixel
    is lost or counted twice; there is at least one result and at most
    [maxColors] of them (one, if [maxColors] is below 1); every result
    stands for at least one pixel, with [clusterSize] equal to [frequency];
    and the results come in descending order of frequency. *)
Theorem medianCutPalette_spec :
  (forall maxColors, medianCutPalette [] maxColors = []) /\
  (forall rgbPixels maxColors, rgbPixels <> [] ->
     let results := medianCutPalette rgbPixels maxColors in
     sumFrequency results = IZR (Z.of_nat (length rgbPixels)) /\
     (1 <= length results)%nat /\
     (Z.of_nat (length results) <= Z.max maxColors 1)%Z /\
     Forall (fun c => 1 <= frequency c /\ clusterSize c = frequency c) results /\
     sortedDesc results).
Proof.
  split; [reflexivity|].
  intros rgbPixels maxColors Hne. cbv zeta. unfold medianCutPalette.
  destruct rgbPixels as [|p0 rest]; [congruence|].
  set (rgbPixels := p0 :: rest) in *.
  change (length rgbPixels =? 0)%nat with false. cbv iota.
  destruct (maxColors >=? Z.of_nat (length rgbPixels))%Z eqn:Emany.
  - rewrite Z.geb_leb in Emany. apply Z.leb_le in Emany.
    set (one := fun rgb0 : RGB =>
                  {| color := rgbToHex rgb0; rgb := rgb0; lab := rgbToLab rgb0;
                     frequency := 1; clusterSize := 1 |}).
    assert (Hall : Forall (fun c => frequency c = 1 /\ clusterSize c = 1)
                          (map one rgbPixels)).
    { apply Forall_map. apply Forall_forall. intros x _. now split. }
    rewrite length_map. split; [|split; [|split; [|split]]].
    + clear Hall Emany Hne. clearbody rgbPixels.
      induction rgbPixels as [|x l IH]; [reflexivity|].
      cbn [map]. rewrite sumFrequency_cons, IH.
      rewrite length_cons, Nat2Z.inj_succ, succ_IZR. cbn [one frequency]. lra.
    + subst rgbPixels. cbn [length]. lia.
    + lia.
    + eapply Forall_impl; [|exact Hall]. cbv beta. intros c [-> ->]. split; [lra|reflexivity].
    + apply (sortedDesc_constant 1). eapply Forall_impl; [|exact Hall].
      cbv beta. tauto.
  - cbv zeta.
    set (buckets := medianCutLoop (Z.to_nat maxColors) maxColors [rgbPixels]).
    set (results := flat_map _ buckets).
    pose proof (medianCutLoop_perm (Z.to_nat maxColors) maxColors [rgbPixels]) as Hperm.
    fold buckets in Hperm. cbn [concat] in Hperm. rewrite app_nil_r in Hperm.
    pose proof (sortByFrequencyDesc_perm results) as Hsort.
    split; [|split; [|split; [|split]]].
    + rewrite sortByFrequencyDesc_sum. unfold results. rewrite results_sum.
      now rewrite (Permutation_length Hperm).
    + rewrite <- (Permutation_length Hsort). apply results_nonempty.
      intros E. rewrite E in Hperm. apply Permutation_nil in Hperm. discriminate.
    + rewrite <- (Permutation_length Hsort).
      pose proof (results_length buckets) as H1. fold results in H1.
      pose proof (medianCutLoop_length (Z.to_nat maxColors) maxColors [rgbPixels]) as H2.
      fold buckets in H2. cbn [length] in H2. lia.
    + apply (Permutation_Forall Hsort). apply results_frequencies.
    + apply sortByFrequencyDesc_sorted.
Qed.

Lemma medianCutPalette_spec_witness :
  sumFrequency (medianCutPalette [mkRGB 200 10 10; mkRGB 20 10 10; mkRGB 90 10 10] 2) = 3.
Proof.
  apply (proj2 medianCutPalette_spec [mkRGB 200 10 10; mkRGB 20 10 10; mkRGB 90 10 10] 2%Z).
  discriminate.
Defined.

(** X26.  On byte colours, with [maxColors] at least 1 and below the number
    of pixels, the buckets of [medianCutPalette] are non-empty and share out
    the pixels, each pixel going to one bucket; the results are one entry
    per bucket, with the bucket's centroid and size; and the number of
    buckets is [maxColors], unless the splitting stopped because every
    bucket holds one colour only. *)
Theorem medianCut_buckets (rgbPixels : list RGB) (maxColors : Z) :
  Forall byteRGB rgbPixels ->
  (1 <= maxColors < Z.of_nat (length rgbPixels))%Z ->
  let buckets := medianCutBuckets rgbPixels maxColors in
  Permutation (concat buckets) rgbPixels /\
  Forall (fun b => b <> []) buckets /\
  Permutation (map bucketResult buckets) (medianCutPalette rgbPixels maxColors) /\
  (Z.of_nat (length buckets) = maxColors \/
   Forall (fun b => forall p q, In p b -> In q b -> p = q) buckets).
Proof.
  intros Hbytes HM. cbv zeta. unfold medianCutBuckets.
  set (buckets := medianCutLoop (Z.to_nat maxColors) maxColors [rgbPixels]).
  assert (Hne : rgbPixels <> []).
  { intros ->. cbn in HM. lia. }
  assert (Hinv : Forall (fun b => b <> [] /\ Forall byteRGB b) buckets).
  { apply medianCutLoop_bytes. constructor; [now split | constructor]. }
  assert (Hnonempty : Forall (fun b : list RGB => b <> []) buckets).
  { eapply Forall_impl; [|exact Hinv]. cbv beta. tauto. }
  split; [|split; [|split]].
  - pose proof (medianCutLoop_perm (Z.to_nat maxColors) maxColors [rgbPixels]) as Hperm.
    cbn [concat] in Hperm. now rewrite app_nil_r in Hperm.
  - exact Hnonempty.
  - unfold medianCutPalette.
    destruct rgbPixels as [|p0 rest]; [congruence|].
    change (length (p0 :: rest) =? 0)%nat with false. cbv iota.
    replace (maxColors >=? Z.of_nat (length (p0 :: rest)))%Z with false
      by (symmetry; rewrite Z.geb_leb; apply Z.leb_gt; lia).
    cbv zeta. fold buckets. rewrite (results_of_nonempty _ Hnonempty).
    apply sortByFrequencyDesc_perm.
  - destruct (medianCutLoop_stops (Z.to_nat maxColors) maxColors [rgbPixels]) as [Hfull|Hflat].
    + cbn [length]. lia.
    + left. fold buckets in Hfull.
      pose proof (medianCutLoop_length (Z.to_nat maxColors) maxColors [rgbPixels]) as Hle.
      fold buckets in Hle. cbn [length] in Hle. lia.
    + right. fold buckets in Hflat.
      apply Forall_forall. intros b Hb.
      rewrite Forall_forall in Hflat, Hinv.
      destruct (Hinv b Hb) as [Hbne Hbbytes].
      destruct (getColorRange_bytes b Hbne Hbbytes) as (Hrange & _ & Hzero).
      apply Hzero. specialize (Hflat b Hb). cbv beta in Hflat. lia.
Qed.

Lemma medianCut_buckets_witness :
  Permutation
    (concat (medianCutBuckets [mkRGB 200 10 10; mkRGB 20 10 10; mkRGB 90 10 10] 2))
    [mkRGB 200 10 10; mkRGB 20 10 10; mkRGB 90 10 10].
Proof.
  apply (medianCut_buckets [mkRGB 200 10 10; mkRGB 20 10 10; mkRGB 90 10 10] 2%Z).
  - repeat constructor; simpl; lia.
  - simpl. lia.
Defined.

Local Close Scope R_scope.

(** ** [rgbToLab] *)

Local Open Scope R_scope.

Lemma Rpower_one (a : R) : Rpower 1 a = 1.
Proof. unfold Rpower. now rewrite ln_1, Rmult_0_r, exp_0. Qed.

Lemma Rpower_le_one (x a : R) : 0 < x <= 1 -> 0 <= a -> 0 < Rpower x a <= 1.
Proof.
  intros [Hx0 Hx1] Ha. split; [apply exp_pos|].
  rewrite <- (Rpower_one a). apply Rle_Rpower_l; [assumption | now split].
Qed.

Lemma cube_root_cube (x : R) : 0 < x -> Rpower (x * x * x) (1 / 3) = x.
Proof.
  intros Hx. replace (x * x * x) with (x ^ 3) by ring.
  rewrite <- (Rpower_pow 3 x Hx), Rpower_mult.
  replace (INR 3 * (1 / 3)) with 1 by (simpl; field).
  now apply Rpower_1.
Qed.

Lemma gammaExpand_bounds (c : R) : 0 <= c <= 1 -> 0 <= gammaExpand c <= 1.
Proof.
  intros [H0 H1]. unfold gammaExpand.
  destruct (Rgt_dec c 0.04045) as [Hc|Hc].
  - assert (Hbase : 0 < (c + 0.055) / 1.055 <= 1).
    { split.
      - apply Rdiv_lt_0_compat; lra.
      - apply (Rmult_le_reg_r 1.055); [lra|].
        unfold Rdiv. rewrite Rmult_assoc, Rinv_l by lra. lra. }
    destruct (Rpower_le_one _ 2.4 Hbase) as [Hp0 Hp1]; [lra|]. lra.
  - lra.
Qed.

Lemma labF_bounds (t : R) :
  0 <= t <= 1.0000001 -> 16 / 116 <= labF t <= 1.0000001.
Proof.
  intros [H0 H1]. unfold labF.
  destruct (Rgt_dec t 0.008856) as [Ht|Ht]; [|lra].
  split.
  - rewrite <- (cube_root_cube (16 / 116)) at 1 by lra.
    apply Rle_Rpower_l; [lra|]. split; [|lra].
    assert (Hq : 0 < 16 / 116) by lra.
    exact (Rmult_lt_0_compat _ _ (Rmult_lt_0_compat _ _ Hq Hq) Hq).
  - destruct (Rle_dec t 1) as [Hle|Hgt].
    + destruct (Rpower_le_one t (1 / 3)) as [_ Hp]; [lra | lra | lra].
    + apply Rle_trans with (Rpower t 1).
      * apply Rle_Rpower; lra.
      * rewrite Rpower_1; lra.
Qed.

Lemma channel_unit (v : Z) : (0 <= v <= 255)%Z -> 0 <= IZR v / 255 <= 1.
Proof.
  intros [H0 H1]. apply IZR_le in H0, H1. split.
  - apply Rmult_le_pos; lra.
  - apply (Rmult_le_reg_r 255); [lra|].
    unfold Rdiv. rewrite Rmult_assoc, Rinv_l by lra. lra.
Qed.

(** X27.  [rgbToLab] maps black to lightness 0 with [a = b = 0].  The
    lightness of a byte colour lies between 0 and 100.0000116; the upper
    end is not 100 because the three coefficients of [y] add up to
    1.0000001, and the lightness of white does exceed 100. *)
Theorem rgbToLab_lightness :
  rgbToLab {| rgb_r := 0; rgb_g := 0; rgb_b := 0 |}
    = {| lab_l := 0; lab_a := 0; lab_b := 0 |} /\
  (forall c, byteRGB c -> 0 <= lab_l (rgbToLab c) <= 100.0000116) /\
  100 < lab_l (rgbToLab {| rgb_r := 255; rgb_g := 255; rgb_b := 255 |}).
Proof.
  split; [|split].
  - unfold rgbToLab. cbn [rgb_r rgb_g rgb_b]. cbv zeta.
    replace (0 / 255) with 0 by lra.
    assert (G0 : gammaExpand 0 = 0).
    { unfold gammaExpand. destruct (Rgt_dec 0 0.04045); lra. }
    rewrite G0.
    replace ((0 * 0.4124564 + 0 * 0.3575761 + 0 * 0.1804375) / 0.95047) with 0 by lra.
    replace ((0 * 0.2126729 + 0 * 0.7151522 + 0 * 0.0721750) / 1.00000) with 0 by lra.
    replace ((0 * 0.0193339 + 0 * 0.1191920 + 0 * 0.9503041) / 1.08883) with 0 by lra.
    assert (F0 : labF 0 = 16 / 116).
    { unfold labF. destruct (Rgt_dec 0 0.008856); lra. }
    rewrite F0. f_equal; lra.
  - intros c (Hr & Hg & Hb). unfold rgbToLab. cbv zeta. cbn [lab_l].
    pose proof (gammaExpand_bounds _ (channel_unit _ Hr)) as Gr.
    pose proof (gammaExpand_bounds _ (channel_unit _ Hg)) as Gg.
    pose proof (gammaExpand_bounds _ (channel_unit _ Hb)) as Gb.
    set (r := gammaExpand (IZR (rgb_r c) / 255)) in *.
    set (g := gammaExpand (IZR (rgb_g c) / 255)) in *.
    set (b := gammaExpand (IZR (rgb_b c) / 255)) in *.
    destruct (labF_bounds ((r * 0.2126729 + g * 0.7151522 + b * 0.0721750) / 1.00000))
      as [F1 F2]; [lra | lra].
  - unfold rgbToLab. cbn [rgb_r rgb_g rgb_b]. cbv zeta. cbn [lab_l].
    replace (255 / 255) with 1 by lra.
    assert (G1 : gammaExpand 1 = 1).
    { unfold gammaExpand. destruct (Rgt_dec 1 0.04045); [|lra].
      replace ((1 + 0.055) / 1.055) with 1 by lra. apply Rpower_one. }
    rewrite G1.
    replace ((1 * 0.2126729 + 1 * 0.7151522 + 1 * 0.0721750) / 1.00000)
      with 1.0000001 by lra.
    unfold labF. destruct (Rgt_dec 1.0000001 0.008856); [|lra].
    assert (1 < Rpower 1.0000001 (1 / 3)); [|lra].
    rewrite <- (Rpower_O 1.0000001) at 1 by lra.
    apply Rpower_lt; lra.
Qed.

Lemma rgbToLab_lightness_witness :
  0 <= lab_l (rgbToLab {| rgb_r := 220; rgb_g := 28; rgb_b := 37 |}) <= 100.0000116.
Proof.
  apply (proj1 (proj2 rgbToLab_lightness) {| rgb_r := 220; rgb_g := 28; rgb_b := 37 |}).
  unfold byteRGB. simpl. lia.
Defined.

Local Close Scope R_scope.

(** ** [getContrastColor] *)

(** Two digits written by [toHex] are read back by [parseInt]. *)
Lemma parseInt16_digits (a b : Z) :
  0 <= a <= 15 -> 0 <= b <= 15 ->
  parseInt16 (String (hexDigit a) (String (hexDigit b) EmptyString)) = Some (16 * a + b).
Proof.
  intros Ha Hb.
  assert (HA : a = 0 \/ a = 1 \/ a = 2 \/ a = 3 \/ a = 4 \/ a = 5 \/ a = 6 \/ a = 7 \/
               a = 8 \/ a = 9 \/ a = 10 \/ a = 11 \/ a = 12 \/ a = 13 \/ a = 14 \/ a = 15)
    by lia.
  assert (HB : b = 0 \/ b = 1 \/ b = 2 \/ b = 3 \/ b = 4 \/ b = 5 \/ b = 6 \/ b = 7 \/
               b = 8 \/ b = 9 \/ b = 10 \/ b = 11 \/ b = 12 \/ b = 13 \/ b = 14 \/ b = 15)
    by lia.
  clear Ha Hb.
  repeat (destruct HA as [->|HA]);
    [ .. | subst a ];
    repeat (destruct HB as [->|HB]); try subst b; reflexivity.
Qed.

Lemma parseInt16_toHex (n : Z) : 0 <= n <= 255 -> parseInt16 (toHex n) = Some n.
Proof.
  intros Hn. unfold toHex. cbv zeta.
  rewrite Z.min_r, Z.max_r by lia.
  destruct (byte_digits n Hn) as [Hd Hm].
  rewrite (parseInt16_digits _ _ Hd Hm). f_equal.
  pose proof (Z.div_mod n 16 ltac:(lia)). lia.
Qed.

(** ** [mergeSimilarColors] *)

Local Open Scope R_scope.

Lemma mergeThreshold_le (baseColor : ColorResult) : mergeThreshold baseColor <= 3.
Proof. unfold mergeThreshold. destruct (isRedColor baseColor); lra. Qed.

Lemma mergeStepPlain_eq (colors : list ColorResult) (baseColor : ColorResult)
    (j : nat) (acc : MergeAcc) :
  (forall c, nth_error colors j = Some c ->
     labDistanceCIE94 (lab baseColor) (lab c) < 10 ->
     labDistanceCIE94 (lab baseColor) (lab c) < mergeThreshold baseColor) ->
  mergeStepPlain colors baseColor j acc = mergeStep colors baseColor j acc.
Proof.
  intros H. unfold mergeStepPlain, mergeStep.
  destruct (used_has j (acc_used acc)); [reflexivity|].
  destruct (nth_error colors j) as [c|]; [|reflexivity].
  cbv zeta. pose proof (mergeThreshold_le baseColor).
  destruct (Rlt_dec _ 10) as [H1|H1]; destruct (Rlt_dec _ (mergeThreshold baseColor)) as [H2|H2];
    try reflexivity.
  - exfalso. apply H2. now apply H.
  - exfalso. lra.
Qed.

Lemma for_index_ext {St : Type} (lo hi : nat) (f g : nat -> St -> St) (s : St) :
  (forall j st, (lo <= j < hi)%nat -> f j st = g j st) ->
  for_index lo hi f s = for_index lo hi g s.
Proof.
  intros H. unfold for_index.
  assert (Hin : forall j, In j (seq lo (hi - lo)) -> (lo <= j < hi)%nat).
  { intros j Hj. apply in_seq in Hj. lia. }
  revert s Hin. generalize (seq lo (hi - lo)) as l.
  induction l as [|j l IH]; intros s Hin; [reflexivity|].
  cbn [fold_left]. rewrite (H j s) by (apply Hin; now left).
  apply IH. intros k Hk. apply Hin. now right.
Qed.

Lemma mergeLoopPlain_eq (colors : list ColorResult) (maxColors : Z) :
  (forall i j baseColor c, (i < j)%nat ->
     nth_error colors i = Some baseColor -> nth_error colors j = Some c ->
     labDistanceCIE94 (lab baseColor) (lab c) < 10 ->
     labDistanceCIE94 (lab baseColor) (lab c) < mergeThreshold baseColor) ->
  forall fuel i merged used,
    mergeLoopPlain colors maxColors fuel i merged used
    = mergeLoop colors maxColors fuel i merged used.
Proof.
  intros H. induction fuel as [|fuel IH]; intros i merged used; [reflexivity|].
  cbn [mergeLoopPlain mergeLoop].
  destruct ((i <? length colors)%nat && (Z.of_nat (length merged) <? maxColors)%Z);
    [|reflexivity].
  destruct (used_has i used); [apply IH|].
  destruct (nth_error colors i) as [baseColor|] eqn:Ei; [|reflexivity].
  cbv zeta.
  assert (E : mergeGroupPlain colors i baseColor used = mergeGroup colors i baseColor used).
  { unfold mergeGroupPlain, mergeGroup. cbv zeta. apply for_index_ext.
    intros j st Hj. apply mergeStepPlain_eq. intros c Ec.
    apply (H i j baseColor c); [lia | assumption | assumption]. }
  rewrite E. apply IH.
Qed.

(** X29.  [mergeSimilarColors], the merger with the fixed threshold 10,
    returns a list that is not longer than [maxColors] as it is.  It agrees
    with [mergeSimilarColorsConservative] on every list in which no colour
    lies at a distance below 10 from an earlier colour without also lying
    below that colour's conservative threshold.  The two differ otherwise:
    two reds 3 apart, capped at one colour, are merged into one entry of
    their combined frequency by the first, while the second keeps the first
    red alone. *)
Theorem mergeSimilarColors_spec :
  (forall colors maxColors, (Z.of_nat (length colors) <= maxColors)%Z ->
     mergeSimilarColors colors maxColors = colors) /\
  (forall colors maxColors,
     (forall i j baseColor c, (i < j)%nat ->
        nth_error colors i = Some baseColor -> nth_error colors j = Some c ->
        labDistanceCIE94 (lab baseColor) (lab c) < 10 ->
        labDistanceCIE94 (lab baseColor) (lab c) < mergeThreshold baseColor) ->
     mergeSimilarColors colors maxColors = mergeSimilarColorsConservative colors maxColors) /\
  (map frequency (mergeSimilarColors [redA; redB] 1) = [35] /\
   map frequency (mergeSimilarColorsConservative [redA; redB] 1) = [20]).
Proof.
  split; [|split; [|split]].
  - intros colors maxColors Hlen. unfold mergeSimilarColors.
    apply Z.leb_le in Hlen. now rewrite Hlen.
  - intros colors maxColors H.
    unfold mergeSimilarColors, mergeSimilarColorsConservative.
    destruct (Z.of_nat (length colors) <=? maxColors)%Z; [reflexivity|].
    now apply mergeLoopPlain_eq.
  - unfold mergeSimilarColors. cbn [length Z.of_nat Z.leb Z.compare Pos.of_succ_nat
      Pos.succ Pos.compare Pos.compare_cont].
    cbn [mergeLoopPlain length Nat.ltb Nat.leb andb Z.of_nat Z.ltb Z.compare used_has
         existsb nth_error].
    cbv zeta. unfold mergeGroupPlain, for_index. cbn [length Nat.sub seq fold_left].
    unfold mergeStepPlain. cbn [acc_used used_has existsb nth_error]. cbv zeta.
    rewrite reds_distance.
    destruct (Rlt_dec 3 10) as [_|Hn]; [|exfalso; lra].
    cbn [app length Z.of_nat Pos.of_succ_nat Z.ltb Z.compare Pos.compare Pos.compare_cont
         Nat.ltb Nat.leb andb map mergedEntry frequency totalFrequency redA redB].
    f_equal. lra.
  - unfold mergeSimilarColorsConservative. cbn [length Z.of_nat Z.leb Z.compare
      Pos.of_succ_nat Pos.succ Pos.compare Pos.compare_cont].
    cbn [mergeLoop length Nat.ltb Nat.leb andb Z.of_nat Z.ltb Z.compare used_has
         existsb nth_error].
    cbv zeta. unfold mergeGroup, for_index. cbn [length Nat.sub seq fold_left].
    unfold mergeStep. cbn [acc_used used_has existsb nth_error]. cbv zeta.
    rewrite reds_distance.
    replace (mergeThreshold redA) with 1.5 by reflexivity.
    destruct (Rlt_dec 3 1.5) as [Hn|_]; [exfalso; lra|].
    cbn [app length Z.of_nat Pos.of_succ_nat Z.ltb Z.compare Pos.compare Pos.compare_cont
         Nat.ltb Nat.leb andb map mergedEntry frequency totalFrequency redA redB].
    reflexivity.
Qed.

Lemma mergeSimilarColors_spec_witness :
  mergeSimilarColors [grayA; grayB] 2 = [grayA; grayB].
Proof.
  apply (proj1 mergeSimilarColors_spec [grayA; grayB] 2%Z).
  simpl. lia.
Defined.

Local Close Scope R_scope.

(** ** [samplePixels] *)

Lemma sampleLoop_fuel (imageData : ImageData) (stride : Z) (fuel extra : nat) (i : Z)
    (pixels : list RGB) :
  1 <= stride ->
  Z.of_nat (length (data imageData)) - i <= Z.of_nat fuel ->
  sampleLoop imageData stride (fuel + extra) i pixels
  = sampleLoop imageData stride fuel i pixels.
Proof.
  intros Hs. revert i pixels.
  induction fuel as [|fuel IH]; intros i pixels Hfuel.
  - cbn [Nat.add sampleLoop]. destruct extra as [|extra]; [reflexivity|].
    cbn [sampleLoop].
    destruct (i <? Z.of_nat (length (data imageData))) eqn:E; [|reflexivity].
    apply Z.ltb_lt in E. cbn in Hfuel. lia.
  - cbn [Nat.add sampleLoop].
    destruct (i <? Z.of_nat (length (data imageData))); [|reflexivity].
    cbv zeta. apply IH. lia.
Qed.

(** [n] iterations reach the end of the data: the loop adds at most [n]
    pixels. *)
Lemma sampleLoop_length (imageData : ImageData) (stride : Z) (fuel : nat) (i : Z)
    (pixels : list RGB) (n : Z) :
  1 <= stride -> 0 <= n ->
  Z.of_nat (length (data imageData)) - i <= n * stride ->
  Z.of_nat (length (sampleLoop imageData stride fuel i pixels))
  <= Z.of_nat (length pixels) + n.
Proof.
  intros Hs. revert i pixels n.
  induction fuel as [|fuel IH]; intros i pixels n Hn Hreach; cbn [sampleLoop]; [lia|].
  destruct (i <? Z.of_nat (length (data imageData))) eqn:E; [|lia].
  apply Z.ltb_lt in E. cbv zeta.
  assert (Hn1 : 1 <= n) by nia.
  etransitivity; [apply (IH _ _ (n - 1)); [lia | nia]|].
  destruct (data_at imageData (i + 3) <? 128); [lia|].
  rewrite length_app. cbn [length]. lia.
Qed.

(** Every pixel the loop adds is an opaque pixel of the image. *)
Lemma sampleLoop_pixels (imageData : ImageData) (step : Z) (fuel : nat) (k : Z)
    (pixels : list RGB) (P : RGB -> Prop) :
  (forall j, 0 <= j -> 4 * j < Z.of_nat (length (data imageData)) ->
     128 <= alphaAt imageData j -> P (pixelAt imageData j)) ->
  0 <= step -> 0 <= k ->
  Forall P pixels ->
  Forall P (sampleLoop imageData (step * 4) fuel (4 * k) pixels).
Proof.
  intros HP Hs. revert k pixels.
  induction fuel as [|fuel IH]; intros k pixels Hk Hall; cbn [sampleLoop]; [assumption|].
  destruct (4 * k <? Z.of_nat (length (data imageData))) eqn:E; [|assumption].
  apply Z.ltb_lt in E. cbv zeta.
  replace (4 * k + step * 4) with (4 * (k + step)) by lia.
  apply IH; [lia|].
  destruct (data_at imageData (4 * k + 3) <? 128) eqn:Ea; [assumption|].
  apply Z.ltb_ge in Ea.
  apply Forall_app. split; [assumption|]. constructor; [|constructor].
  now apply (HP k).
Qed.

Lemma data_at_byte (imageData : ImageData) (idx : Z) :
  wf_image imageData -> 0 <= data_at imageData idx <= 255.
Proof.
  intros (_ & _ & _ & Hbytes). unfold data_at.
  destruct (Nat.lt_ge_cases (Z.to_nat idx) (length (data imageData))) as [Hlt|Hge].
  - rewrite Forall_forall in Hbytes. apply Hbytes. now apply nth_In.
  - rewrite nth_overflow by assumption. lia.
Qed.

(** X30.  [samplePixels] of the k-means extractor, on a well-formed image
    and for [maxSamples >= 1]: every sample is a pixel of the image with
    alpha at least 128, and a byte colour; there are at most as many
    samples as pixels, and at most [2 * maxSamples - 1].  The bound
    [maxSamples] itself does not hold: three opaque pixels sampled with
    [maxSamples = 2] give three samples. *)
Theorem samplePixels_spec :
  (forall imageData maxSamples, wf_image imageData -> 1 <= maxSamples ->
     let pixels := samplePixels imageData maxSamples in
     Forall (fun p => byteRGB p /\
                      exists k, 0 <= k < width imageData * height imageData /\
                                p = pixelAt imageData k /\ 128 <= alphaAt imageData k)
            pixels /\
     Z.of_nat (length pixels) <= width imageData * height imageData /\
     Z.of_nat (length pixels) <= 2 * maxSamples - 1) /\
  samplePixels opaque3x1 2 = [mkRGB 10 20 30; mkRGB 40 50 60; mkRGB 70 80 90].
Proof.
  split; [|reflexivity].
  intros imageData maxSamples Hwf Hm. cbv zeta.
  pose proof Hwf as (HW & HH & Hlen & Hbytes).
  unfold samplePixels.
  replace (maxSamples =? 0) with false by (symmetry; apply Z.eqb_neq; lia).
  cbv zeta.
  set (T := width imageData * height imageData) in *.
  set (step := Z.max 1 (T / maxSamples)).
  assert (HT : 1 <= T) by (unfold T; nia).
  assert (Hstep : 1 <= step) by (unfold step; lia).
  split; [|split].
  - apply (sampleLoop_pixels imageData step (length (data imageData)) 0 []);
      [|lia|lia|constructor].
    intros j Hj Hin Halpha. split.
    + unfold pixelAt, byteRGB. cbn [rgb_r rgb_g rgb_b].
      split; [|split]; now apply data_at_byte.
    + exists j. split; [|now split]. unfold T. lia.
  - etransitivity; [apply (sampleLoop_length _ _ _ _ _ T); nia|].
    cbn [length]. lia.
  - etransitivity; [apply (sampleLoop_length _ _ _ _ _ (2 * maxSamples - 1)); try lia|].
    + rewrite Hlen. fold T.
      pose proof (Z.div_mod T maxSamples ltac:(lia)) as Hdm.
      pose proof (Z.mod_pos_bound T maxSamples ltac:(lia)) as Hmod.
      pose proof (Z.div_pos T maxSamples ltac:(lia) ltac:(lia)) as Hq.
      destruct (Z.max_spec 1 (T / maxSamples)) as [[Hc E]|[Hc E]];
        unfold step; rewrite E; nia.
    + cbn [length]. lia.
Qed.

Lemma samplePixels_spec_witness :
  Z.of_nat (length (samplePixels opaque3x1 2)) <= 2 * 2 - 1.
Proof.
  apply (proj1 samplePixels_spec opaque3x1 2).
  - unfold wf_image. simpl. repeat split; try lia.
    repeat constructor; lia.
  - lia.
Defined.

(** * The grid partitioner on images within one cell *)

(** ** C5: images that fit in one cell *)

Lemma sections_count (W H S : Z) :
  1 <= W -> 1 <= H -> 1 <= S ->
  Z.of_nat (length (calculateGridSections W H S)) = ceilDiv W S * ceilDiv H S.
Proof.
  intros HW HH HS.
  destruct (side_split W S HW HS) as (EW & HRW & HQW).
  destruct (side_split H S HH HS) as (EH & HRH & HQH).
  rewrite calculateGridSections_rows, length_app, Nat2Z.inj_add.
  rewrite length_fullRows, Z2Nat.id by assumption.
  rewrite (ceilDiv_split H S), (ceilDiv_split W S) by assumption.
  unfold bottomRow.
  assert (Hz : forall i n, length (zseq i n) = n).
  { intros i n. revert i. induction n as [|n IH]; intros i; simpl; auto. }
  destruct (Z.rem H S >? 0).
  - rewrite length_app, length_map, Hz.
    destruct (Z.rem W S >? 0); simpl length; lia.
  - simpl length. lia.
Qed.

Lemma ceilDiv_one (a S : Z) : 1 <= a -> 1 <= S -> (ceilDiv a S = 1 <-> a <= S).
Proof.
  intros Ha HS. unfold ceilDiv. split.
  - intros E. destruct (Z.le_gt_cases a S) as [|Hgt]; [assumption|].
    assert (2 <= (a + S - 1) / S) by (apply Z.div_le_lower_bound; lia). lia.
  - intros Hle. symmetry. apply (Z.div_unique _ _ _ (a - 1)); lia.
Qed.

Lemma ceilDiv_pos (a S : Z) : 1 <= a -> 1 <= S -> 1 <= ceilDiv a S.
Proof.
  intros Ha HS. unfold ceilDiv. apply Z.div_le_lower_bound; lia.
Qed.

Lemma side_fits (a S : Z) :
  1 <= a -> a <= S ->
  (a / S = 0 /\ Z.rem a S = a /\ a < S) \/ (a / S = 1 /\ Z.rem a S = 0 /\ a = S).
Proof.
  intros Ha Hle. destruct (Z.eq_dec a S) as [->|Hne].
  - right. rewrite Z.div_same, Z.rem_same by lia. auto.
  - left. rewrite Z.div_small, Z.rem_small by lia. split; [|split]; lia.
Qed.

(** C5, amended.  For an image and a cell size of at least 1, the
    partitioner emits exactly one section, the whole image, if and only if
    neither side of the image exceeds the cell size ([W <= S] and
    [H <= S]); a side below the cell size is not enough when the other side
    exceeds it. *)
Theorem small_image_single_section (W H S : Z) :
  1 <= W -> 1 <= H -> 1 <= S ->
  (calculateGridSections W H S = [wholeImage W H] <-> W <= S /\ H <= S).
Proof.
  intros HW HH HS. split.
  - intros E.
    pose proof (sections_count W H S HW HH HS) as Hc. rewrite E in Hc.
    cbn [length Z.of_nat Pos.of_succ_nat] in Hc.
    pose proof (ceilDiv_pos W S HW HS). pose proof (ceilDiv_pos H S HH HS).
    assert (ceilDiv W S = 1 /\ ceilDiv H S = 1) as [E1 E2] by nia.
    split; [now apply (ceilDiv_one W S) | now apply (ceilDiv_one H S)].
  - intros [HWS HHS].
    unfold calculateGridSections, for_range, wholeImage.
    destruct (side_fits W S HW HWS) as [(-> & -> & HW')|(-> & -> & ->)];
      destruct (side_fits H S HH HHS) as [(-> & -> & HH')|(-> & -> & ->)];
      simpl;
      repeat match goal with
             | |- context [?a >? 0] => destruct (Z.gtb_spec a 0); [|lia]
             end;
      simpl; repeat f_equal; try lia; destruct S; try reflexivity; lia.
Qed.

(** A side equal to the cell size, the other below it. *)
Lemma small_image_single_section_witness :
  calculateGridSections 200 50 200 = [wholeImage 200 50].
Proof.
  apply (small_image_single_section 200 50 200); lia.
Defined.

(** * The merger in binary64 *)

(** ** C3: merge thresholds *)









(** * Sums and decisions under rounding *)

(** ** The factor of repeated roundings *)

Local Open Scope R_scope.

Lemma u_small : 0 < Rounded.u /\ Rounded.u <= / 1000000000000000.
Proof. unfold Rounded.u. lra. Qed.

Lemma accurate_bounds (rnd : R -> R) (x : R) :
  Rounded.accurate rnd ->
  / 100000000000000000000 <= x <= 100000000000000000000 ->
  (1 - Rounded.u) * x <= rnd x <= (1 + Rounded.u) * x.
Proof.
  intros Hacc Hx. specialize (Hacc x Hx).
  unfold Rabs in Hacc. destruct (Rcase_abs (rnd x - x)); lra.
Qed.

Lemma roundUp_accurate : Rounded.accurate Rounded.roundUp.
Proof.
  intros x Hx. unfold Rounded.roundUp. destruct u_small as [Hu _].
  replace (x * (1 + Rounded.u) - x) with (Rounded.u * x) by ring.
  rewrite Rabs_right; [lra|]. apply Rle_ge. apply Rmult_le_pos; lra.
Qed.

Lemma pow_up_ge_1 (n : nat) : 1 <= (1 + Rounded.u) ^ n.
Proof. destruct u_small. apply pow_R1_Rle. lra. Qed.

Lemma pow_down_le_1 (n : nat) : 0 < (1 - Rounded.u) ^ n <= 1.
Proof.
  destruct u_small. split.
  - apply pow_lt. lra.
  - apply Rle_trans with (1 ^ n); [apply pow_incr; lra | rewrite pow1; lra].
Qed.

Lemma pow_up_mono (n m : nat) : (n <= m)%nat -> (1 + Rounded.u) ^ n <= (1 + Rounded.u) ^ m.
Proof. destruct u_small. intros Hnm. apply Rle_pow; [lra | assumption]. Qed.

Lemma pow_down_mono (n m : nat) : (n <= m)%nat -> (1 - Rounded.u) ^ m <= (1 - Rounded.u) ^ n.
Proof.
  destruct u_small. intros Hnm.
  replace m with (n + (m - n))%nat by lia. rewrite pow_add.
  pose proof (pow_down_le_1 n). pose proof (pow_down_le_1 (m - n)). nra.
Qed.

(** Bernoulli's inequality, and its counterpart from above. *)
Lemma pow_down_bernoulli (n : nat) : 1 - INR n * Rounded.u <= (1 - Rounded.u) ^ n.
Proof.
  destruct u_small as [Hu Hu']. induction n as [|n IH].
  - simpl. lra.
  - rewrite S_INR. cbn [pow].
    pose proof (pos_INR n) as Hn.
    assert (0 <= INR n * Rounded.u * Rounded.u)
      by (repeat apply Rmult_le_pos; lra).
    apply Rle_trans with ((1 - Rounded.u) * (1 - INR n * Rounded.u)); [lra|].
    apply Rmult_le_compat_l; lra.
Qed.

Lemma pow_up_bernoulli (n : nat) :
  INR n * Rounded.u <= 1 -> (1 + Rounded.u) ^ n * (1 - INR n * Rounded.u) <= 1.
Proof.
  destruct u_small as [Hu Hu']. induction n as [|n IH]; intros Hn.
  - simpl. lra.
  - rewrite S_INR in *. cbn [pow].
    pose proof (pos_INR n) as Hpos.
    pose proof (pow_up_ge_1 n) as Hge.
    assert (Hnu : INR n * Rounded.u <= 1) by lra.
    specialize (IH Hnu).
    assert (Hsq : 0 <= (INR n + 1) * (Rounded.u * Rounded.u))
      by (apply Rmult_le_pos; [lra | apply Rmult_le_pos; lra]).
    apply Rle_trans with ((1 + Rounded.u) ^ n * (1 - INR n * Rounded.u)); [|assumption].
    replace ((1 + Rounded.u) * (1 + Rounded.u) ^ n * (1 - (INR n + 1) * Rounded.u))
      with ((1 + Rounded.u) ^ n * ((1 + Rounded.u) * (1 - (INR n + 1) * Rounded.u)))
      by ring.
    apply Rmult_le_compat_l; [lra|]. nra.
Qed.

(** With at most [2^24] roundings the accumulated factor stays within
    [2.5e-9] of 1. *)
Lemma pow_bounds (n : nat) :
  (Z.of_nat n <= 16777216)%Z ->
  (1 + Rounded.u) ^ n <= 1 + / 400000000 /\
  1 - / 500000000 <= (1 - Rounded.u) ^ n.
Proof.
  intros Hn. destruct u_small as [Hu Hu'].
  assert (Hnu : INR n * Rounded.u <= / 500000000).
  { apply IZR_le in Hn. rewrite <- INR_IZR_INZ in Hn.
    unfold Rounded.u in *.
    apply Rle_trans with (16777216 * / 9007199254740992); [|lra].
    apply Rmult_le_compat_r; [lra | assumption]. }
  pose proof (pos_INR n) as Hpos.
  assert (0 <= INR n * Rounded.u) by (apply Rmult_le_pos; lra).
  split.
  - pose proof (pow_up_bernoulli n ltac:(lra)) as Hb.
    pose proof (pow_up_ge_1 n) as Hge. nra.
  - pose proof (pow_down_bernoulli n). lra.
Qed.

(** ** C4: normalisation under rounding *)

(** *** The two passes *)

Lemma sumR_weights_nonneg (q : list R) :
  Forall (fun w => 0.1 <= w) q -> 0 <= sumR q /\ (forall w, In w q -> w <= sumR q).
Proof.
  induction 1 as [|w q Hw Hq [IH0 IH1]].
  - split; [unfold sumR; simpl; lra | intros w []].
  - rewrite sumR_cons. split; [lra|].
    intros v [<-|Hv]; [lra|]. specialize (IH1 v Hv). lra.
Qed.

(** The running total of the first pass: after [k] roundings it lies within
    the factors [(1 - u)^k] and [(1 + u)^k] of the exact total. *)
Lemma rounded_total_bounds (rnd : R -> R) (q : list R) :
  Rounded.accurate rnd ->
  Forall (fun w => 0.1 <= w) q ->
  forall (T0 s0 : R) (k : nat),
    0 <= s0 ->
    (1 - Rounded.u) ^ k * s0 <= T0 <= (1 + Rounded.u) ^ k * s0 ->
    (1 + Rounded.u) ^ (k + length q) * (s0 + sumR q) <= 100000000000000000000 ->
    (1 - Rounded.u) ^ (k + length q) * (s0 + sumR q)
    <= fold_left (fun t w => rnd (t + w)) q T0
    <= (1 + Rounded.u) ^ (k + length q) * (s0 + sumR q).
Proof.
  intros Hacc Hq. destruct u_small as [Hu Hu'].
  induction Hq as [|w q Hw Hq IH]; intros T0 s0 k Hs0 HT Hhi.
  - cbn [length fold_left] in *. rewrite Nat.add_0_r in *.
    unfold sumR in *. cbn [fold_right] in *. rewrite Rplus_0_r in *. exact HT.
  - cbn [length fold_left]. cbn [length] in Hhi. rewrite sumR_cons in *.
    destruct (sumR_weights_nonneg q Hq) as [Hsum _].
    pose proof (pow_up_ge_1 k) as Ha.
    pose proof (pow_down_le_1 k) as [Hb0 Hb1].
    pose proof (pow_up_mono k (k + S (length q)) ltac:(lia)) as Hmono.
    replace (k + S (length q))%nat with (S k + length q)%nat in * by lia.
    replace (s0 + (w + sumR q)) with ((s0 + w) + sumR q) in * by ring.
    assert (Hbs : 0 <= (1 - Rounded.u) ^ k * s0) by (apply Rmult_le_pos; lra).
    assert (Haw : w <= (1 + Rounded.u) ^ k * w) by nra.
    assert (Hbw : (1 - Rounded.u) ^ k * w <= w) by nra.
    assert (Hx : / 100000000000000000000 <= T0 + w <= 100000000000000000000).
    { split; [lra|].
      apply Rle_trans with ((1 + Rounded.u) ^ k * (s0 + w)); [lra|].
      apply Rle_trans with ((1 + Rounded.u) ^ (S k + length q) * (s0 + w + sumR q));
        [|assumption].
      apply Rle_trans with ((1 + Rounded.u) ^ (S k + length q) * (s0 + w)).
      - apply Rmult_le_compat_r; lra.
      - apply Rmult_le_compat_l; lra. }
    pose proof (accurate_bounds rnd (T0 + w) Hacc Hx) as [Hlo Hup].
    apply IH.
    + lra.
    + cbn [pow]. split.
      * apply Rle_trans with ((1 - Rounded.u) * (T0 + w)); [|assumption].
        rewrite Rmult_assoc. apply Rmult_le_compat_l; lra.
      * apply Rle_trans with ((1 + Rounded.u) * (T0 + w)); [assumption|].
        rewrite Rmult_assoc. apply Rmult_le_compat_l; lra.
    + assumption.
Qed.

Lemma rounded_total_filter (rnd : R -> R) (m : JSMap ColorWeight) :
  Rounded.totalWeightedFrequency rnd m
  = fold_left (fun t w => rnd (t + w)) (Rounded.qualifyingWeights m) 0.
Proof.
  unfold Rounded.totalWeightedFrequency, Rounded.qualifyingWeights.
  generalize 0. induction m as [|[k w] m IH]; intros t; [reflexivity|].
  cbn [fold_left filter snd].
  destruct (qualifies (k, w)) eqn:E; unfold qualifies in E; cbn [snd] in E;
    destruct (Rge_dec (weightedFrequency w) 0.1); try discriminate;
    cbn [map fold_left snd]; apply IH.
Qed.

Lemma rounded_results_fold (rnd : R -> R) (toLab : RGB -> LAB) (total : R)
    (m : JSMap ColorWeight) (acc : list ColorResult) :
  map frequency
    (fold_left (fun results (entry : string * ColorWeight) =>
               let '(colorHex, d) := entry in
               if Rge_dec (weightedFrequency d) 0.1 then
                 let normalizedPercentage :=
                   rnd (rnd (weightedFrequency d / total) * 100) in
                 results ++ [ {| color := colorHex;
                                 rgb := cw_rgb d;
                                 lab := toLab (cw_rgb d);
                                 frequency := normalizedPercentage;
                                 clusterSize :=
                                   IZR (Math_round (rnd (weightedFrequency d * 10))) |} ]
               else results)
            m acc)
  = map frequency acc
    ++ map (fun w => rnd (rnd (w / total) * 100)) (Rounded.qualifyingWeights m).
Proof.
  unfold Rounded.qualifyingWeights.
  revert acc. induction m as [|[k w] m IH]; intros acc.
  - cbn. now rewrite app_nil_r.
  - cbn [fold_left filter snd].
    destruct (qualifies (k, w)) eqn:E; unfold qualifies in E; cbn [snd] in E;
      destruct (Rge_dec (weightedFrequency w) 0.1); try discriminate.
    + rewrite IH, map_app. cbn [map frequency snd]. now rewrite <- app_assoc.
    + apply IH.
Qed.

(** The frequencies the second pass emits. *)
Lemma rounded_results_frequencies (rnd : R -> R) (toLab : RGB -> LAB)
    (m : JSMap ColorWeight) :
  map frequency (Rounded.normalizedResults rnd toLab m)
  = map (fun w => rnd (rnd (w / Rounded.totalWeightedFrequency rnd m) * 100))
        (Rounded.qualifyingWeights m).
Proof.
  unfold Rounded.normalizedResults. cbv zeta. now rewrite rounded_results_fold.
Qed.

Lemma sumFrequency_map (l : list ColorResult) : sumFrequency l = sumR (map frequency l).
Proof.
  induction l as [|c l IH]; [reflexivity|].
  cbn [map]. now rewrite sumFrequency_cons, sumR_cons, IH.
Qed.

Lemma sumR_scaled_bounds (g : R -> R) (lo hi : R) (q : list R) :
  (forall w, In w q -> lo * w <= g w <= hi * w) ->
  lo * sumR q <= sumR (map g q) <= hi * sumR q.
Proof.
  induction q as [|w q IH]; intros H.
  - unfold sumR. cbn. lra.
  - cbn [map]. rewrite !sumR_cons.
    specialize (IH (fun v Hv => H v (in_cons _ _ _ Hv))).
    specialize (H w (in_eq _ _)). lra.
Qed.

(** One emitted frequency: the quotient and the product are rounded. *)
Lemma rounded_frequency_bounds (rnd : R -> R) (w T : R) :
  Rounded.accurate rnd ->
  0.1 <= w -> w <= 2 * T -> T <= 2000000000000000 ->
  (1 - Rounded.u) * (1 - Rounded.u) * (100 / T) * w
  <= rnd (rnd (w / T) * 100)
  <= (1 + Rounded.u) * (1 + Rounded.u) * (100 / T) * w.
Proof.
  intros Hacc Hw HwT HT. destruct u_small as [Hu Hu'].
  assert (HTpos : 0 < T) by lra.
  assert (HiT : / 2000000000000000 <= / T) by (apply Rinv_le_contravar; lra).
  assert (HiTpos : 0 < / T) by (apply Rinv_0_lt_compat; lra).
  assert (HX : w / T * T = w) by (field; lra).
  set (X := w / T) in *.
  assert (HXlo : / 20000000000000000 <= X).
  { unfold X, Rdiv. apply Rle_trans with (0.1 * / 2000000000000000); [lra|].
    apply Rmult_le_compat; lra. }
  assert (HXhi : X <= 2).
  { destruct (Rle_dec X 2) as [|Hn]; [assumption|]. exfalso.
    assert (2 * T < X * T) by (apply Rmult_lt_compat_r; lra). lra. }
  pose proof (accurate_bounds rnd X Hacc ltac:(lra)) as [H1 H2].
  assert (HY : / 100000000000000000000 <= rnd X * 100 <= 100000000000000000000).
  { split.
    - apply Rle_trans with ((1 - Rounded.u) * X * 100); [|lra].
      apply Rle_trans with ((1 - Rounded.u) * / 20000000000000000 * 100); [lra|].
      apply Rmult_le_compat_r; [lra|]. apply Rmult_le_compat_l; lra.
    - apply Rle_trans with ((1 + Rounded.u) * X * 100); [lra|].
      apply Rle_trans with ((1 + Rounded.u) * 2 * 100); [|lra].
      apply Rmult_le_compat_r; [lra|]. apply Rmult_le_compat_l; lra. }
  pose proof (accurate_bounds rnd (rnd X * 100) Hacc HY) as [H3 H4].
  replace ((1 - Rounded.u) * (1 - Rounded.u) * (100 / T) * w)
    with ((1 - Rounded.u) * ((1 - Rounded.u) * X * 100)) by (unfold X; field; lra).
  replace ((1 + Rounded.u) * (1 + Rounded.u) * (100 / T) * w)
    with ((1 + Rounded.u) * ((1 + Rounded.u) * X * 100)) by (unfold X; field; lra).
  split.
  - apply Rle_trans with ((1 - Rounded.u) * (rnd X * 100)); [|assumption].
    apply Rmult_le_compat_l; lra.
  - apply Rle_trans with ((1 + Rounded.u) * (rnd X * 100)); [assumption|].
    apply Rmult_le_compat_l; lra.
Qed.

(** The frequencies emitted by the two passes, under rounding: their exact
    sum is within [5e-7] of 100, and each of them lies between [1e-15] and
    101. *)
Lemma rounded_emitted_bounds (rnd : R -> R) (toLab : RGB -> LAB) (m : JSMap ColorWeight) :
  Rounded.accurate rnd ->
  Rounded.qualifyingWeights m <> [] ->
  (Z.of_nat (length (Rounded.qualifyingWeights m)) <= 16777216)%Z ->
  sumR (Rounded.qualifyingWeights m) <= 1000000000000000 ->
  100 - / 2000000 <= sumFrequency (Rounded.normalizedResults rnd toLab m)
                  <= 100 + / 2000000 /\
  Forall (fun c => / 1000000000000000 <= frequency c <= 101)
         (Rounded.normalizedResults rnd toLab m) /\
  length (Rounded.normalizedResults rnd toLab m) = length (Rounded.qualifyingWeights m).
Proof.
  intros Hacc Hne Hn Hsum. destruct u_small as [Hu Hu'].
  set (q := Rounded.qualifyingWeights m) in *.
  assert (Hq : Forall (fun w => 0.1 <= w) q).
  { unfold q, Rounded.qualifyingWeights. apply Forall_map.
    eapply Forall_impl; [|apply filter_qualifies]. cbv beta.
    intros e He. unfold qualifies in He.
    destruct (Rge_dec (weightedFrequency (snd e)) 0.1); [lra | discriminate]. }
  destruct (sumR_weights_nonneg q Hq) as [Hs0 Hsw].
  assert (Hs1 : 0.1 <= sumR q).
  { destruct q as [|w q']; [congruence|]. inversion Hq; subst.
    destruct (sumR_weights_nonneg q' ltac:(assumption)) as [? _].
    rewrite sumR_cons. lra. }
  destruct (pow_bounds (length q) Hn) as [Hup Hdown].
  pose proof (pow_up_ge_1 (length q)) as Hge.
  pose proof (pow_down_le_1 (length q)) as [Hd0 Hd1].
  set (T := Rounded.totalWeightedFrequency rnd m).
  assert (HT : (1 - Rounded.u) ^ length q * sumR q <= T
               <= (1 + Rounded.u) ^ length q * sumR q).
  { unfold T. rewrite rounded_total_filter. fold q.
    pose proof (rounded_total_bounds rnd q Hacc Hq 0 0 0%nat (Rle_refl 0)) as H.
    cbn [Nat.add pow] in H. rewrite !Rplus_0_l in H.
    apply H; [lra|]. nra. }
  set (a := (1 + Rounded.u) ^ length q) in *.
  set (b := (1 - Rounded.u) ^ length q) in *.
  assert (HTlo : (1 - / 500000000) * sumR q <= T) by nra.
  assert (HThi : T <= (1 + / 400000000) * sumR q) by nra.
  assert (HTpos : 0 < T) by nra.
  assert (Hfreq : forall w, In w q ->
            (1 - Rounded.u) * (1 - Rounded.u) * (100 / T) * w
            <= rnd (rnd (w / T) * 100)
            <= (1 + Rounded.u) * (1 + Rounded.u) * (100 / T) * w).
  { intros w Hw. rewrite Forall_forall in Hq.
    apply rounded_frequency_bounds; [assumption | now apply Hq | | nra].
    specialize (Hsw w Hw). nra. }
  assert (HX : sumR q / T * T = sumR q) by (field; lra).
  set (X := sumR q / T) in *.
  assert (HX0 : 0 <= X).
  { unfold X, Rdiv. apply Rmult_le_pos; [lra|]. left. apply Rinv_0_lt_compat; lra. }
  assert (HXhi : X <= 1 + / 400000000).
  { destruct (Rle_dec X (1 + / 400000000)) as [|Hn']; [assumption|]. exfalso.
    assert (HXT : (1 + / 400000000) * T < X * T) by (apply Rmult_lt_compat_r; lra).
    nra. }
  assert (HXlo : 1 - / 400000000 <= X).
  { destruct (Rle_dec (1 - / 400000000) X) as [|Hn']; [assumption|]. exfalso.
    assert (HXT : X * T < (1 - / 400000000) * T) by (apply Rmult_lt_compat_r; lra).
    nra. }
  split; [|split].
  - rewrite sumFrequency_map, rounded_results_frequencies. fold T q.
    pose proof (sumR_scaled_bounds (fun w => rnd (rnd (w / T) * 100))
                  ((1 - Rounded.u) * (1 - Rounded.u) * (100 / T))
                  ((1 + Rounded.u) * (1 + Rounded.u) * (100 / T)) q Hfreq) as [Hlo Hhi].
    replace ((1 - Rounded.u) * (1 - Rounded.u) * (100 / T) * sumR q)
      with ((1 - Rounded.u) * (1 - Rounded.u) * 100 * X) in Hlo by (unfold X; field; lra).
    replace ((1 + Rounded.u) * (1 + Rounded.u) * (100 / T) * sumR q)
      with ((1 + Rounded.u) * (1 + Rounded.u) * 100 * X) in Hhi by (unfold X; field; lra).
    split.
    + apply Rle_trans with ((1 - Rounded.u) * (1 - Rounded.u) * 100 * X); [|assumption].
      nra.
    + apply Rle_trans with ((1 + Rounded.u) * (1 + Rounded.u) * 100 * X); [assumption|].
      nra.
  - apply Forall_forall. intros c Hc.
    apply (in_map frequency) in Hc. rewrite rounded_results_frequencies in Hc.
    fold T q in Hc. apply in_map_iff in Hc. destruct Hc as (w & <- & Hw).
    destruct (Hfreq w Hw) as [Hlo Hhi].
    rewrite Forall_forall in Hq. pose proof (Hq w Hw) as Hw1.
    pose proof (Hsw w Hw) as Hw2.
    assert (HW : w / T * T = w) by (field; lra).
    set (Y := w / T) in *.
    assert (HY0 : / 20000000000000000 <= Y).
    { assert (HiT : / 2000000000000000 <= / T) by (apply Rinv_le_contravar; nra).
      unfold Y, Rdiv. apply Rle_trans with (0.1 * / 2000000000000000); [lra|].
      apply Rmult_le_compat; lra. }
    assert (HY1 : Y <= X).
    { unfold Y, X, Rdiv. apply Rmult_le_compat_r; [|assumption].
      left. apply Rinv_0_lt_compat. lra. }
    replace ((1 - Rounded.u) * (1 - Rounded.u) * (100 / T) * w)
      with ((1 - Rounded.u) * (1 - Rounded.u) * 100 * Y) in Hlo by (unfold Y; field; lra).
    replace ((1 + Rounded.u) * (1 + Rounded.u) * (100 / T) * w)
      with ((1 + Rounded.u) * (1 + Rounded.u) * 100 * Y) in Hhi by (unfold Y; field; lra).
    split.
    + apply Rle_trans with ((1 - Rounded.u) * (1 - Rounded.u) * 100 * Y); [|assumption].
      nra.
    + apply Rle_trans with ((1 + Rounded.u) * (1 + Rounded.u) * 100 * Y); [assumption|].
      nra.
  - rewrite <- (length_map frequency), rounded_results_frequencies, length_map.
    reflexivity.
Qed.

(** *** The merger *)

Lemma rounded_mergeStep_used (rnd : R -> R) (close : ColorResult -> ColorResult -> bool)
    (colors : list ColorResult) (baseColor : ColorResult)
    (j : nat) (acc : MergeAcc) (v : nat) :
  used_has v (acc_used (Rounded.mergeStep rnd close colors baseColor j acc)) =
  used_has v (acc_used acc)
  || (Nat.eqb v j && Rounded.absorbed close colors baseColor (acc_used acc) j).
Proof.
  unfold Rounded.mergeStep, Rounded.absorbed, Rounded.closeAt.
  destruct (used_has j (acc_used acc)) eqn:Hj; cbn [negb andb].
  - now rewrite andb_false_r, orb_false_r.
  - destruct (nth_error colors j) as [c|].
    + destruct (close baseColor c); cbn [acc_used].
      * rewrite used_has_cons, andb_true_r. apply orb_comm.
      * now rewrite andb_false_r, orb_false_r.
    + now rewrite andb_false_r, orb_false_r.
Qed.

Lemma rounded_fold_used (rnd : R -> R) (close : ColorResult -> ColorResult -> bool)
    (colors : list ColorResult) (baseColor : ColorResult)
    (js : list nat) (acc : MergeAcc) (v : nat) :
  used_has v (acc_used
                (fold_left (fun st j => Rounded.mergeStep rnd close colors baseColor j st)
                           js acc)) =
  used_has v (acc_used acc)
  || (existsb (Nat.eqb v) js && Rounded.closeAt close colors baseColor v).
Proof.
  revert acc. induction js as [|j js IH]; intros acc; cbn [fold_left existsb].
  - now rewrite orb_false_r.
  - rewrite IH, rounded_mergeStep_used. unfold Rounded.absorbed.
    destruct (Nat.eqb_spec v j) as [->|Hne]; cbn [andb orb].
    + destruct (used_has j (acc_used acc)), (Rounded.closeAt close colors baseColor j),
        (existsb (Nat.eqb j) js); reflexivity.
    + now rewrite orb_false_r.
Qed.

Lemma freqAt_lower (colors : list ColorResult) (lo : R) (j : nat) (c : ColorResult) :
  Forall (fun c => lo <= frequency c) colors ->
  nth_error colors j = Some c -> lo <= frequency c.
Proof.
  intros Hall Hj. rewrite Forall_forall in Hall. apply Hall.
  eapply nth_error_In; eassumption.
Qed.

Lemma sumR_freqAt_nonneg (colors : list ColorResult) (js : list nat) :
  nonnegFrequencies colors -> 0 <= sumR (map (freqAt colors) js).
Proof.
  intros Hnn. apply sumR_nonneg. intros j _. now apply freqAt_nonneg.
Qed.

(** The total of a group after the inner loop has run over [js]: at most
    the sum of the base's total and the absorbed frequencies, times one
    factor [1 + u] for each iteration. *)
Lemma rounded_fold_total (rnd : R -> R) (close : ColorResult -> ColorResult -> bool)
    (colors : list ColorResult) (baseColor : ColorResult) :
  Rounded.accurate rnd ->
  Forall (fun c => / 100000000000000000000 <= frequency c) colors ->
  forall (js : list nat) (acc : MergeAcc),
    NoDup js ->
    0 <= totalFrequency acc ->
    (1 + Rounded.u) ^ length js * (totalFrequency acc + sumR (map (freqAt colors) js))
    <= 100000000000000000000 ->
    let taken :=
      totalFrequency acc
      + sumR (map (fun j => if Rounded.absorbed close colors baseColor (acc_used acc) j
                            then freqAt colors j else 0) js) in
    let total :=
      totalFrequency
        (fold_left (fun st j => Rounded.mergeStep rnd close colors baseColor j st) js acc) in
    0 <= total /\
    (1 - Rounded.u) ^ length js * taken <= total <= (1 + Rounded.u) ^ length js * taken.
Proof.
  intros Hacc Hlo. destruct u_small as [Hu Hu'].
  assert (Hnn : nonnegFrequencies colors).
  { eapply Forall_impl; [|exact Hlo]. cbv beta. intros; lra. }
  intros js acc Hnd. revert acc.
  induction Hnd as [|j js Hnotin Hnd IH]; intros acc Ht Hhi; cbv zeta in *.
  - cbn [fold_left length pow map]. unfold sumR. cbn [fold_right]. lra.
  - cbn [fold_left length map] in *. rewrite !sumR_cons in *.
    pose proof (pow_down_le_1 (length js)) as Hdn.
    pose proof (pow_up_ge_1 (length js)) as Hge.
    pose proof (sumR_freqAt_nonneg colors js Hnn) as Hrest.
    pose proof (freqAt_nonneg colors j Hnn) as Hfj.
    set (G := (1 + Rounded.u) ^ length js) in *.
    set (rest := sumR (map (freqAt colors) js)) in *.
    set (acc' := Rounded.mergeStep rnd close colors baseColor j acc).
    assert (Hext :
      sumR (map (fun v => if Rounded.absorbed close colors baseColor (acc_used acc') v
                          then freqAt colors v else 0) js)
      = sumR (map (fun v => if Rounded.absorbed close colors baseColor (acc_used acc) v
                            then freqAt colors v else 0) js)).
    { apply sumR_ext. intros v Hv. unfold Rounded.absorbed at 1.
      unfold acc'. rewrite rounded_mergeStep_used.
      destruct (Nat.eqb_spec v j) as [->|Hne]; [contradiction|].
      cbn [andb]. rewrite orb_false_r. reflexivity. }
    set (abs := sumR (map (fun v => if Rounded.absorbed close colors baseColor
                                         (acc_used acc) v
                                    then freqAt colors v else 0) js)) in *.
    assert (Habs : 0 <= abs).
    { unfold abs. apply sumR_nonneg. intros v _.
      destruct (Rounded.absorbed _ _ _ _ v); [now apply freqAt_nonneg | lra]. }
    cbn [pow] in Hhi |- *. fold G in Hhi |- *.
    assert (Hcase :
      0 <= totalFrequency acc' /\
      (1 - Rounded.u)
      * (totalFrequency acc
         + (if Rounded.absorbed close colors baseColor (acc_used acc) j
            then freqAt colors j else 0))
      <= totalFrequency acc'
      <= (1 + Rounded.u)
         * (totalFrequency acc
            + (if Rounded.absorbed close colors baseColor (acc_used acc) j
               then freqAt colors j else 0))).
    { unfold acc', Rounded.mergeStep, Rounded.absorbed, Rounded.closeAt, freqAt.
      destruct (used_has j (acc_used acc)); cbn [negb andb]; [nra|].
      destruct (nth_error colors j) as [c|] eqn:Ej; [|nra].
      destruct (close baseColor c); cbn [totalFrequency]; [|nra].
      pose proof (freqAt_lower colors _ j c Hlo Ej) as Hc.
      assert (Hfj' : freqAt colors j = frequency c) by (unfold freqAt; now rewrite Ej).
      assert (Hx : / 100000000000000000000 <= totalFrequency acc + frequency c
                   <= 100000000000000000000).
      { split; [lra|]. rewrite <- Hfj'.
        apply Rle_trans
          with ((1 + Rounded.u) * G * (totalFrequency acc + (freqAt colors j + rest)));
          [|assumption].
        assert (1 <= (1 + Rounded.u) * G) by nra.
        assert (0 <= totalFrequency acc + (freqAt colors j + rest)) by lra.
        nra. }
      pose proof (accurate_bounds rnd _ Hacc Hx) as [H1 H2].
      split; [nra | split; assumption]. }
    destruct Hcase as (Ht' & Hlow' & Hup').
    set (aj := if Rounded.absorbed close colors baseColor (acc_used acc) j
               then freqAt colors j else 0) in *.
    assert (Haj : 0 <= aj <= freqAt colors j).
    { unfold aj. destruct (Rounded.absorbed _ _ _ _ j); lra. }
    assert (Hhi' : G * (totalFrequency acc' + rest) <= 100000000000000000000).
    { apply Rle_trans
        with ((1 + Rounded.u) * G * (totalFrequency acc + (freqAt colors j + rest)));
        [|assumption].
      apply Rle_trans with (G * ((1 + Rounded.u) * (totalFrequency acc + aj) + rest)).
      - apply Rmult_le_compat_l; lra.
      - rewrite (Rmult_comm (1 + Rounded.u) G), Rmult_assoc.
        apply Rmult_le_compat_l; [lra|]. nra. }
    destruct (IH acc' Ht' Hhi') as (H0 & Hlow & H1). rewrite Hext in Hlow, H1.
    set (D := (1 - Rounded.u) ^ length js) in *.
    split; [assumption|]. split.
    + apply Rle_trans with (D * (totalFrequency acc' + abs)); [|assumption].
      apply Rle_trans with (D * ((1 - Rounded.u) * (totalFrequency acc + aj) + abs)).
      * rewrite (Rmult_comm (1 - Rounded.u) D), Rmult_assoc.
        apply Rmult_le_compat_l; [lra|]. nra.
      * apply Rmult_le_compat_l; lra.
    + apply Rle_trans with (G * (totalFrequency acc' + abs)); [assumption|].
      apply Rle_trans with (G * ((1 + Rounded.u) * (totalFrequency acc + aj) + abs)).
      * apply Rmult_le_compat_l; lra.
      * rewrite (Rmult_comm (1 + Rounded.u) G), Rmult_assoc.
        apply Rmult_le_compat_l; [lra|]. nra.
Qed.

Lemma sumR_app (l1 l2 : list R) : sumR (l1 ++ l2) = sumR l1 + sumR l2.
Proof.
  induction l1 as [|x l1 IH]; cbn [app].
  - unfold sumR at 2. cbn. lra.
  - rewrite !sumR_cons, IH. lra.
Qed.

Lemma freqAt_all (colors : list ColorResult) :
  sumR (map (freqAt colors) (seq 0 (length colors))) = sumFrequency colors.
Proof.
  rewrite <- pending_all. unfold pending. apply sumR_ext. intros j _. reflexivity.
Qed.

(** The frequencies from an index on add up to at most those of the whole
    list. *)
Lemma freqAt_tail (colors : list ColorResult) (i : nat) :
  nonnegFrequencies colors -> (i <= length colors)%nat ->
  sumR (map (freqAt colors) (seq i (length colors - i))) <= sumFrequency colors.
Proof.
  intros Hnn Hi. rewrite <- freqAt_all.
  replace (length colors) with (i + (length colors - i))%nat at 2 by lia.
  rewrite seq_app, map_app, sumR_app. cbn [Nat.add].
  pose proof (sumR_freqAt_nonneg colors (seq 0 i) Hnn). lra.
Qed.

(** What a group takes, and what it leaves pending weighted by the factor
    of all roundings, is at most that factor times what was pending. *)
Lemma rounded_group_bound (rnd : R -> R) (close : ColorResult -> ColorResult -> bool)
    (colors : list ColorResult) (i : nat) (baseColor : ColorResult) (used : list nat) :
  Rounded.accurate rnd ->
  Forall (fun c => / 100000000000000000000 <= frequency c) colors ->
  (1 + Rounded.u) ^ length colors * sumFrequency colors <= 100000000000000000000 ->
  nth_error colors i = Some baseColor ->
  let acc := Rounded.mergeGroup rnd close colors i baseColor used in
  let js := seq (S i) (length colors - S i) in
  0 <= totalFrequency acc /\
  totalFrequency acc
  + (1 + Rounded.u) ^ length colors * pending colors (i :: acc_used acc) js
  <= (1 + Rounded.u) ^ length colors * (frequency baseColor + pending colors used js) /\
  (1 - Rounded.u) ^ length colors * (frequency baseColor + pending colors used js)
  <= totalFrequency acc
     + (1 - Rounded.u) ^ length colors * pending colors (i :: acc_used acc) js.
Proof.
  intros Hacc Hlo Hhi Hi acc js. destruct u_small as [Hu Hu'].
  assert (Hnn : nonnegFrequencies colors).
  { eapply Forall_impl; [|exact Hlo]. cbv beta. intros; lra. }
  assert (Hilen : (i < length colors)%nat) by (apply nth_error_Some; congruence).
  pose proof (freqAt_lower colors _ i baseColor Hlo Hi) as Hb.
  assert (Hfi : freqAt colors i = frequency baseColor) by (unfold freqAt; now rewrite Hi).
  pose proof (pow_up_ge_1 (length colors)) as HG.
  pose proof (pow_up_mono (length js) (length colors)) as Hmono.
  assert (Hjs : length js = (length colors - S i)%nat) by (unfold js; apply length_seq).
  specialize (Hmono ltac:(lia)).
  pose proof (sumR_freqAt_nonneg colors js Hnn) as Hrest.
  assert (Htail : frequency baseColor + sumR (map (freqAt colors) js)
                  <= sumFrequency colors).
  { pose proof (freqAt_tail colors i Hnn ltac:(lia)) as Ht.
    replace (length colors - i)%nat with (S (length colors - S i)) in Ht by lia.
    cbn [seq map] in Ht. rewrite sumR_cons, Hfi in Ht. exact Ht. }
  set (init := {| acc_used := used;
                  totalFrequency := frequency baseColor;
                  totalR := rnd (IZR (rgb_r (rgb baseColor)) * frequency baseColor);
                  totalG := rnd (IZR (rgb_g (rgb baseColor)) * frequency baseColor);
                  totalB := rnd (IZR (rgb_b (rgb baseColor)) * frequency baseColor) |}).
  assert (Eacc : acc = fold_left (fun st j => Rounded.mergeStep rnd close colors baseColor j st)
                                 js init) by reflexivity.
  assert (Hsums : 0 <= sumFrequency colors) by lra.
  destruct (rounded_fold_total rnd close colors baseColor Hacc Hlo js init
              (seq_NoDup _ _)) as (H0 & Hlow & H1).
  { cbn [totalFrequency init]. lra. }
  { cbn [totalFrequency init].
    apply Rle_trans with ((1 + Rounded.u) ^ length colors * sumFrequency colors);
      [|assumption].
    apply Rmult_le_compat; try lra.
    pose proof (pow_up_ge_1 (length js)). lra. }
  rewrite <- Eacc in H0, Hlow, H1. cbn [totalFrequency acc_used init] in Hlow, H1.
  split; [assumption|].
  set (G := (1 + Rounded.u) ^ length colors) in *.
  set (abs := sumR (map (fun j => if Rounded.absorbed close colors baseColor used j
                                  then freqAt colors j else 0) js)) in *.
  assert (Habs : 0 <= abs).
  { unfold abs. apply sumR_nonneg. intros v _.
    destruct (Rounded.absorbed _ _ _ _ v); [now apply freqAt_nonneg | lra]. }
  assert (Hid : abs + pending colors (i :: acc_used acc) js = pending colors used js).
  { unfold abs, pending. rewrite sumR_plus. apply sumR_ext. intros v Hv.
    rewrite used_has_cons, Eacc, rounded_fold_used. cbn [acc_used init].
    assert (Hin : existsb (Nat.eqb v) js = true).
    { apply existsb_exists. exists v. split; [assumption | apply Nat.eqb_refl]. }
    rewrite Hin. unfold Rounded.absorbed.
    apply in_seq in Hv.
    destruct (Nat.eqb_spec v i) as [->|_]; [lia|].
    destruct (used_has v used), (Rounded.closeAt close colors baseColor v);
      cbn [negb andb orb]; lra. }
  rewrite <- Hid. split.
  - apply Rle_trans with (G * (frequency baseColor + abs)
                          + G * pending colors (i :: acc_used acc) js); [|lra].
    apply Rplus_le_compat_r.
    apply Rle_trans with ((1 + Rounded.u) ^ length js * (frequency baseColor + abs));
      [assumption|].
    apply Rmult_le_compat_r; lra.
  - pose proof (pow_down_mono (length js) (length colors) ltac:(lia)) as Hdm.
    set (D := (1 - Rounded.u) ^ length colors) in *.
    apply Rle_trans with (D * (frequency baseColor + abs)
                          + D * pending colors (i :: acc_used acc) js); [lra|].
    apply Rplus_le_compat_r.
    apply Rle_trans with ((1 - Rounded.u) ^ length js * (frequency baseColor + abs));
      [|assumption].
    apply Rmult_le_compat_r; lra.
Qed.

Lemma rounded_mergeLoop_sum (rnd : R -> R) (close : ColorResult -> ColorResult -> bool)
    (toLab : RGB -> LAB) (colors : list ColorResult) (M : Z) :
  Rounded.accurate rnd ->
  Forall (fun c => / 100000000000000000000 <= frequency c) colors ->
  (1 + Rounded.u) ^ length colors * sumFrequency colors <= 100000000000000000000 ->
  forall (fuel i : nat) (merged : list ColorResult) (used : list nat),
    (i + fuel = length colors)%nat ->
    nonnegFrequencies merged ->
    sumFrequency (Rounded.mergeLoop rnd close toLab colors M fuel i merged used)
    <= sumFrequency merged
       + (1 + Rounded.u) ^ length colors * pending colors used (seq i fuel) /\
    nonnegFrequencies (Rounded.mergeLoop rnd close toLab colors M fuel i merged used).
Proof.
  intros Hacc Hlo Hhi.
  assert (Hnn : nonnegFrequencies colors).
  { eapply Forall_impl; [|exact Hlo]. cbv beta. intros; lra. }
  pose proof (pow_up_ge_1 (length colors)) as HG.
  induction fuel as [|fuel IH]; intros i merged used Hlen Hm.
  - cbn [Rounded.mergeLoop seq]. unfold pending, sumR. cbn. split; [lra | assumption].
  - pose proof (pending_nonneg colors used (seq i (S fuel)) Hnn) as Hp.
    assert (Hstop : sumFrequency merged
                    <= sumFrequency merged
                       + (1 + Rounded.u) ^ length colors
                         * pending colors used (seq i (S fuel))) by nra.
    cbn [Rounded.mergeLoop].
    destruct ((i <? length colors)%nat && (Z.of_nat (length merged) <? M)%Z);
      [|split; assumption].
    cbn [seq] in Hp |- *. rewrite pending_cons in Hp |- *.
    destruct (used_has i used) eqn:Hi.
    + destruct (IH (S i) merged used ltac:(lia) Hm) as [H1 H2].
      split; [lra | assumption].
    + destruct (nth_error colors i) as [baseColor|] eqn:Hb;
        [|cbn [seq] in Hstop; rewrite pending_cons, Hi in Hstop; split; assumption].
      destruct (rounded_group_bound rnd close colors i baseColor used Hacc Hlo Hhi Hb)
        as (Hg0 & Hg1 & _).
      replace (length colors - S i)%nat with fuel in Hg1 by lia.
      set (acc := Rounded.mergeGroup rnd close colors i baseColor used) in *.
      destruct (IH (S i) (merged ++ [Rounded.mergedEntry rnd toLab acc])
                   (i :: acc_used acc) ltac:(lia)) as [H1 H2].
      { apply Forall_app. split; [assumption|]. constructor; [|constructor].
        cbn [Rounded.mergedEntry frequency]. assumption. }
      split; [|assumption].
      rewrite sumFrequency_app in H1. unfold sumFrequency at 3 in H1.
      cbn [fold_right Rounded.mergedEntry frequency] in H1.
      unfold freqAt. rewrite Hb. lra.
Qed.

(** The merger under rounding: the total frequency grows by at most the
    factor of one rounding per colour. *)
Lemma rounded_merge_sum (rnd : R -> R) (close : ColorResult -> ColorResult -> bool)
    (toLab : RGB -> LAB) (colors : list ColorResult) (M : Z) :
  Rounded.accurate rnd ->
  Forall (fun c => / 100000000000000000000 <= frequency c) colors ->
  (1 + Rounded.u) ^ length colors * sumFrequency colors <= 100000000000000000000 ->
  sumFrequency (Rounded.mergeSimilarColorsConservative rnd close toLab colors M)
  <= (1 + Rounded.u) ^ length colors * sumFrequency colors /\
  nonnegFrequencies (Rounded.mergeSimilarColorsConservative rnd close toLab colors M).
Proof.
  intros Hacc Hlo Hhi.
  assert (Hnn : nonnegFrequencies colors).
  { eapply Forall_impl; [|exact Hlo]. cbv beta. intros; lra. }
  pose proof (pow_up_ge_1 (length colors)) as HG.
  assert (Hsum : 0 <= sumFrequency colors).
  { rewrite sumFrequency_map. apply sumR_nonneg. intros c Hc.
    unfold nonnegFrequencies in Hnn. rewrite Forall_forall in Hnn. now apply Hnn. }
  unfold Rounded.mergeSimilarColorsConservative.
  destruct (Z.of_nat (length colors) <=? M)%Z.
  - split; [nra | assumption].
  - destruct (rounded_mergeLoop_sum rnd close toLab colors M Hacc Hlo Hhi
                (length colors) 0 [] [] eq_refl ltac:(constructor)) as [H1 H2].
    split; [|assumption].
    rewrite pending_all in H1. unfold sumFrequency at 2 in H1. cbn [fold_right] in H1.
    lra.
Qed.

(** *** The whole pipeline *)

Lemma qualifyingWeights_length (m : JSMap ColorWeight) :
  (length (Rounded.qualifyingWeights m) <= length m)%nat.
Proof.
  unfold Rounded.qualifyingWeights. rewrite length_map. apply filter_length_le.
Qed.

Lemma qualifyingWeights_nonempty (m : JSMap ColorWeight) :
  (exists entry, In entry m /\ weightedFrequency (snd entry) >= 0.1) ->
  Rounded.qualifyingWeights m <> [].
Proof.
  intros (e & Hin & He) E.
  assert (Hf : In (weightedFrequency (snd e)) (Rounded.qualifyingWeights m)).
  { unfold Rounded.qualifyingWeights.
    apply (in_map (fun entry => weightedFrequency (snd entry))). apply filter_In.
    split; [assumption|]. unfold qualifies.
    destruct (Rge_dec (weightedFrequency (snd e)) 0.1); [reflexivity | contradiction]. }
  rewrite E in Hf. contradiction.
Qed.

Lemma rounded_returned_bound (rnd : R -> R) (close : ColorResult -> ColorResult -> bool)
    (toLab : RGB -> LAB) (m : JSMap ColorWeight) (maxColors : Z) :
  Rounded.accurate rnd ->
  Rounded.qualifyingWeights m <> [] ->
  (Z.of_nat (length m) <= 16777216)%Z ->
  sumR (Rounded.qualifyingWeights m) <= 1000000000000000 ->
  sumFrequency
    (selectDiverseColors
       (Rounded.mergeSimilarColorsConservative rnd close toLab
          (sortByFrequencyDesc (Rounded.normalizedResults rnd toLab m)) (maxColors * 3))
       maxColors)
  <= 100 + / 1000000.
Proof.
  intros Hacc Hne Hlen Hsum.
  pose proof (qualifyingWeights_length m) as Hql.
  destruct (rounded_emitted_bounds rnd toLab m Hacc Hne ltac:(lia) Hsum)
    as ([_ Hhi] & Hall & Hl).
  set (results := Rounded.normalizedResults rnd toLab m) in *.
  pose proof (sortByFrequencyDesc_perm results) as Hperm.
  pose proof (sortByFrequencyDesc_sum results) as Hss.
  set (sorted := sortByFrequencyDesc results) in *.
  assert (Hlo : Forall (fun c => / 100000000000000000000 <= frequency c) sorted).
  { apply (Permutation_Forall Hperm). eapply Forall_impl; [|exact Hall].
    cbv beta. intros c Hc. lra. }
  assert (Hsl : (Z.of_nat (length sorted) <= 16777216)%Z).
  { rewrite <- (Permutation_length Hperm), Hl. lia. }
  destruct (pow_bounds (length sorted) Hsl) as [HG _].
  pose proof (pow_up_ge_1 (length sorted)) as HG1.
  destruct (rounded_merge_sum rnd close toLab sorted (maxColors * 3) Hacc Hlo)
    as [Hms Hmn].
  { rewrite Hss. nra. }
  set (mergedResults := Rounded.mergeSimilarColorsConservative _ _ _ _ _) in *.
  assert (Hsub : subseq (selectDiverseColors mergedResults maxColors) mergedResults).
  { eapply subseq_trans; [apply selectDiverseColors_subseq | apply subseq_filter]. }
  pose proof (subseq_sum _ _ Hsub Hmn) as Hsel. rewrite Hss in Hms.
  assert (0 <= sumFrequency results).
  { rewrite sumFrequency_map. apply sumR_nonneg. intros c Hc.
    rewrite Forall_forall in Hall. specialize (Hall c Hc). cbv beta in Hall. lra. }
  nra.
Qed.

Lemma twoPixels_weights :
  Rounded.aggregateWeights Rounded.roundUp twoPixels 1 =
  [ ("#ff0000"%string,
     {| cw_rgb := mkRGB 255 0 0;
        weightedFrequency :=
          Rounded.roundUp (Rounded.localPercentage Rounded.roundUp 1 1
                           * Rounded.roundUp (IZR 1 / IZR 1)) |});
    ("#0000ff"%string,
     {| cw_rgb := mkRGB 0 0 255;
        weightedFrequency :=
          Rounded.roundUp (Rounded.localPercentage Rounded.roundUp 1 1
                           * Rounded.roundUp (IZR 1 / IZR 1)) |}) ].
Proof.
  unfold Rounded.aggregateWeights. cbn [width height twoPixels].
  change (calculateGridSections 2 1 1)
    with [ {| startX := 0; startY := 0; endX := 1; endY := 1 |};
           {| startX := 1; startY := 0; endX := 2; endY := 1 |} ]%Z.
  fold twoPixels. cbn [fold_left]. unfold Rounded.accumulateSection.
  cbn [startX startY endX endY].
  change (countPixelsByColor twoPixels 0 0 1 1)
    with [ ("#ff0000"%string, {| cc_rgb := mkRGB 255 0 0; count := 1 |}) ].
  change (countPixelsByColor twoPixels 1 0 2 1)
    with [ ("#0000ff"%string, {| cc_rgb := mkRGB 0 0 255; count := 1 |}) ].
  reflexivity.
Qed.

Lemma twoPixels_weight :
  100 <= Rounded.roundUp (Rounded.localPercentage Rounded.roundUp 1 1
                          * Rounded.roundUp (IZR 1 / IZR 1)) <= 101.
Proof.
  unfold Rounded.localPercentage, Rounded.roundUp. destruct u_small as [Hu Hu'].
  replace (IZR 1 / IZR 1) with 1 by lra.
  assert (Hu2 : Rounded.u <= / 1000000).
  { unfold Rounded.u. apply Rinv_le_contravar; lra. }
  set (v := 1 + Rounded.u).
  assert (Hv : 1 <= v <= 1 + / 1000000) by (unfold v; lra).
  assert (Hv2 : 1 <= v * v <= 1 + / 400000) by nra.
  assert (Hv4 : 1 <= (v * v) * (v * v) <= 1 + / 100000) by nra.
  replace (1 * v * 100 * v * v * v) with (100 * ((v * v) * (v * v))) by ring.
  lra.
Qed.

Lemma twoPixels_colours :
  (Z.of_nat (length (Rounded.aggregateWeights Rounded.roundUp twoPixels 1)) <= 16777216)%Z.
Proof. rewrite twoPixels_weights. cbn [length]. lia. Qed.

Lemma twoPixels_total :
  sumR (Rounded.qualifyingWeights (Rounded.aggregateWeights Rounded.roundUp twoPixels 1))
  <= 1000000000000000.
Proof.
  rewrite twoPixels_weights. unfold Rounded.qualifyingWeights.
  pose proof twoPixels_weight as Hw. cbn [filter]. unfold qualifies.
  cbn [snd weightedFrequency].
  destruct (Rge_dec _ 0.1) as [_|Hn]; [|exfalso; lra].
  cbn [map snd weightedFrequency]. rewrite !sumR_cons. unfold sumR. cbn [fold_right].
  lra.
Qed.

(** C4, counterexample.  With sums computed in binary64 the frequencies of
    nine pixels in a row, seven of one colour and one each of two others,
    add up to more than 100: the emitted frequencies are 700/900, 100/900
    and 100/900 of 100, each rounded twice; their binary64 sum is the double
    after 100, their exact sum is [100 + 2^-47]; the returned list carries
    the same three frequencies. *)
Lemma nine_pixels_sum_above_100 :
  map (fun entry => B64.weightedFrequency (snd entry)) (B64.aggregateWeights nineInARow 1)
  = [700; 100; 100]%float /\
  (forall Math_pow,
     let emitted := B64.normalizedResults Math_pow (B64.aggregateWeights nineInARow 1) in
     map (fun c => Prim2SF (B64.frequency c)) emitted
     = [S754_finite false 5473124547151645 (-46);
        S754_finite false 6254999482459022 (-49);
        S754_finite false 6254999482459022 (-49)] /\
     (100 <? B64.addFrequencies 0 emitted)%float = true /\
     100 < sumR (map (fun c => B64.toR (B64.frequency c)) emitted) /\
     map B64.frequency (B64.extractColorsWeightedGrid Math_pow nineInARow 5 1)
     = map B64.frequency emitted /\
     (100 <? B64.addFrequencies 0 (B64.extractColorsWeightedGrid Math_pow nineInARow 5 1))%float
     = true).
Proof.
  split; [vm_compute; reflexivity|]. intros Math_pow emitted.
  assert (E : map (fun c => Prim2SF (B64.frequency c)) emitted
              = [S754_finite false 5473124547151645 (-46);
                 S754_finite false 6254999482459022 (-49);
                 S754_finite false 6254999482459022 (-49)])
    by (vm_compute; reflexivity).
  split; [exact E|]. split; [vm_compute; reflexivity|].
  split; [|split; vm_compute; reflexivity].
  clearbody emitted.
  destruct emitted as [|a [|b [|c [|d l]]]]; try discriminate E.
  cbn [map] in E. injection E as Ea Eb Ec.
  cbn [map]. unfold B64.toR. rewrite Ea, Eb, Ec.
  unfold sumR. cbn [fold_right cond_Zopp Z.leb Z.compare Z.opp].
  change (2 ^ 46)%Z with 70368744177664%Z.
  change (2 ^ 49)%Z with 562949953421312%Z.
  lra.
Qed.

(** C4.  With every arithmetic result rounded ([rnd] within the relative
    distance [2^-53] of the exact value), at most [2^24] colours and
    weights of total at most [10^15]: when at least one colour has an
    accumulated weight of 0.1 or more, the frequencies emitted by the two
    normalisation passes (before merging and filtering) add up to 100 within
    [10^-6], and the frequencies of the list returned after merging,
    significance filtering and selection add up to at most [100 + 10^-6].
    Neither sum is bounded by 100 itself. *)
Theorem normalized_frequencies_sum (rnd : R -> R)
    (close : ColorResult -> ColorResult -> bool) (toLab : RGB -> LAB)
    (imageData : ImageData) (maxColors standardGridSize : Z) :
  let globalColorWeights := Rounded.aggregateWeights rnd imageData standardGridSize in
  Rounded.accurate rnd ->
  (exists entry, In entry globalColorWeights /\ weightedFrequency (snd entry) >= 0.1) ->
  (Z.of_nat (length globalColorWeights) <= 16777216)%Z ->
  sumR (Rounded.qualifyingWeights globalColorWeights) <= 1000000000000000 ->
  100 - / 1000000
  <= sumFrequency (Rounded.normalizedResults rnd toLab globalColorWeights)
  <= 100 + / 1000000 /\
  sumFrequency
    (Rounded.extractColorsWeightedGrid rnd close toLab imageData maxColors standardGridSize)
  <= 100 + / 1000000 /\
  (forall l,
     Rounded.extractColors rnd close toLab true (Fulfilled imageData) maxColors
                           standardGridSize = Fulfilled l ->
     sumFrequency l <= 100 + / 1000000).
Proof.
  intros m Hacc Hex Hlen Hsum.
  pose proof (qualifyingWeights_nonempty m Hex) as Hne.
  pose proof (qualifyingWeights_length m) as Hql.
  assert (Hret : sumFrequency
                   (Rounded.extractColorsWeightedGrid rnd close toLab imageData maxColors
                                                      standardGridSize)
                 <= 100 + / 1000000).
  { unfold Rounded.extractColorsWeightedGrid. fold m.
    now apply rounded_returned_bound. }
  split; [|split].
  - destruct (rounded_emitted_bounds rnd toLab m Hacc Hne ltac:(lia) Hsum)
      as ([H1 H2] & _). lra.
  - exact Hret.
  - intros l Hl. unfold Rounded.extractColors in Hl. cbn [negb] in Hl.
    injection Hl as <-. now rewrite sortByFrequencyDesc_sum.
Qed.

Lemma normalized_frequencies_sum_witness :
  100 - / 1000000
  <= sumFrequency (Rounded.normalizedResults Rounded.roundUp rgbToLab
                     (Rounded.aggregateWeights Rounded.roundUp twoPixels 1))
  <= 100 + / 1000000 /\
  sumFrequency (Rounded.extractColorsWeightedGrid Rounded.roundUp closeTo rgbToLab
                                                  twoPixels 5 1)
  <= 100 + / 1000000.
Proof.
  assert (Hw : exists entry,
             In entry (Rounded.aggregateWeights Rounded.roundUp twoPixels 1) /\
             weightedFrequency (snd entry) >= 0.1).
  { exists ("#ff0000"%string,
            {| cw_rgb := mkRGB 255 0 0;
               weightedFrequency :=
                 Rounded.roundUp (Rounded.localPercentage Rounded.roundUp 1 1
                                  * Rounded.roundUp (IZR 1 / IZR 1)) |}).
    split; [rewrite twoPixels_weights; now left|].
    cbn [snd weightedFrequency]. pose proof twoPixels_weight. lra. }
  destruct (normalized_frequencies_sum Rounded.roundUp closeTo rgbToLab twoPixels 5 1
              roundUp_accurate Hw twoPixels_colours twoPixels_total)
    as (Hemitted & Hreturned & _).
  split; [exact Hemitted | exact Hreturned].
Defined.

Local Close Scope R_scope.

(** ** What the merger keeps *)

Local Open Scope R_scope.

Lemma rounded_mergeLoop_lower (rnd : R -> R) (close : ColorResult -> ColorResult -> bool)
    (toLab : RGB -> LAB) (colors : list ColorResult) (M : Z) :
  Rounded.accurate rnd ->
  Forall (fun c => / 100000000000000000000 <= frequency c) colors ->
  (1 + Rounded.u) ^ length colors * sumFrequency colors <= 100000000000000000000 ->
  forall (fuel i : nat) (merged : list ColorResult) (used : list nat),
    (i + fuel = length colors)%nat ->
    (Z.of_nat (length (Rounded.mergeLoop rnd close toLab colors M fuel i merged used)) < M)%Z ->
    sumFrequency merged
    + (1 - Rounded.u) ^ length colors * pending colors used (seq i fuel)
    <= sumFrequency (Rounded.mergeLoop rnd close toLab colors M fuel i merged used).
Proof.
  intros Hacc Hlo Hhi.
  induction fuel as [|fuel IH]; intros i merged used Hlen Hcap.
  - cbn [Rounded.mergeLoop seq]. unfold pending, sumR. cbn. lra.
  - cbn [Rounded.mergeLoop] in Hcap |- *. cbn [seq]. rewrite pending_cons.
    destruct (Nat.ltb_spec i (length colors)) as [Hi|Hi]; [|lia].
    destruct (Z.ltb_spec (Z.of_nat (length merged)) M) as [Hm|Hm]; cbn [andb] in Hcap |- *;
      [|lia].
    destruct (used_has i used) eqn:Hu.
    + specialize (IH (S i) merged used ltac:(lia) Hcap). lra.
    + destruct (nth_error colors i) as [baseColor|] eqn:Hb;
        [|apply nth_error_None in Hb; lia].
      destruct (rounded_group_bound rnd close colors i baseColor used Hacc Hlo Hhi Hb)
        as (_ & _ & Hg).
      replace (length colors - S i)%nat with fuel in Hg by lia.
      set (acc := Rounded.mergeGroup rnd close colors i baseColor used) in *.
      specialize (IH (S i) (merged ++ [Rounded.mergedEntry rnd toLab acc])
                     (i :: acc_used acc) ltac:(lia) Hcap).
      rewrite sumFrequency_app in IH. unfold sumFrequency at 2 in IH.
      cbn [fold_right Rounded.mergedEntry frequency] in IH.
      unfold freqAt. rewrite Hb.
      pose proof (pow_down_le_1 (length colors)). nra.
Qed.

Lemma grays_close : closeTo grayA grayB = true.
Proof.
  unfold closeTo. rewrite grays_distance.
  destruct (Rlt_dec 2 (mergeThreshold grayA)) as [_|Hn]; [reflexivity|].
  exfalso. apply Hn. unfold mergeThreshold, isRedColor. simpl. lra.
Qed.

Lemma three_grays_merged :
  length (Rounded.mergeSimilarColorsConservative Rounded.roundUp closeTo rgbToLab
            [grayA; grayB; grayB] 2) = 1%nat.
Proof.
  unfold Rounded.mergeSimilarColorsConservative. cbn [length].
  change (Z.of_nat 3 <=? 2)%Z with false. cbv iota.
  cbn [Rounded.mergeLoop length Nat.ltb Nat.leb andb used_has existsb nth_error].
  change (Z.of_nat 0 <? 2)%Z with true. cbv iota.
  unfold Rounded.mergeGroup, for_index.
  cbn [length Nat.sub seq fold_left].
  unfold Rounded.mergeStep at 2.
  cbn [acc_used used_has existsb nth_error]. rewrite grays_close.
  unfold Rounded.mergeStep.
  cbn [acc_used used_has existsb nth_error Nat.eqb orb]. rewrite grays_close.
  cbn [acc_used used_has existsb Nat.eqb orb app length].
  reflexivity.
Qed.

(** X12.  With every arithmetic result rounded, on frequencies of at least
    [10^-20] whose total stays below [10^20]: the total frequency of the
    merged list exceeds that of the input by at most one rounding for each
    colour; and when the merger returns fewer entries than the cap no colour
    was dropped, so the total also falls short by at most that much. *)
Theorem merge_conserves_frequency (rnd : R -> R)
    (close : ColorResult -> ColorResult -> bool) (toLab : RGB -> LAB)
    (colors : list ColorResult) (M : Z) :
  Rounded.accurate rnd ->
  Forall (fun c => / 100000000000000000000 <= frequency c) colors ->
  (1 + Rounded.u) ^ length colors * sumFrequency colors <= 100000000000000000000 ->
  sumFrequency (Rounded.mergeSimilarColorsConservative rnd close toLab colors M)
  <= (1 + Rounded.u) ^ length colors * sumFrequency colors /\
  ((Z.of_nat (length (Rounded.mergeSimilarColorsConservative rnd close toLab colors M)) < M)%Z ->
   (1 - Rounded.u) ^ length colors * sumFrequency colors
   <= sumFrequency (Rounded.mergeSimilarColorsConservative rnd close toLab colors M)).
Proof.
  intros Hacc Hlo Hhi.
  split; [apply (proj1 (rounded_merge_sum rnd close toLab colors M Hacc Hlo Hhi))|].
  intros Hcap.
  assert (Hsum : 0 <= sumFrequency colors).
  { rewrite sumFrequency_map. apply sumR_nonneg. intros c Hc.
    rewrite Forall_forall in Hlo. specialize (Hlo c Hc). cbv beta in Hlo. lra. }
  pose proof (pow_down_le_1 (length colors)) as Hd.
  unfold Rounded.mergeSimilarColorsConservative in Hcap |- *.
  destruct (Z.of_nat (length colors) <=? M)%Z; [nra|].
  pose proof (rounded_mergeLoop_lower rnd close toLab colors M Hacc Hlo Hhi
                (length colors) 0 [] [] eq_refl Hcap) as H.
  rewrite pending_all in H. unfold sumFrequency at 1 in H. cbn [fold_right] in H.
  lra.
Qed.

Lemma merge_conserves_frequency_witness :
  (1 - Rounded.u) ^ 3 * sumFrequency [grayA; grayB; grayB]
  <= sumFrequency (Rounded.mergeSimilarColorsConservative Rounded.roundUp closeTo rgbToLab
                     [grayA; grayB; grayB] 2)
  <= (1 + Rounded.u) ^ 3 * sumFrequency [grayA; grayB; grayB].
Proof.
  assert (Hlo : Forall (fun c => / 100000000000000000000 <= frequency c)
                       [grayA; grayB; grayB])
    by (repeat constructor; simpl; lra).
  assert (Hhi : (1 + Rounded.u) ^ length [grayA; grayB; grayB]
                * sumFrequency [grayA; grayB; grayB] <= 100000000000000000000).
  { destruct u_small as [Hu Hu']. unfold sumFrequency. simpl.
    assert (Hv : 1 <= 1 + Rounded.u <= 2) by lra.
    set (v := 1 + Rounded.u) in *.
    assert (v * v <= 4) by nra. assert (v * (v * v) <= 8) by nra. nra. }
  assert (Hcap : (Z.of_nat (length (Rounded.mergeSimilarColorsConservative
                                      Rounded.roundUp closeTo rgbToLab
                                      [grayA; grayB; grayB] 2)) < 2)%Z)
    by (rewrite three_grays_merged; simpl; lia).
  destruct (merge_conserves_frequency Rounded.roundUp closeTo rgbToLab
              [grayA; grayB; grayB] 2 roundUp_accurate Hlo Hhi) as [Hup Hdown].
  split; [exact (Hdown Hcap) | exact Hup].
Defined.

Local Close Scope R_scope.

(** ** The bounds of the returned list *)

Local Open Scope R_scope.

Lemma rounded_results_empty (rnd : R -> R) (toLab : RGB -> LAB) (m : JSMap ColorWeight) :
  Rounded.qualifyingWeights m = [] -> Rounded.normalizedResults rnd toLab m = [].
Proof.
  intros E. pose proof (rounded_results_frequencies rnd toLab m) as H.
  rewrite E in H. cbn [map] in H. now apply map_eq_nil in H.
Qed.

Lemma rounded_returned_none (rnd : R -> R) (close : ColorResult -> ColorResult -> bool)
    (toLab : RGB -> LAB) (imageData : ImageData) (maxColors S : Z) (c : ColorResult) :
  Rounded.qualifyingWeights (Rounded.aggregateWeights rnd imageData S) = [] ->
  ~ In c (Rounded.extractColorsWeightedGrid rnd close toLab imageData maxColors S).
Proof.
  intros E Hc. unfold Rounded.extractColorsWeightedGrid in Hc.
  rewrite (rounded_results_empty rnd toLab _ E) in Hc.
  apply selected_significant in Hc. destruct Hc as [Hc _].
  change (sortByFrequencyDesc []) with (@nil ColorResult) in Hc.
  unfold Rounded.mergeSimilarColorsConservative in Hc.
  destruct (Z.of_nat (length (@nil ColorResult)) <=? maxColors * 3)%Z; exact Hc.
Qed.

(** X15.  With every arithmetic result rounded, at most [2^24] colours and
    weights of total at most [10^15]: a call with [maxColors >= 0] is
    fulfilled with at most [maxColors] entries, and the frequency of every
    returned entry is at least 0.5 and at most [100 + 10^-6]. *)
Theorem extractColors_bounds (rnd : R -> R)
    (close : ColorResult -> ColorResult -> bool) (toLab : RGB -> LAB)
    (canvasAvailable : bool) (imageData : ImageData)
    (maxColors S : Z) (l : list ColorResult) :
  Rounded.accurate rnd ->
  (Z.of_nat (length (Rounded.aggregateWeights rnd imageData S)) <= 16777216)%Z ->
  sumR (Rounded.qualifyingWeights (Rounded.aggregateWeights rnd imageData S))
  <= 1000000000000000 ->
  Rounded.extractColors rnd close toLab canvasAvailable (Fulfilled imageData) maxColors S
  = Fulfilled l ->
  ((0 <= maxColors)%Z -> (Z.of_nat (length l) <= maxColors)%Z) /\
  (forall c, In c l -> 0.5 <= frequency c <= 100 + / 1000000).
Proof.
  intros Hacc Hlen Hsum.
  unfold Rounded.extractColors. destruct canvasAvailable; cbn [negb]; [|discriminate].
  intros E. injection E as <-.
  set (out := Rounded.extractColorsWeightedGrid rnd close toLab imageData maxColors S).
  pose proof (sortByFrequencyDesc_perm out) as Hperm.
  assert (Hsig : forall x, In x out -> 0.5 <= frequency x).
  { intros x Hx. unfold out, Rounded.extractColorsWeightedGrid in Hx.
    now apply selected_significant in Hx. }
  split.
  - intros Hm. rewrite <- (Permutation_length Hperm).
    unfold out, Rounded.extractColorsWeightedGrid.
    rewrite selectDiverseColors_prefix by assumption.
    rewrite length_firstn. lia.
  - intros c Hc. apply (Permutation_in _ (Permutation_sym Hperm)) in Hc.
    split; [now apply Hsig|].
    assert (Hcase : Rounded.qualifyingWeights (Rounded.aggregateWeights rnd imageData S) = []
                    \/ Rounded.qualifyingWeights (Rounded.aggregateWeights rnd imageData S)
                       <> []).
    { destruct (Rounded.qualifyingWeights _); [now left | right; discriminate]. }
    destruct Hcase as [Eq|Hne].
    + exfalso. exact (rounded_returned_none rnd close toLab imageData maxColors S c Eq Hc).
    + assert (Hret : sumFrequency out <= 100 + / 1000000).
      { unfold out, Rounded.extractColorsWeightedGrid.
        now apply rounded_returned_bound. }
      assert (Hnn : nonnegFrequencies out).
      { apply Forall_forall. intros x Hx. specialize (Hsig x Hx). lra. }
      pose proof (element_le_sum out c Hnn Hc). lra.
Qed.

Lemma extractColors_bounds_witness :
  (Z.of_nat (length (sortByFrequencyDesc
                       (Rounded.extractColorsWeightedGrid Rounded.roundUp closeTo rgbToLab
                                                          twoPixels 5 1))) <= 5)%Z /\
  (forall c,
     In c (sortByFrequencyDesc
             (Rounded.extractColorsWeightedGrid Rounded.roundUp closeTo rgbToLab
                                                twoPixels 5 1)) ->
     0.5 <= frequency c <= 100 + / 1000000).
Proof.
  destruct (extractColors_bounds Rounded.roundUp closeTo rgbToLab true twoPixels 5 1 _
              roundUp_accurate twoPixels_colours twoPixels_total eq_refl) as [Hn Hf].
  split; [apply Hn; lia | exact Hf].
Defined.

Local Close Scope R_scope.

(** ** [getContrastColor] *)

Local Open Scope R_scope.

(** One more rounding of a value that is within the relative distance [a]
    of [y]. *)
Lemma round_relative (rnd : R -> R) (x y a : R) :
  Rounded.accurate rnd -> rnd 0 = 0 ->
  0 <= a <= / 100000000000000 ->
  y = 0 \/ / 10000000000 <= y <= 10000000000 ->
  (1 - a) * y <= x <= (1 + a) * y ->
  (1 - (a + 2 * / 1000000000000000)) * y <= rnd x
  <= (1 + (a + 2 * / 1000000000000000)) * y.
Proof.
  intros Hacc H0 Ha Hy Hx. destruct u_small as [Hu Hu'].
  destruct Hy as [->|Hy].
  - assert (x = 0) by lra. subst x. rewrite H0. lra.
  - assert (Hr : / 100000000000000000000 <= x <= 100000000000000000000) by nra.
    pose proof (accurate_bounds rnd x Hacc Hr) as [H1 H2].
    assert (0 <= x) by nra.
    assert (Rounded.u * a <= Rounded.u) by nra.
    assert (0 <= Rounded.u * a) by nra.
    split.
    + apply Rle_trans with ((1 - Rounded.u) * x); [|assumption].
      apply Rle_trans with ((1 - Rounded.u) * ((1 - a) * y)); [nra|].
      apply Rmult_le_compat_l; lra.
    + apply Rle_trans with ((1 + Rounded.u) * x); [assumption|].
      apply Rle_trans with ((1 + Rounded.u) * ((1 + a) * y)); [|nra].
      apply Rmult_le_compat_l; lra.
Qed.

(** A rounded coefficient times a byte, rounded. *)
Lemma round_term (rnd : R -> R) (k : R) (n : Z) :
  Rounded.accurate rnd -> rnd 0 = 0 ->
  / 10 <= k <= 1 -> (0 <= n <= 255)%Z ->
  (1 - 4 * / 1000000000000000) * (k * IZR n) <= rnd (rnd k * IZR n)
  <= (1 + 4 * / 1000000000000000) * (k * IZR n).
Proof.
  intros Hacc H0 Hk Hn.
  assert (Hc : (1 - (0 + 2 * / 1000000000000000)) * k <= rnd k
               <= (1 + (0 + 2 * / 1000000000000000)) * k).
  { apply round_relative; try assumption; lra. }
  assert (HN : IZR n = 0 \/ 1 <= IZR n <= 255).
  { destruct (Z.eq_dec n 0) as [->|Hne]; [now left|]. right.
    split; apply IZR_le; lia. }
  replace (4 * / 1000000000000000) with (2 * / 1000000000000000 + 2 * / 1000000000000000)
    by lra.
  apply round_relative; try assumption; try lra.
  - destruct HN as [->|HN]; [left; lra | right; nra].
  - destruct HN as [->|HN]; [lra | nra].
Qed.

Lemma roundUp_zero : Rounded.roundUp 0 = 0.
Proof. unfold Rounded.roundUp. lra. Qed.

(** X28.  With every arithmetic result rounded, rounding exact on 0: on the
    hex code that [rgbToHex] writes for a byte colour, [getContrastColor]
    reads the three components back and, unless [299 r + 587 g + 114 b] is
    exactly 127500, answers black when that sum exceeds 127500 and white
    when it falls short of it. *)
Theorem getContrastColor_rgbToHex (rnd : R -> R) (c : RGB) :
  Rounded.accurate rnd -> rnd 0 = 0 ->
  byteRGB c ->
  (299 * rgb_r c + 587 * rgb_g c + 114 * rgb_b c <> 127500)%Z ->
  Rounded.getContrastColor rnd (rgbToHex c) =
  if (127500 <? 299 * rgb_r c + 587 * rgb_g c + 114 * rgb_b c)%Z
  then "#000000"%string else "#ffffff"%string.
Proof.
  intros Hacc H0 (Hr & Hg & Hb) Hne.
  pose proof (parseInt16_toHex _ Hr) as Pr.
  pose proof (parseInt16_toHex _ Hg) as Pg.
  pose proof (parseInt16_toHex _ Hb) as Pb.
  unfold Rounded.getContrastColor, rgbToHex. cbv zeta.
  unfold toHex in *. cbv zeta in *.
  cbn [append removeFirstHash substr substring].
  change (Ascii.eqb "#" "#") with true. cbv iota.
  cbn [substring].
  rewrite Pr, Pg, Pb.
  destruct c as [r g b]. cbn [rgb_r rgb_g rgb_b] in *.
  pose proof (round_term rnd 0.299 r Hacc H0 ltac:(lra) Hr) as T1.
  pose proof (round_term rnd 0.587 g Hacc H0 ltac:(lra) Hg) as T2.
  pose proof (round_term rnd 0.114 b Hacc H0 ltac:(lra) Hb) as T3.
  set (x1 := rnd (rnd 0.299 * IZR r)) in *.
  set (x2 := rnd (rnd 0.587 * IZR g)) in *.
  set (x3 := rnd (rnd 0.114 * IZR b)) in *.
  assert (HR : IZR r = 0 \/ 1 <= IZR r <= 255).
  { destruct (Z.eq_dec r 0) as [->|]; [now left | right; split; apply IZR_le; lia]. }
  assert (HG : IZR g = 0 \/ 1 <= IZR g <= 255).
  { destruct (Z.eq_dec g 0) as [->|]; [now left | right; split; apply IZR_le; lia]. }
  assert (HB : IZR b = 0 \/ 1 <= IZR b <= 255).
  { destruct (Z.eq_dec b 0) as [->|]; [now left | right; split; apply IZR_le; lia]. }
  assert (S1 : (1 - (4 * / 1000000000000000 + 2 * / 1000000000000000))
               * (0.299 * IZR r + 0.587 * IZR g)
               <= rnd (x1 + x2)
               <= (1 + (4 * / 1000000000000000 + 2 * / 1000000000000000))
                  * (0.299 * IZR r + 0.587 * IZR g)).
  { apply round_relative; try assumption; lra. }
  set (s1 := rnd (x1 + x2)) in *.
  assert (S2 : (1 - (6 * / 1000000000000000 + 2 * / 1000000000000000))
               * (0.299 * IZR r + 0.587 * IZR g + 0.114 * IZR b)
               <= rnd (s1 + x3)
               <= (1 + (6 * / 1000000000000000 + 2 * / 1000000000000000))
                  * (0.299 * IZR r + 0.587 * IZR g + 0.114 * IZR b)).
  { apply round_relative; try assumption; lra. }
  set (s2 := rnd (s1 + x3)) in *.
  assert (L : (1 - (8 * / 1000000000000000 + 2 * / 1000000000000000))
              * ((0.299 * IZR r + 0.587 * IZR g + 0.114 * IZR b) / 255)
              <= rnd (s2 / 255)
              <= (1 + (8 * / 1000000000000000 + 2 * / 1000000000000000))
                 * ((0.299 * IZR r + 0.587 * IZR g + 0.114 * IZR b) / 255)).
  { apply round_relative; try assumption; lra. }
  set (luminance := rnd (s2 / 255)) in *.
  assert (EN : IZR (299 * r + 587 * g + 114 * b)
               = 1000 * (0.299 * IZR r + 0.587 * IZR g + 0.114 * IZR b)).
  { rewrite !plus_IZR, !mult_IZR. lra. }
  destruct (Z.ltb_spec 127500 (299 * r + 587 * g + 114 * b)) as [Hgt|Hle].
  - assert (HN : 127501 <= IZR (299 * r + 587 * g + 114 * b)) by (apply IZR_le; lia).
    destruct (Rgt_dec luminance 0.5) as [_|Hn]; [reflexivity|]. exfalso. lra.
  - assert (HN : IZR (299 * r + 587 * g + 114 * b) <= 127499) by (apply IZR_le; lia).
    destruct (Rgt_dec luminance 0.5) as [Hn|_]; [|reflexivity]. exfalso. lra.
Qed.

Lemma getContrastColor_rgbToHex_witness :
  Rounded.getContrastColor Rounded.roundUp (rgbToHex (mkRGB 128 128 128)) = "#000000"%string.
Proof.
  apply (getContrastColor_rgbToHex Rounded.roundUp (mkRGB 128 128 128)
           roundUp_accurate roundUp_zero).
  - unfold byteRGB. simpl. lia.
  - simpl. lia.
Defined.

(** At a tie the rounding decides.  In binary64 the luminance of [#da3af8],
    where [299 r + 587 g + 114 b] is 127500, comes out above 0.5 and the
    answer is black; that of [#00cc44], another tie, does not and the
    answer is white. *)
Example getContrastColor_ties :
  (299 * 218 + 587 * 58 + 114 * 248 = 127500)%Z /\
  B64.getContrastColor (rgbToHex (mkRGB 218 58 248)) = "#000000"%string /\
  (299 * 0 + 587 * 204 + 114 * 68 = 127500)%Z /\
  B64.getContrastColor (rgbToHex (mkRGB 0 204 68)) = "#ffffff"%string.
Proof. repeat split; vm_compute; reflexivity. Qed.

Local Close Scope R_scope.
